(** * fast-near: the view-call service, embedded from its JavaScript sources

    The development follows three source files:
    - [storage-client.js]: the memoising wrapper [withRedis] and the eight
      state-resolver operations built on the Redis client;
    - [json-rpc.js]: the account record schema, [viewAccount] and
      [handleError];
    - the HTTP front end (the file that defines [runContract], [isJSON] and
      [runViewMethod]).

    JavaScript data is kept as the program has it: a [Buffer] is a list of
    bytes, a string is a list of UTF-16 code units, a dynamically typed
    result is a [value], a rejected promise is an [Err]. *)

From Stdlib Require Import ZArith NArith List Lia.
From Stdlib Require Import Strings.String Strings.Ascii Strings.Byte.
From Stdlib Require Import DecimalString DecimalZ DecimalPos.
From stdpp Require Import base option list gmap countable.
Import ListNotations.

Set Warnings "-register-all".

(* ================================================================== *)
(** * 1. JavaScript data *)
(* ================================================================== *)

(** The contents of a [Buffer] or [Uint8Array]. *)
Definition bytes := list byte.

(** A JavaScript string: its UTF-16 code units. [length] of the list is the
    string's [.length]. *)
Definition jsstring := list N.

#[global] Instance byte_eq_dec : EqDecision byte := Byte.byte_eq_dec.
#[global] Instance byte_countable : Countable byte :=
  inj_countable Byte.to_N Byte.of_N Byte.of_to_N.

(** A string literal of the program text (ASCII). *)
Definition js (s : string) : jsstring :=
  map N_of_ascii (list_ascii_of_string s).

(** The bytes of an ASCII literal, as [Buffer.from('...')] gives them. *)
Definition buf (s : string) : bytes := list_byte_of_string s.

Definition byte_of_N (n : N) : byte :=
  match Byte.of_N (n mod 256) with
  | Some b => b
  | None => x00
  end.

(** ** UTF-16 to code points, and UTF-8 encoding: [Buffer.from(string)] *)

Definition is_high_surrogate (u : N) : bool :=
  ((0xD800 <=? u) && (u <=? 0xDBFF))%N.
Definition is_low_surrogate (u : N) : bool :=
  ((0xDC00 <=? u) && (u <=? 0xDFFF))%N.

(** A surrogate pair is one code point; a lone surrogate is encoded as
    U+FFFD, as Node does. *)
Fixpoint codepoints (s : jsstring) : list N :=
  match s with
  | [] => []
  | u :: rest =>
      if is_high_surrogate u then
        match rest with
        | l :: rest' =>
            if is_low_surrogate l
            then (0x10000 + (u - 0xD800) * 0x400 + (l - 0xDC00))%N :: codepoints rest'
            else 0xFFFD%N :: codepoints rest
        | [] => [0xFFFD%N]
        end
      else if is_low_surrogate u then 0xFFFD%N :: codepoints rest
      else u :: codepoints rest
  end.

Definition utf8_encode (c : N) : bytes :=
  if (c <? 0x80)%N then [byte_of_N c]
  else if (c <? 0x800)%N then
    [byte_of_N (0xC0 + c / 0x40); byte_of_N (0x80 + c mod 0x40)]
  else if (c <? 0x10000)%N then
    [byte_of_N (0xE0 + c / 0x1000); byte_of_N (0x80 + (c / 0x40) mod 0x40);
     byte_of_N (0x80 + c mod 0x40)]
  else
    [byte_of_N (0xF0 + c / 0x40000); byte_of_N (0x80 + (c / 0x1000) mod 0x40);
     byte_of_N (0x80 + (c / 0x40) mod 0x40); byte_of_N (0x80 + c mod 0x40)].

(** [Buffer.from(s)] for a string [s] (the default encoding is UTF-8). *)
Definition Buffer_from (s : jsstring) : bytes :=
  flat_map utf8_encode (codepoints s).

(** ** UTF-8 decoding: [buffer.toString('utf8')]

    The decoder of the Encoding standard, in replacement mode: an
    ill-formed sequence gives U+FFFD and the offending byte is read again. *)

Record utf8_state := {
  u8_cp : N;        (* code point being assembled *)
  u8_needed : nat;  (* continuation bytes still expected *)
  u8_lower : N;
  u8_upper : N
}.

Definition u8_init : utf8_state :=
  {| u8_cp := 0; u8_needed := 0; u8_lower := 0x80; u8_upper := 0xBF |}.

(** A byte read with no sequence pending. *)
Definition u8_start (b : N) : list N * utf8_state :=
  if (b <=? 0x7F)%N then ([b], u8_init)
  else if ((0xC2 <=? b) && (b <=? 0xDF))%N then
    ([], {| u8_cp := b mod 0x20; u8_needed := 1; u8_lower := 0x80; u8_upper := 0xBF |})
  else if ((0xE0 <=? b) && (b <=? 0xEF))%N then
    ([], {| u8_cp := b mod 0x10; u8_needed := 2;
            u8_lower := if (b =? 0xE0)%N then 0xA0 else 0x80;
            u8_upper := if (b =? 0xED)%N then 0x9F else 0xBF |})
  else if ((0xF0 <=? b) && (b <=? 0xF4))%N then
    ([], {| u8_cp := b mod 0x8; u8_needed := 3;
            u8_lower := if (b =? 0xF0)%N then 0x90 else 0x80;
            u8_upper := if (b =? 0xF4)%N then 0x8F else 0xBF |})
  else ([0xFFFD%N], u8_init).

Definition u8_step (st : utf8_state) (b : N) : list N * utf8_state :=
  match u8_needed st with
  | O => u8_start b
  | S n =>
      if ((u8_lower st <=? b) && (b <=? u8_upper st))%N then
        let cp := (u8_cp st * 0x40 + b mod 0x40)%N in
        match n with
        | O => ([cp], u8_init)
        | S _ => ([], {| u8_cp := cp; u8_needed := n; u8_lower := 0x80; u8_upper := 0xBF |})
        end
      else
        let '(out, st') := u8_start b in (0xFFFD%N :: out, st')
  end.

Fixpoint utf8_decode_from (st : utf8_state) (b : bytes) : list N :=
  match b with
  | [] => match u8_needed st with O => [] | S _ => [0xFFFD%N] end
  | x :: rest =>
      let '(out, st') := u8_step st (Byte.to_N x) in
      out ++ utf8_decode_from st' rest
  end.

(** A code point as UTF-16 code units. *)
Definition utf16_units (c : N) : jsstring :=
  if (c <? 0x10000)%N then [c]
  else [(0xD800 + (c - 0x10000) / 0x400)%N; (0xDC00 + (c - 0x10000) mod 0x400)%N].

Definition toString_utf8 (b : bytes) : jsstring :=
  flat_map utf16_units (utf8_decode_from u8_init b).

(** ** [buffer.toString('hex')] *)

Definition hex_digit (n : N) : N :=
  if (n <? 10)%N then (48 + n)%N else (87 + n)%N.

Definition toString_hex (b : bytes) : jsstring :=
  flat_map (fun x => [hex_digit (Byte.to_N x / 16); hex_digit (Byte.to_N x mod 16)]) b.

(** ** [String.prototype.trim], [startsWith], [join] *)

(** White space and line terminators of ECMAScript. *)
Definition is_js_space (u : N) : bool :=
  ((9 <=? u) && (u <=? 13) || (u =? 0x20) || (u =? 0xA0) || (u =? 0x1680)
   || (0x2000 <=? u) && (u <=? 0x200A) || (u =? 0x2028) || (u =? 0x2029)
   || (u =? 0x202F) || (u =? 0x205F) || (u =? 0x3000) || (u =? 0xFEFF))%N.

Fixpoint trimStart (s : jsstring) : jsstring :=
  match s with
  | u :: rest => if is_js_space u then trimStart rest else s
  | [] => []
  end.

Definition trim (s : jsstring) : jsstring :=
  rev (trimStart (rev (trimStart s))).

Fixpoint startsWith (s p : jsstring) : bool :=
  match p, s with
  | [], _ => true
  | _ :: _, [] => false
  | a :: p', b :: s' => (a =? b)%N && startsWith s' p'
  end.

Fixpoint join (sep : jsstring) (l : list jsstring) : jsstring :=
  match l with
  | [] => []
  | [x] => x
  | x :: rest => x ++ sep ++ join sep rest
  end.

(** Decimal rendering of an integer, as a template literal prints it. *)
Definition decimal (z : Z) : jsstring :=
  js (NilZero.string_of_int (Z.to_int z)).

(** ** Dynamically typed values, thrown errors, settled promises *)

Inductive value :=
| VUndefined
| VNull
| VNaN
| VNum (z : Z)     (* an integer: a number, or a BN of bn.js *)
| VStr (s : jsstring)
| VBuf (b : bytes)
| VArr (l : list value)
| VObj (fields : list (jsstring * value)).

(** A thrown [Error] object: what [error.toString()], [error.message] and
    [error.code] read. *)
Record Error := {
  ename : jsstring;
  emessage : jsstring;
  ecode : option jsstring
}.

(** The result of awaiting a promise: fulfilled or rejected. *)
Inductive outcome (A : Type) :=
| Ok (a : A)
| Err (e : Error).
Arguments Ok {A} a.
Arguments Err {A} e.

Definition TypeError (message : string) : Error :=
  {| ename := js "TypeError"; emessage := js message; ecode := None |}.

(** [Error.prototype.toString]. *)
Definition error_toString (e : Error) : jsstring :=
  match ename e, emessage e with
  | [], m => m
  | n, [] => n
  | n, m => n ++ js ": " ++ m
  end.

(** [!v]: the falsy values. A Buffer, an array and an object are truthy. *)
Definition falsy (v : value) : bool :=
  match v with
  | VUndefined | VNull | VNaN => true
  | VNum z => (z =? 0)%Z
  | VStr s => match s with [] => true | _ => false end
  | VBuf _ | VArr _ | VObj _ => false
  end.

(** [`${v}`] for the values that reach a template literal here. An array
    joins its elements with commas. *)
Fixpoint template (v : value) : jsstring :=
  match v with
  | VUndefined => js "undefined"
  | VNull => js "null"
  | VNaN => js "NaN"
  | VNum z => decimal z
  | VStr s => s
  | VBuf b => toString_utf8 b
  | VArr l =>
      join (js ",")
        (map (fun x => match x with VUndefined | VNull => [] | _ => template x end) l)
  | VObj _ => js "[object Object]"
  end.

(** The n-th actual parameter; a missing one is [undefined]. *)
Definition arg (n : nat) (args : list value) : value := nth n args VUndefined.

(** [const [x] = v]: the first element of an array, [undefined] when it is
    empty; a value that is not iterable throws. *)
Definition first_of (v : value) : outcome value :=
  match v with
  | VArr l => Ok (nth 0 l VUndefined)
  | VStr s => Ok (match codepoints s with c :: _ => VStr (utf16_units c) | [] => VUndefined end)
  | VBuf b => Ok (match b with x :: _ => VNum (Z.of_N (Byte.to_N x)) | [] => VUndefined end)
  | _ => Err (TypeError "object is not iterable")
  end.

(** [Buffer.from(v)]: a string is encoded as UTF-8, a buffer is copied, an
    array gives its elements as bytes. *)
Definition Buffer_from_value (v : value) : outcome bytes :=
  match v with
  | VStr s => Ok (Buffer_from s)
  | VBuf b => Ok b
  | VArr l =>
      Ok (map (fun x => match x with VNum z => byte_of_N (Z.to_N (z mod 256)) | _ => x00 end) l)
  | _ => Err {| ename := js "TypeError";
                emessage := js "The first argument must be of type string or an instance of Buffer, ArrayBuffer, or Array or an Array-like Object.";
                ecode := Some (js "ERR_INVALID_ARG_TYPE") |}
  end.

(** [Buffer.concat(list)]: every element must be a Buffer. *)
Fixpoint Buffer_concat (l : list value) : outcome bytes :=
  match l with
  | [] => Ok []
  | VBuf b :: rest =>
      match Buffer_concat rest with
      | Ok r => Ok (b ++ r)
      | Err e => Err e
      end
  | _ :: _ => Err {| ename := js "TypeError";
                     emessage := js "The list argument must be an instance of Buffer or Uint8Array.";
                     ecode := Some (js "ERR_INVALID_ARG_TYPE") |}
  end.

(* ================================================================== *)
(** * 2. The Redis server, as the client sees it *)
(* ================================================================== *)

(** A command on the wire is its list of byte-string arguments; a reply is
    nil, a bulk string, an integer or an array. *)
Definition Command := list bytes.

Inductive reply :=
| RNil
| RBulk (b : bytes)
| RInt (z : Z)
| RMulti (l : list reply).

(** The server: what it answers to a command, or a transport or command
    error. It is external to the program, so the resolver is stated over an
    arbitrary one; [redis_exec] below is the server over a concrete
    database. *)
Definition Server := Command -> outcome reply.

(** ** A concrete database: strings and sorted sets *)

Record DB := {
  db_strings : gmap bytes bytes;
  db_zsets : gmap bytes (list (bytes * Z))   (* members with their scores *)
}.

Inductive bound := NegInf | Fin (z : Z) | PosInf.

Definition parse_Z (b : bytes) : option Z :=
  match NilZero.int_of_string (string_of_list_byte b) with
  | Some d => Some (Z.of_int d)
  | None => None
  end.

(** A score bound of ZRANGEBYSCORE: an integer, [-inf] or [+inf]. *)
Definition parse_bound (b : bytes) : option bound :=
  if decide (b = buf "-inf") then Some NegInf
  else if decide (b = buf "+inf") then Some PosInf
  else if decide (b = buf "inf") then Some PosInf
  else match parse_Z b with
       | Some z => Some (Fin z)
       | None => None
       end.

Definition le_bound (z : Z) (b : bound) : bool :=
  match b with NegInf => false | Fin m => (z <=? m)%Z | PosInf => true end.
Definition ge_bound (z : Z) (b : bound) : bool :=
  match b with NegInf => true | Fin m => (m <=? z)%Z | PosInf => false end.

(** Lexicographic order on byte strings (memcmp, then length). *)
Fixpoint bytes_leb (a b : bytes) : bool :=
  match a, b with
  | [], _ => true
  | _ :: _, [] => false
  | x :: a', y :: b' =>
      if (Byte.to_N x <? Byte.to_N y)%N then true
      else if (Byte.to_N y <? Byte.to_N x)%N then false
      else bytes_leb a' b'
  end.

(** The order of a sorted set: by score, ties by member. [zset_geb x y]
    says that [x] comes no later than [y] in a reverse range. *)
Definition zset_geb (x y : bytes * Z) : bool :=
  if (x.2 <? y.2)%Z then false
  else if (y.2 <? x.2)%Z then true
  else bytes_leb y.1 x.1.

Fixpoint zset_insert_desc (x : bytes * Z) (l : list (bytes * Z)) : list (bytes * Z) :=
  match l with
  | [] => [x]
  | y :: l' => if zset_geb x y then x :: l else y :: zset_insert_desc x l'
  end.

Definition zset_sort_desc (l : list (bytes * Z)) : list (bytes * Z) :=
  foldr zset_insert_desc [] l.

(** ZREVRANGEBYSCORE key max min LIMIT offset count. *)
Definition zrevrangebyscore (zs : list (bytes * Z)) (max min : bound)
    (offset count : nat) : list bytes :=
  map fst
    (take count (drop offset
       (zset_sort_desc
          (filter (fun m => le_bound m.2 max && ge_bound m.2 min = true) zs)))).

(** ** Glob patterns of SCAN ... MATCH (Redis's [stringmatchlen]) *)

(** A test on one byte of a pattern. *)
Definition is_byte (c : string) (x : byte) : bool :=
  bool_decide ([x] = buf c).

(** The body of a [[...]] class from [p] (after an optional [^]): whether
    [c] is in it, and the pattern after the closing bracket. *)
Fixpoint glob_class (p : bytes) (c : byte) (found : bool) : bool * bytes :=
  match p with
  | [] => (found, [])
  | x :: p1 =>
      if is_byte "]" x then (found, p1)
      else
        match p1 with
        | y :: p2 =>
            if is_byte "\" x then glob_class p2 c (found || bool_decide (y = c))
            else
              match p2 with
              | hi :: p3 =>
                  if is_byte "-" y then
                    let a := N.min (Byte.to_N x) (Byte.to_N hi) in
                    let b := N.max (Byte.to_N x) (Byte.to_N hi) in
                    glob_class p3 c
                      (found || ((a <=? Byte.to_N c) && (Byte.to_N c <=? b))%N)
                  else glob_class p1 c (found || bool_decide (x = c))
              | [] => glob_class p1 c (found || bool_decide (x = c))
              end
        | [] => (found || bool_decide (x = c), [])
        end
  end.

Fixpoint glob_match (fuel : nat) (p s : bytes) : bool :=
  match fuel with
  | O => false
  | S fuel =>
      match p with
      | [] => match s with [] => true | _ => false end
      | x :: p1 =>
          if is_byte "*" x then
            glob_match fuel p1 s
            || existsb (fun k => glob_match fuel p1 (drop k s)) (seq 1 (length s))
          else if is_byte "?" x then
            match s with _ :: s1 => glob_match fuel p1 s1 | [] => false end
          else if is_byte "[" x then
            match s with
            | c :: s1 =>
                let '(neg, body) :=
                  match p1 with
                  | y :: q => if is_byte "^" y then (true, q) else (false, p1)
                  | [] => (false, p1)
                  end in
                let '(found, p2) := glob_class body c false in
                xorb neg found && glob_match fuel p2 s1
            | [] => false
            end
          else
            let '(lit, p2) :=
              match p1 with
              | y :: q => if is_byte "\" x then (y, q) else (x, p1)
              | [] => (x, p1)
              end in
            match s with
            | c :: s1 => bool_decide (lit = c) && glob_match fuel p2 s1
            | [] => false
            end
      end
  end.

Definition glob (p s : bytes) : bool := glob_match (S (length p)) p s.

Definition parse_nat (b : bytes) : option nat :=
  match parse_Z b with
  | Some z => if (0 <=? z)%Z then Some (Z.to_nat z) else None
  | None => None
  end.

Definition redis_error (message : string) : Error :=
  {| ename := js "ReplyError"; emessage := js message; ecode := Some (js "ERR") |}.

(** The keys of the database in the order in which SCAN walks them. *)
Definition scan_order (db : DB) : list bytes :=
  map fst (map_to_list (db_strings db)) ++ map fst (map_to_list (db_zsets db)).

(** One call of SCAN: the cursor is a position of the walk and COUNT the
    number of keys the call looks at. It gives the cursor to go on from, 0
    once the walk has reached the end, and the keys among those looked at
    that match the pattern. *)
Definition scan_page (db : DB) (cursor count : nat) (pattern : bytes) : nat * list bytes :=
  let keys := scan_order db in
  (if decide (length keys <= cursor + count) then 0 else cursor + count,
   filter (fun key => glob pattern key = true) (take count (drop cursor keys))).

(** The server over a database. *)
Definition redis_exec (db : DB) : Server := fun cmd =>
  match cmd with
  | [c; key] =>
      if decide (c = buf "GET") then
        match db_zsets db !! key with
        | Some _ => Err {| ename := js "ReplyError";
                           emessage := js "WRONGTYPE Operation against a key holding the wrong kind of value";
                           ecode := Some (js "WRONGTYPE") |}
        | None => Ok (match db_strings db !! key with Some v => RBulk v | None => RNil end)
        end
      else Err (redis_error "ERR unknown command")
  | [c; key; max; min; lim; off; cnt] =>
      if decide (c = buf "ZREVRANGEBYSCORE" ∧ lim = buf "LIMIT") then
        match parse_bound max, parse_bound min, parse_nat off, parse_nat cnt with
        | Some hi, Some lo, Some o, Some n =>
            Ok (RMulti (map RBulk
                  (zrevrangebyscore (default [] (db_zsets db !! key)) hi lo o n)))
        | None, _, _, _ | _, None, _, _ => Err (redis_error "ERR min or max is not a float")
        | _, _, _, _ => Err (redis_error "ERR value is not an integer or out of range")
        end
      else Err (redis_error "ERR unknown command")
  | [c; cursor; m; pattern; k; count] =>
      if decide (c = buf "SCAN" ∧ m = buf "MATCH" ∧ k = buf "COUNT") then
        match parse_nat cursor, parse_nat count with
        | None, _ => Err (redis_error "ERR invalid cursor")
        | Some _, None => Err (redis_error "ERR value is not an integer or out of range")
        | Some _, Some 0 => Err (redis_error "ERR syntax error")
        | Some i, Some n =>
            let page := scan_page db i n pattern in
            Ok (RMulti [RBulk (Buffer_from (decimal (Z.of_nat page.1)));
                        RMulti (map RBulk page.2)])
        end
      else Err (redis_error "ERR unknown command")
  | _ => Err (redis_error "ERR unknown command")
  end.

(* ================================================================== *)
(** * 3. storage-client.js *)
(* ================================================================== *)

(** ** The process: module-level state, the clock and the server *)

(** An entry of the [lru-cache] instance [redisCache]. The cached value is
    a promise, kept as the outcome it settles to ([pending] below until it
    has settled). *)
Record lru_entry := {
  lru_key : jsstring;
  lru_value : outcome value;
  lru_now : Z;       (* Date.now() when set, 0 without a maxAge *)
  lru_maxAge : Z     (* 0: never stale *)
}.

Record Process := {
  redisCache : list lru_entry;   (* most recently used first *)
  redisClient : bool;            (* the module's client has been created *)
  Date_now : Z;                  (* milliseconds *)
  server : Server;               (* the Redis server as it answers now *)
  wire : list Command            (* commands sent to the server, latest first *)
}.

(** Assignments to the module-level variables. *)
Definition with_redisCache (c : list lru_entry) (s : Process) : Process :=
  {| redisCache := c; redisClient := redisClient s; Date_now := Date_now s;
     server := server s; wire := wire s |}.
Definition with_redisClient (s : Process) : Process :=
  {| redisCache := redisCache s; redisClient := true; Date_now := Date_now s;
     server := server s; wire := wire s |}.
(** A command goes out. *)
Definition sent (cmd : Command) (s : Process) : Process :=
  {| redisCache := redisCache s; redisClient := redisClient s; Date_now := Date_now s;
     server := server s; wire := cmd :: wire s |}.

Definition LRU_max : nat := 1000.
Definition BLOCK_INDEX_CACHE_TIME : Z := 500.

(** An [async] computation: it reads and updates the process and settles. *)
Definition M (A : Type) : Type := Process -> outcome A * Process.

Definition ret {A} (a : A) : M A := fun s => (Ok a, s).
Definition throw {A} (e : Error) : M A := fun s => (Err e, s).
Definition bind {A B} (m : M A) (k : A -> M B) : M B := fun s =>
  match m s with
  | (Ok a, s') => k a s'
  | (Err e, s') => (Err e, s')
  end.

(** [await p] for a settled promise [p]. *)
Definition await {A} (p : outcome A) : M A := fun s => (p, s).

(** Calling an async function gives a promise and never throws. *)
Definition promise {A} (m : M A) : M (outcome A) := fun s =>
  let '(o, s') := m s in (Ok o, s').

Notation "'let*' x := m 'in' k" := (bind m (fun x => k))
  (at level 10, x pattern, m at level 100, k at level 200).

(** ** The Redis client of node-redis, with [detect_buffers: true] *)

(** An argument as sent: a Buffer as it is, a string or a number as the
    UTF-8 bytes of its text. Other values are refused by the client. *)
Definition wire_arg (v : value) : outcome bytes :=
  match v with
  | VBuf b => Ok b
  | VStr s => Ok (Buffer_from s)
  | VNum z => Ok (Buffer_from (decimal z))
  | VNaN => Ok (buf "NaN")
  | _ => Err (TypeError "The command contains an invalid argument type. Only strings, dates and buffers are accepted.")
  end.

Fixpoint wire_args (l : list value) : outcome (list bytes) :=
  match l with
  | [] => Ok []
  | v :: rest =>
      match wire_arg v, wire_args rest with
      | Ok b, Ok r => Ok (b :: r)
      | Err e, _ | _, Err e => Err e
      end
  end.

Definition is_buffer (v : value) : bool :=
  match v with VBuf _ => true | _ => false end.

(** A reply as the client hands it over: buffers when an argument of the
    command was a Buffer, strings otherwise. *)
Fixpoint reply_value (buffers : bool) (r : reply) : value :=
  match r with
  | RNil => VNull
  | RBulk b => if buffers then VBuf b else VStr (toString_utf8 b)
  | RInt z => VNum z
  | RMulti l => VArr (map (reply_value buffers) l)
  end.

Definition send (name : bytes) (args : list value) : M value := fun s =>
  match wire_args args with
  | Err e => (Err e, s)
  | Ok wargs =>
      let cmd := name :: wargs in
      match server s cmd with
      | Ok r => (Ok (reply_value (existsb is_buffer args) r), sent cmd s)
      | Err e => (Err e, sent cmd s)
      end
  end.

(** The object [getRedisClient()] returns. *)
Record RedisClient := {
  rc_get : value -> M value;
  rc_sendCommand : jsstring -> list value -> M value;
  rc_scan : list value -> M value
}.

Definition redis_client : RedisClient :=
  {| rc_get := fun key => send (buf "GET") [key];
     rc_sendCommand := fun name args => send (Buffer_from name) args;
     rc_scan := fun args => send (buf "SCAN") args |}.

(** [getRedisClient()]: the client is created on first use. *)
Definition getRedisClient : M RedisClient := fun s =>
  (Ok redis_client, with_redisClient s).

(** ** [lru-cache]: [get] and [set] *)

Definition lru_stale (now : Z) (e : lru_entry) : bool :=
  if (lru_maxAge e =? 0)%Z then false else (lru_maxAge e <? now - lru_now e)%Z.

Definition lru_without (key : jsstring) (c : list lru_entry) : list lru_entry :=
  filter (fun e => lru_key e ≠ key) c.

Definition lru_find (key : jsstring) (c : list lru_entry) : option lru_entry :=
  find (fun e => bool_decide (lru_key e = key)) c.

(** [cache.get(key)]: a stale entry is deleted and not returned; a fresh
    one becomes the most recently used. *)
Definition lru_get (key : jsstring) (now : Z) (c : list lru_entry)
  : option (outcome value) * list lru_entry :=
  match lru_find key c with
  | None => (None, c)
  | Some e =>
      if lru_stale now e then (None, lru_without key c)
      else (Some (lru_value e), e :: lru_without key c)
  end.

(** [cache.set(key, value, maxAge)]: the entry becomes the most recently
    used, and the least recently used ones beyond [max] are dropped. *)
Definition lru_set (key : jsstring) (v : outcome value) (maxAge : Z) (now : Z)
    (c : list lru_entry) : list lru_entry :=
  take LRU_max
    ({| lru_key := key; lru_value := v;
        lru_now := if (maxAge =? 0)%Z then 0%Z else now;
        lru_maxAge := maxAge |} :: lru_without key c).

Definition redisCache_get (key : jsstring) : M (option (outcome value)) := fun s =>
  let '(hit, c) := lru_get key (Date_now s) (redisCache s) in
  (Ok hit, with_redisCache c s).

Definition redisCache_set (key : jsstring) (v : outcome value) (maxAge : Z) : M unit := fun s =>
  (Ok tt, with_redisCache (lru_set key v maxAge (Date_now s) (redisCache s)) s).

(** ** Promises that are cached before they settle *)

(** What the entry of a promise holds while the promise is pending. An
    operation that awaited its own pending promise would never settle; no
    operation of the module looks its own key up, and here it would be
    answered with this rejection. *)
Definition pending : outcome value :=
  Err {| ename := js "Error"; emessage := js "the promise is pending"; ecode := None |}.

(** The promise under [key] settles with [o]: its entry, where it is still
    in the cache, answers [o] from now on. The entries keep their order and
    their ages. *)
Definition lru_settle (key : jsstring) (o : outcome value) (c : list lru_entry)
  : list lru_entry :=
  map (fun e => if bool_decide (lru_key e = key)
                then {| lru_key := lru_key e; lru_value := o;
                        lru_now := lru_now e; lru_maxAge := lru_maxAge e |}
                else e) c.

Definition redisCache_settle (key : jsstring) (o : outcome value) : M unit := fun s =>
  (Ok tt, with_redisCache (lru_settle key o (redisCache s)) s).

(** ** [withRedis] *)

(** The module [./pretty-buffer], which is not among the sources: some
    rendering of a buffer as a string. *)
Class PrettyBuffer := prettyBuffer : bytes -> jsstring.

Section StorageClient.
Context `{PrettyBuffer}.

Definition prettyArgs (args : list value) : list jsstring :=
  map (fun a => match a with VBuf b => prettyBuffer b | _ => template a end) args.

Definition cacheKey (name : jsstring) (args : list value) : jsstring :=
  join (js "$$") (name :: prettyArgs args).

(** [fn(redisClient)(...args)] runs [fn] up to its first [await] and gives
    a promise that is still pending; that promise is what [redisCache.set]
    stores, and the rest of [fn] runs under [await resultPromise]. Up to
    its first [await] an operation of this module has built its key and
    handed a command to the client, and has not touched the cache: so the
    entry is made here before [fn] runs, and it answers with the outcome
    of [fn] from the moment the promise settles. *)
Definition withRedis (name : jsstring) (cachedExpires : bool)
    (fn : RedisClient -> list value -> M value) (args : list value) : M value :=
  let cacheKey := cacheKey name args in
  let* cachedPromise := redisCache_get cacheKey in
  match cachedPromise with
  | Some p => await p
  | None =>
      let* redisClient := getRedisClient in
      let* _ := redisCache_set cacheKey pending
                  (if cachedExpires then BLOCK_INDEX_CACHE_TIME else 0%Z) in
      let* resultPromise := promise (fn redisClient args) in
      let* _ := redisCache_settle cacheKey resultPromise in
      await resultPromise
  end.

(** ** The operations *)

Definition getLatestBlockHeight (redisClient : RedisClient) (args : list value) : M value :=
  rc_get redisClient (VStr (js "latest_block_height")).

Definition getLatestContractBlockHash (redisClient : RedisClient) (args : list value) : M value :=
  let contractId := arg 0 args in
  let blockHeight := arg 1 args in
  let* reply := rc_sendCommand redisClient (js "ZREVRANGEBYSCORE")
                  [VBuf (Buffer_from (js "code:" ++ template contractId)); blockHeight;
                   VStr (js "-inf"); VStr (js "LIMIT"); VStr (js "0"); VStr (js "1")] in
  await (first_of reply).

Definition getContractCode (redisClient : RedisClient) (args : list value) : M value :=
  let contractId := arg 0 args in
  let blockHash := arg 1 args in
  let* key := await (Buffer_concat
                [VBuf (Buffer_from (js "code:" ++ template contractId ++ js ":")); blockHash]) in
  rc_get redisClient (VBuf key).

Definition getLatestAccountBlockHash (redisClient : RedisClient) (args : list value) : M value :=
  let accountId := arg 0 args in
  let blockHeight := arg 1 args in
  let* reply := rc_sendCommand redisClient (js "ZREVRANGEBYSCORE")
                  [VBuf (Buffer_from (js "account:" ++ template accountId)); blockHeight;
                   VStr (js "-inf"); VStr (js "LIMIT"); VStr (js "0"); VStr (js "1")] in
  await (first_of reply).

Definition getAccountData (redisClient : RedisClient) (args : list value) : M value :=
  let accountId := arg 0 args in
  let blockHash := arg 1 args in
  let* key := await (Buffer_concat
                [VBuf (Buffer_from (js "account-data:" ++ template accountId ++ js ":")); blockHash]) in
  rc_get redisClient (VBuf key).

Definition getLatestDataBlockHash (redisClient : RedisClient) (args : list value) : M value :=
  let blockHeight := arg 1 args in
  let* compKey := await (Buffer_from_value (arg 0 args)) in
  let* key := await (Buffer_concat [VBuf (buf "data:"); VBuf compKey]) in
  let* reply := rc_sendCommand redisClient (js "ZREVRANGEBYSCORE")
                  [VBuf key; blockHeight;
                   VStr (js "-inf"); VStr (js "LIMIT"); VStr (js "0"); VStr (js "1")] in
  await (first_of reply).

Definition getData (redisClient : RedisClient) (args : list value) : M value :=
  let blockHash := arg 1 args in
  let* compKey := await (Buffer_from_value (arg 0 args)) in
  let* key := await (Buffer_concat
                [VBuf (buf "data-value:"); VBuf compKey; VBuf (buf ":"); blockHash]) in
  rc_get redisClient (VBuf key).

(** [module.exports.name]: the operation wrapped by [withRedis]. Only
    [getLatestBlockHeight] is in [cacheExpiresList]. *)
Definition exports_getLatestBlockHeight : list value -> M value :=
  withRedis (js "getLatestBlockHeight") true getLatestBlockHeight.
Definition exports_getLatestContractBlockHash : list value -> M value :=
  withRedis (js "getLatestContractBlockHash") false getLatestContractBlockHash.
Definition exports_getContractCode : list value -> M value :=
  withRedis (js "getContractCode") false getContractCode.
Definition exports_getLatestAccountBlockHash : list value -> M value :=
  withRedis (js "getLatestAccountBlockHash") false getLatestAccountBlockHash.
Definition exports_getAccountData : list value -> M value :=
  withRedis (js "getAccountData") false getAccountData.
Definition exports_getLatestDataBlockHash : list value -> M value :=
  withRedis (js "getLatestDataBlockHash") false getLatestDataBlockHash.
Definition exports_getData : list value -> M value :=
  withRedis (js "getData") false getData.

(** [const [a, b] = v]. *)
Definition first_two_of (v : value) : outcome (value * value) :=
  match v with
  | VArr l => Ok (nth 0 l VUndefined, nth 1 l VUndefined)
  | _ => Err (TypeError "object is not iterable")
  end.

(** [contractId.length + 1] as a [slice] offset: a value without a length
    gives NaN, which [slice] reads as 0. *)
Definition length_plus_1 (v : value) : outcome nat :=
  match v with
  | VStr s => Ok (S (length s))
  | VBuf b => Ok (S (length b))
  | VArr l => Ok (S (length l))
  | VUndefined | VNull => Err (TypeError "Cannot read properties of undefined (reading 'length')")
  | VNaN | VNum _ | VObj _ => Ok 0
  end.

(** The callback of [keys.map] in [scanDataKeys]. *)
Definition scanDataKeys_entry (contractId blockHeight key : value) : M value :=
  let* k := await (Buffer_from_value key) in
  let compKey := drop (length (js "data:")) k in
  let* n := await (length_plus_1 contractId) in
  let storageKey := drop n compKey in
  let* blockHash := exports_getLatestDataBlockHash [VBuf compKey; blockHeight] in
  if falsy blockHash then ret (VArr [VBuf storageKey; VNull])
  else
    let* v := exports_getData [VBuf compKey; blockHash] in
    ret (VArr [VBuf storageKey; v]).

(** [Promise.all(l.map(f))]: every call is made; the result is the list of
    values, or a rejection. The callbacks are run here one after the other,
    in the order of the list, and the rejection is that of the first one in
    the list that rejects. In the source every callback is started before
    any of them goes on past its first [await]: their lookups interleave,
    the entries they make come in another order in the cache, and the
    rejection is that of the first callback to reject in time. *)
Fixpoint Promise_all_map (f : value -> M value) (l : list value) : M (list value) := fun s =>
  match l with
  | [] => (Ok [], s)
  | x :: rest =>
      let '(o, s1) := f x s in
      let '(os, s2) := Promise_all_map f rest s1 in
      (match o, os with
       | Ok v, Ok vs => Ok (v :: vs)
       | Err e, _ => Err e
       | Ok _, Err e => Err e
       end, s2)
  end.

Definition array_elements (v : value) : outcome (list value) :=
  match v with
  | VArr l => Ok l
  | VUndefined | VNull => Err (TypeError "Cannot read properties of undefined (reading 'map')")
  | _ => Err (TypeError "keys.map is not a function")
  end.

Definition scanDataKeys (redisClient : RedisClient) (args : list value) : M value :=
  let contractId := arg 0 args in
  let blockHeight := arg 1 args in
  let keyPattern := arg 2 args in
  let iterator := arg 3 args in
  let limit := arg 4 args in
  let* reply := rc_scan redisClient
                  [iterator; VStr (js "MATCH");
                   VBuf (Buffer_from (js "data:" ++ template contractId ++ js ":"
                                      ++ template keyPattern));
                   VStr (js "COUNT"); limit] in
  let* (newIterator, keys) := await (first_two_of reply) in
  let* keys := await (array_elements keys) in
  let* data := Promise_all_map (scanDataKeys_entry contractId blockHeight) keys in
  let* it := await (Buffer_from_value newIterator) in
  ret (VObj [(js "iterator", VStr (toString_utf8 it)); (js "data", VArr data)]).

Definition exports_scanDataKeys : list value -> M value :=
  withRedis (js "scanDataKeys") false scanDataKeys.

End StorageClient.

(** The process while [withRedis] awaits the promise of [fn]: the lookup
    has missed and left the cache as [c'], the client exists and the entry
    of the call holds its pending promise. *)
Definition awaiting (cacheKey : jsstring) (cachedExpires : bool)
    (c' : list lru_entry) (s : Process) : Process :=
  {| redisCache := lru_set cacheKey pending
                     (if cachedExpires then BLOCK_INDEX_CACHE_TIME else 0%Z) (Date_now s) c';
     redisClient := true; Date_now := Date_now s; server := server s; wire := wire s |}.

(** Commands go out, the latest first. *)
Definition sent_all (cmds : list Command) (s : Process) : Process :=
  {| redisCache := redisCache s; redisClient := redisClient s; Date_now := Date_now s;
     server := server s; wire := cmds ++ wire s |}.

(** An operation that only talks to the store: its outcome and the commands
    it sends depend on the server alone, and it leaves the cache, the
    client and the clock as they are. *)
Definition store_only {A} (m : M A) : Prop :=
  forall srv : Server, exists (o : outcome A) (cmds : list Command),
    forall s : Process, server s = srv -> m s = (o, sent_all cmds s).

(* ================================================================== *)
(** * 4. json-rpc.js *)
(* ================================================================== *)

(** ** The account record: [BORSH_SCHEMA] and borsh's reader and writer *)

Inductive borsh_type :=
| U8
| U64
| U128
| FixedArray (t : borsh_type) (n : nat).   (* [t, n] *)

(** [BORSH_SCHEMA.get(Account).fields]. *)
Definition Account_fields : list (string * borsh_type) :=
  [("amount", U128); ("locked", U128); ("code_hash", FixedArray U8 32);
   ("storage_usage", U64)]%string.

Definition BorshError (message : string) : Error :=
  {| ename := js "BorshError"; emessage := js message; ecode := None |}.

(** Little-endian bytes to a number ([new BN(buf, 'le')]) and back
    ([bn.toArray('le', n)]). *)
Fixpoint le_to_N (b : bytes) : N :=
  match b with
  | [] => 0
  | x :: rest => (Byte.to_N x + 256 * le_to_N rest)%N
  end.

Fixpoint N_to_le (n : nat) (v : N) : bytes :=
  match n with
  | O => []
  | S n' => byte_of_N v :: N_to_le n' (v / 256)%N
  end.

(** A [BinaryReader]: the part of the buffer not yet read. *)
Definition reader (A : Type) : Type := bytes -> outcome (A * bytes).

Definition readBuffer (len : nat) : reader bytes := fun b =>
  if decide (len ≤ length b) then Ok (take len b, drop len b)
  else Err (BorshError "Expected buffer length isn't within bounds").

Definition readU8 : reader value := fun b =>
  match b with
  | x :: rest => Ok (VNum (Z.of_N (Byte.to_N x)), rest)
  | [] => Err (BorshError "Reached the end of buffer when deserializing")
  end.

Definition readUint (len : nat) : reader value := fun b =>
  match readBuffer len b with
  | Ok (x, rest) => Ok (VNum (Z.of_N (le_to_N x)), rest)
  | Err e => Err e
  end.

Fixpoint read_times {A} (n : nat) (r : reader A) : reader (list A) := fun b =>
  match n with
  | O => Ok ([], b)
  | S n' =>
      match r b with
      | Ok (x, b1) =>
          match read_times n' r b1 with
          | Ok (xs, b2) => Ok (x :: xs, b2)
          | Err e => Err e
          end
      | Err e => Err e
      end
  end.

Fixpoint deserializeField (t : borsh_type) : reader value :=
  match t with
  | U8 => readU8
  | U64 => readUint 8
  | U128 => readUint 16
  | FixedArray t' n => fun b =>
      match read_times n (deserializeField t') b with
      | Ok (xs, rest) => Ok (VArr xs, rest)
      | Err e => Err e
      end
  end.

Fixpoint deserializeStruct (fields : list (string * borsh_type))
  : reader (list (jsstring * value)) := fun b =>
  match fields with
  | [] => Ok ([], b)
  | (name, t) :: rest =>
      match deserializeField t b with
      | Ok (v, b1) =>
          match deserializeStruct rest b1 with
          | Ok (vs, b2) => Ok ((js name, v) :: vs, b2)
          | Err e => Err e
          end
      | Err e => Err e
      end
  end.

(** [deserialize(BORSH_SCHEMA, Account, buffer)]: the fields in order, and
    nothing may be left over. *)
Definition deserialize (fields : list (string * borsh_type)) (buffer : bytes)
  : outcome value :=
  match deserializeStruct fields buffer with
  | Ok (obj, []) => Ok (VObj obj)
  | Ok (_, _ :: _) => Err (BorshError "Unexpected bytes after deserialized data")
  | Err e => Err e
  end.

(** The writer's side, borsh's [serialize] for the same schema. The
    service only reads account records; this is the encoding they are
    written in. *)
Definition writeUint (len : nat) (v : value) : outcome bytes :=
  match v with
  | VNum z =>
      if decide (0 ≤ z < 256 ^ Z.of_nat len)%Z then Ok (N_to_le len (Z.to_N z))
      else Err {| ename := js "Error"; emessage := js "byte array longer than desired length";
                  ecode := None |}
  | _ => Err (BorshError "Expecting a number")
  end.

Fixpoint serializeField (t : borsh_type) (v : value) : outcome bytes :=
  match t with
  | U8 => writeUint 1 v
  | U64 => writeUint 8 v
  | U128 => writeUint 16 v
  | FixedArray t' n =>
      match v with
      | VArr l =>
          if decide (length l = n) then
            foldr (fun x acc =>
                     match serializeField t' x, acc with
                     | Ok b, Ok r => Ok (b ++ r)
                     | Err e, _ | _, Err e => Err e
                     end) (Ok []) l
          else Err (BorshError "Expecting byte array of the schema's length")
      | _ => Err (BorshError "Expecting byte array of the schema's length")
      end
  end.

(** [obj[name]]. *)
Definition get_field (name : jsstring) (obj : list (jsstring * value)) : value :=
  match find (fun f => bool_decide (f.1 = name)) obj with
  | Some f => f.2
  | None => VUndefined
  end.

Fixpoint serializeStruct (fields : list (string * borsh_type))
    (obj : list (jsstring * value)) : outcome bytes :=
  match fields with
  | [] => Ok []
  | (name, t) :: rest =>
      match serializeField t (get_field (js name) obj), serializeStruct rest obj with
      | Ok b, Ok r => Ok (b ++ r)
      | Err e, _ | _, Err e => Err e
      end
  end.

(** An [Account] object with its four fields. *)
Definition Account (amount locked : N) (code_hash : bytes) (storage_usage : N)
  : list (jsstring * value) :=
  [(js "amount", VNum (Z.of_N amount));
   (js "locked", VNum (Z.of_N locked));
   (js "code_hash", VArr (map (fun x => VNum (Z.of_N (Byte.to_N x))) code_hash));
   (js "storage_usage", VNum (Z.of_N storage_usage))].

(** ** Regular expressions and string helpers of the error path *)

(** [.] of a regular expression matches any unit but a line terminator. *)
Definition is_line_terminator (u : N) : bool :=
  ((u =? 10) || (u =? 13) || (u =? 0x2028) || (u =? 0x2029))%N.

(** [/^.* is not a function/] on [s]. *)
Fixpoint dotstar_then (p s : jsstring) : bool :=
  startsWith s p
  || match s with
     | u :: s' => if is_line_terminator u then false else dotstar_then p s'
     | [] => false
     end.

(** [/TypeError.* is not a function/.test(s)]. *)
Fixpoint test_TypeError_not_a_function (s : jsstring) : bool :=
  (startsWith s (js "TypeError")
   && dotstar_then (js " is not a function") (drop (length (js "TypeError")) s))
  || match s with
     | _ :: s' => test_TypeError_not_a_function s'
     | [] => false
     end.

(** [/^abort:/.test(s)]. *)
Definition test_abort_prefix (s : jsstring) : bool := startsWith s (js "abort:").

Definition hex4 (u : N) : jsstring :=
  [hex_digit (u / 4096 mod 16); hex_digit (u / 256 mod 16);
   hex_digit (u / 16 mod 16); hex_digit (u mod 16)]%N.

(** The body of a JSON string literal. A surrogate pair is kept, a lone
    surrogate is escaped. *)
Fixpoint JSON_quote_units (s : jsstring) : jsstring :=
  match s with
  | [] => []
  | u :: rest =>
      if (u =? 34)%N then js "\" ++ [34%N] ++ JSON_quote_units rest
      else if (u =? 92)%N then js "\\" ++ JSON_quote_units rest
      else if (u =? 8)%N then js "\b" ++ JSON_quote_units rest
      else if (u =? 12)%N then js "\f" ++ JSON_quote_units rest
      else if (u =? 10)%N then js "\n" ++ JSON_quote_units rest
      else if (u =? 13)%N then js "\r" ++ JSON_quote_units rest
      else if (u =? 9)%N then js "\t" ++ JSON_quote_units rest
      else if (u <? 32)%N then js "\u" ++ hex4 u ++ JSON_quote_units rest
      else if is_high_surrogate u then
        match rest with
        | l :: rest' =>
            if is_low_surrogate l then u :: l :: JSON_quote_units rest'
            else js "\u" ++ hex4 u ++ JSON_quote_units rest
        | [] => js "\u" ++ hex4 u
        end
      else if is_low_surrogate u then js "\u" ++ hex4 u ++ JSON_quote_units rest
      else u :: JSON_quote_units rest
  end.

(** [JSON.stringify(s)] for a string [s]. *)
Definition JSON_stringify_string (s : jsstring) : jsstring :=
  [34%N] ++ JSON_quote_units s ++ [34%N].

(** ** The JSON-RPC answers *)

(** What a handler leaves in the Koa context: a body, the answer of the
    upstream node ([proxyJson]), an HTTP error raised by [ctx.throw] (whose
    message Koa sends to the client for a status below 500), or nothing. *)
Inductive Response :=
| RespBody (body : value)
| RespProxy
| RespThrow (status : Z) (message : jsstring)
| RespUnset.   (* nothing was set: Koa answers 404 Not Found *)

(** [v.name] for a request body: reading a property of [undefined] or
    [null] throws. *)
Definition member (v : value) (name : string) : outcome value :=
  match v with
  | VObj fields => Ok (get_field (js name) fields)
  | VUndefined | VNull =>
      Err (TypeError "Cannot read properties of undefined")
  | _ => Ok VUndefined
  end.

Definition viewCallError (id : value) (message : jsstring) : value :=
  VObj [(js "jsonrpc", VStr (js "2.0"));
        (js "result", VObj [(js "error", VStr message)]);
        (js "id", id)].

Definition legacyError (id : value) (message : jsstring) : value :=
  VObj [(js "jsonrpc", VStr (js "2.0"));
        (js "result", VObj [(js "code", VNum (-32000));
                            (js "data", VStr message);
                            (js "message", VStr (js "Server error"))]);
        (js "id", id)].

Definition MethodNotFound_message : jsstring :=
  js "wasm execution failed with error: FunctionCallError(MethodResolveError(MethodNotFound))".

Definition GuestPanic_message (message : jsstring) : jsstring :=
  js "wasm execution failed with error: FunctionCallError(HostError(GuestPanic { panic_msg: "
  ++ JSON_stringify_string message ++ js "}))".

Definition CodeDoesNotExist_message (accountId : value) : jsstring :=
  js "wasm execution failed with error: FunctionCallError(CompilationError(CodeDoesNotExist { account_id: AccountId("
  ++ [34%N] ++ template accountId ++ [34%N] ++ js ") }))".

Definition account_does_not_exist_message (accountId : value) : jsstring :=
  js "account " ++ template accountId ++ js " does not exist while viewing".

(** [handleError({ ctx, accountId, error })], with [body] the request's
    body. The result is what the handler leaves in the context; [Err] is an
    exception of the handler itself. *)
Definition handleError (body : value) (accountId : value) (error : Error)
  : outcome Response :=
  let message := error_toString error in
  if test_TypeError_not_a_function message then
    match member body "id" with
    | Ok id => Ok (RespBody (viewCallError id MethodNotFound_message))
    | Err e => Err e
    end
  else if decide (ecode error = Some (js "notImplemented")) then Ok RespProxy
  else if decide (ecode error = Some (js "panic") ∨ ecode error = Some (js "abort")) then
    match member body "id" with
    | Ok id => Ok (RespBody (viewCallError id (GuestPanic_message (emessage error))))
    | Err e => Err e
    end
  else if decide (ecode error = Some (js "codeNotFound")) then
    match member body "id" with
    | Ok id => Ok (RespBody (viewCallError id (CodeDoesNotExist_message accountId)))
    | Err e => Err e
    end
  else if decide (ecode error = Some (js "accountNotFound")) then
    match member body "id" with
    | Ok id => Ok (RespBody (legacyError id (account_does_not_exist_message accountId)))
    | Err e => Err e
    end
  else Ok (RespThrow 400 message).

(** ** [viewAccount] *)

(** Modelled from the spec: the class [FastNEARError] of [./error] is not
    among the sources. An error kind has a stable tag, its [code], and
    carries a message; the class extends [Error]. *)
Definition FastNEARError (code : string) (message : jsstring) : Error :=
  {| ename := js "Error"; emessage := message; ecode := Some (js code) |}.

(** The double nearest to an integer (ties to even): exact up to 2^53. *)
Definition to_double (z : Z) : Z :=
  let a := Z.abs z in
  let k := (Z.log2 a + 1 - 53)%Z in
  if (k <=? 0)%Z then z
  else
    let q := Z.shiftr a k in
    let r := (a mod 2 ^ k)%Z in
    let half := (2 ^ (k - 1))%Z in
    let q' := if (half <? r)%Z || ((r =? half)%Z && Z.odd q) then (q + 1)%Z else q in
    (Z.sgn z * Z.shiftl q' k)%Z.

Definition is_digit (u : N) : bool := ((48 <=? u) && (u <=? 57))%N.

Fixpoint leading_digits (s : jsstring) (acc : Z) : Z :=
  match s with
  | u :: rest =>
      if is_digit u then leading_digits rest (10 * acc + Z.of_N (u - 48))%Z else acc
  | [] => acc
  end.

(** [parseInt(s)] for a decimal text: white space, a sign, then the
    leading digits; NaN when there is none. *)
Definition parseInt (s : jsstring) : value :=
  let t := trimStart s in
  let '(sign, t) :=
    match t with
    | 45%N :: t' => ((-1)%Z, t')
    | 43%N :: t' => (1%Z, t')
    | _ => (1%Z, t)
    end in
  match t with
  | u :: _ => if is_digit u then VNum (to_double (sign * leading_digits t 0)) else VNaN
  | [] => VNaN
  end.

(** The package [bs58], a library outside the repository. *)
Class Bs58 := bs58_encode : bytes -> jsstring.

Section JsonRpc.
Context `{PrettyBuffer} `{Bs58}.

Definition account_not_found (accountId latestBlockHeight : value) : Error :=
  FastNEARError "accountNotFound"
    (js "Account not found: " ++ template accountId ++ js " at "
     ++ template latestBlockHeight ++ js " block height").

(** The body [viewAccount] answers with, from the decoded record. BN
    fields print in decimal. *)
Definition account_result (account : list (jsstring * value)) (latestBlockHeight id : value)
  : value :=
  VObj [(js "jsonrpc", VStr (js "2.0"));
        (js "result",
          VObj [(js "amount", VStr (template (get_field (js "amount") account)));
                (js "locked", VStr (template (get_field (js "locked") account)));
                (js "code_hash",
                  VStr (bs58_encode
                          (match Buffer_from_value (get_field (js "code_hash") account) with
                           | Ok b => b
                           | Err _ => []
                           end)));
                (js "storage_usage",
                  parseInt (template (get_field (js "storage_usage") account)));
                (js "block_height", parseInt (template latestBlockHeight))]);
        (js "id", id)].

(** The [try] block of [viewAccount]. A reply to a GET with a Buffer key is
    a Buffer or null. *)
Definition viewAccount_try (body accountId : value) : M value :=
  let* latestBlockHeight := exports_getLatestBlockHeight [] in
  let* blockHash := exports_getLatestAccountBlockHash [accountId; latestBlockHeight] in
  if falsy blockHash then throw (account_not_found accountId latestBlockHeight)
  else
    let* accountData := exports_getAccountData [accountId; blockHash] in
    if falsy accountData then throw (account_not_found accountId latestBlockHeight)
    else
      let* account :=
        await (match accountData with
               | VBuf b => deserialize Account_fields b
               | _ => Err (BorshError "Expected buffer length isn't within bounds")
               end) in
      let* id := await (member body "id") in
      match account with
      | VObj fields => ret (account_result fields latestBlockHeight id)
      | _ => ret VUndefined
      end.

(** [viewAccount(ctx, { accountId })], with [body] the request's body. *)
Definition viewAccount (body accountId : value) (s : Process)
  : outcome Response * Process :=
  match viewAccount_try body accountId s with
  | (Ok b, s') => (Ok (RespBody b), s')
  | (Err error, s') => (handleError body accountId error, s')
  end.

End JsonRpc.

(* ================================================================== *)
(** * 5. The HTTP front end: [runContract], [isJSON], [runViewMethod] *)
(* ================================================================== *)

(** ** [JSON.stringify] *)

Fixpoint JSON_stringify (v : value) : option jsstring :=
  match v with
  | VUndefined => None
  | VNull | VNaN => Some (js "null")
  | VNum z => Some (decimal z)
  | VStr s => Some (JSON_stringify_string s)
  | VBuf b =>
      Some (js "{" ++ JSON_stringify_string (js "type") ++ js ":"
            ++ JSON_stringify_string (js "Buffer") ++ js ","
            ++ JSON_stringify_string (js "data") ++ js ":["
            ++ join (js ",") (map (fun x => decimal (Z.of_N (Byte.to_N x))) b) ++ js "]}")
  | VArr l =>
      Some (js "[" ++ join (js ",")
                        (map (fun x => default (js "null") (JSON_stringify x)) l)
            ++ js "]")
  | VObj fields =>
      Some (js "{" ++ join (js ",")
                        (flat_map (fun f =>
                                     match JSON_stringify f.2 with
                                     | Some t => [JSON_stringify_string f.1 ++ js ":" ++ t]
                                     | None => []
                                     end) fields)
            ++ js "}")
  end.

(** ** What the front end calls outside itself *)

(** The WebAssembly engine and the module [./worker-pool], which is not
    among the sources. A compiled module is an opaque object. *)
Class Runtime := {
  WasmModule : Type;
  WebAssembly_compile : bytes -> outcome WasmModule;
  workerPool_runContract :
    value -> WasmModule -> value -> value -> bytes -> outcome value;
  redis_connect : outcome unit
}.

Section FrontEnd.
Context `{Runtime}.

(** The operations a call awaits. *)
Inductive IO : Type -> Type :=
| Connect : IO unit
| RedisGet (key : value) : IO value
| RedisSendCommand (args : list value) : IO value
| RedisGetBuffer (key : value) : IO value
| Compile (wasmData : bytes) : IO WasmModule
| WorkerRun (blockHeight : value) (wasmModule : WasmModule)
    (contractId methodName : value) (methodArgs : bytes) : IO value.

(** The module-level variables of the file. *)
Record Globals := {
  g_redisClient : bool;
  g_workerPool : bool;
  contractCache : gmap jsstring WasmModule
}.

(** An [async] function body: synchronous steps on the module-level
    variables, and [await]s, where the call is suspended. *)
Inductive Prog (A : Type) : Type :=
| Return (a : A)
| Throw (e : Error)
| Await {X : Type} (io : IO X) (k : X -> Prog A)
| Atomic {X : Type} (f : Globals -> outcome X * Globals) (k : X -> Prog A).
Arguments Return {A} a.
Arguments Throw {A} e.
Arguments Await {A X} io k.
Arguments Atomic {A X} f k.

Definition try_sync {A X} (o : outcome X) (k : X -> Prog A) : Prog A :=
  match o with
  | Ok x => k x
  | Err e => Throw e
  end.

Definition read_global {X} (f : Globals -> X) : Globals -> outcome X * Globals :=
  fun g => (Ok (f g), g).

Definition write_global (f : Globals -> Globals) : Globals -> outcome unit * Globals :=
  fun g => (Ok tt, f g).

(** [v.toString('hex')] of the revision hash. *)
Definition toString_hex_of (v : value) : outcome jsstring :=
  match v with
  | VBuf b => Ok (toString_hex b)
  | VUndefined | VNull =>
      Err (TypeError "Cannot read properties of undefined (reading 'toString')")
  | _ => Ok (template v)
  end.

(** [wasmData.length], read for the debug line, then the bytes handed to
    [WebAssembly.compile]. *)
Definition wasm_bytes (v : value) : outcome bytes :=
  match v with
  | VBuf b => Ok b
  | VUndefined | VNull =>
      Err (TypeError "Cannot read properties of null (reading 'length')")
  | _ => Err (TypeError "WebAssembly.compile(): Argument 0 must be a buffer source")
  end.

Definition methodArgs_buffer (methodArgs : value) : outcome bytes :=
  match methodArgs with
  | VBuf b => Ok b
  | _ =>
      match JSON_stringify methodArgs with
      | Some t => Ok (Buffer_from t)
      | None => Buffer_from_value VUndefined
      end
  end.

Definition contract_cacheKey (contractId : value) (hex : jsstring) : jsstring :=
  template contractId ++ js ":" ++ hex ++ js "}".

Definition runContract (contractId methodName methodArgs : value) : Prog value :=
  try_sync (methodArgs_buffer methodArgs) (fun methodArgs =>
  Atomic (fun g => (Ok (g_redisClient g),
                    {| g_redisClient := true; g_workerPool := g_workerPool g;
                       contractCache := contractCache g |})) (fun created =>
  (if created : bool then fun k => k tt else Await Connect) (fun _ =>
  Atomic (write_global (fun g =>
            {| g_redisClient := g_redisClient g; g_workerPool := true;
               contractCache := contractCache g |})) (fun _ =>
  Await (RedisGet (VStr (js "latest_block_height"))) (fun latestBlockHeight =>
  Await (RedisSendCommand
           [VStr (js "ZREVRANGEBYSCORE"); VStr (js "code:" ++ template contractId);
            latestBlockHeight; VStr (js "-inf"); VStr (js "LIMIT"); VStr (js "0");
            VStr (js "1")]) (fun reply =>
  try_sync (first_of reply) (fun contractBlockHash =>
  try_sync (toString_hex_of contractBlockHash) (fun hex =>
  let cacheKey := contract_cacheKey contractId hex in
  Atomic (read_global (fun g => contractCache g !! cacheKey)) (fun wasmModule =>
  let run_worker wasmModule :=
    Await (WorkerRun latestBlockHeight wasmModule contractId methodName methodArgs) Return in
  match wasmModule with
  | Some wasmModule => run_worker wasmModule
  | None =>
      try_sync (Buffer_concat
                  [VBuf (Buffer_from (js "code:" ++ template contractId ++ js ":"));
                   contractBlockHash]) (fun key =>
      Await (RedisGetBuffer (VBuf key)) (fun wasmData =>
      try_sync (wasm_bytes wasmData) (fun wasmData =>
      Await (Compile wasmData) (fun wasmModule =>
      Atomic (write_global (fun g =>
                {| g_redisClient := g_redisClient g; g_workerPool := g_workerPool g;
                   contractCache := <[cacheKey := wasmModule]> (contractCache g) |}))
        (fun _ => run_worker wasmModule)))))
  end))))))))).

(** ** Running calls *)

(** The answer to an awaited operation. The Redis client of this file
    (node-redis 4) gives strings for [get] and buffers for the other two. *)
Definition redis_call (srv : Server) (buffers : bool) (args : list value) : outcome value :=
  match wire_args args with
  | Ok cmd =>
      match srv cmd with
      | Ok r => Ok (reply_value buffers r)
      | Err e => Err e
      end
  | Err e => Err e
  end.

Definition perform (srv : Server) {X} (io : IO X) : outcome X :=
  match io with
  | Connect => redis_connect
  | RedisGet key => redis_call srv false [VStr (js "GET"); key]
  | RedisSendCommand args => redis_call srv true args
  | RedisGetBuffer key => redis_call srv true [VStr (js "GET"); key]
  | Compile wasmData => WebAssembly_compile wasmData
  | WorkerRun h m c name args => workerPool_runContract h m c name args
  end.

(** An awaited operation, as recorded in the order it was started. *)
Definition Event : Type := sigT IO.
Definition event {X} (io : IO X) : Event := existT X io.

Definition is_Compile (ev : Event) : bool :=
  match projT2 ev with
  | Compile _ => true
  | _ => false
  end.

Definition compilations (tr : list Event) : nat :=
  length (filter (fun ev => is_Compile ev = true) tr).

(** One call run alone, from its start to its end. *)
Fixpoint run {A} (srv : Server) (p : Prog A) (g : Globals) (tr : list Event)
  : outcome A * Globals * list Event :=
  match p with
  | Return a => (Ok a, g, tr)
  | Throw e => (Err e, g, tr)
  | Await io k =>
      match perform srv io with
      | Ok x => run srv (k x) g (event io :: tr)
      | Err e => (Err e, g, event io :: tr)
      end
  | Atomic f k =>
      match f g with
      | (Ok x, g') => run srv (k x) g' tr
      | (Err e, g') => (Err e, g', tr)
      end
  end.

(** One turn of a call on the event loop: it runs its synchronous steps up
    to the next [await], starts the awaited operation and is suspended with
    what remains to do once the operation has settled. *)
Fixpoint advance {A} (srv : Server) (p : Prog A) (g : Globals) (tr : list Event)
  : Prog A * Globals * list Event :=
  match p with
  | Return a => (Return a, g, tr)
  | Throw e => (Throw e, g, tr)
  | Await io k => (try_sync (perform srv io) k, g, event io :: tr)
  | Atomic f k =>
      match f g with
      | (Ok x, g') => advance srv (k x) g' tr
      | (Err e, g') => (Throw e, g', tr)
      end
  end.

(** Several calls in flight, sharing the module-level variables. *)
Record Loop := {
  calls : list (Prog value);
  globals : Globals;
  events : list Event
}.

(** The event loop resumes call [i]. *)
Definition resume (srv : Server) (l : Loop) (i : nat) : Loop :=
  match calls l !! i with
  | Some p =>
      let '(p', g, tr) := advance srv p (globals l) (events l) in
      {| calls := <[i := p']> (calls l); globals := g; events := tr |}
  | None => l
  end.

(** A schedule: the calls in the order the loop resumes them. *)
Definition schedule (srv : Server) (l : Loop) (order : list nat) : Loop :=
  foldl (resume srv) l order.

(** [compiles_at_most n p]: whatever the awaited operations answer, what
    remains of the call [p] starts [WebAssembly.compile] at most [n]
    times. *)
Inductive compiles_at_most {A} : nat -> Prog A -> Prop :=
| cam_Return n a : compiles_at_most n (Return a)
| cam_Throw n e : compiles_at_most n (Throw e)
| cam_Atomic n X (f : Globals -> outcome X * Globals) k :
    (forall x, compiles_at_most n (k x)) -> compiles_at_most n (Atomic f k)
| cam_Await n X (io : IO X) k :
    is_Compile (event io) = false ->
    (forall x, compiles_at_most n (k x)) -> compiles_at_most n (Await io k)
| cam_Compile n wasmData k :
    (forall m, compiles_at_most n (k m)) ->
    compiles_at_most (S n) (Await (Compile wasmData) k).

(** The calls of a loop start at most [n] compilations between them, the
    ones already started included. *)
Definition loop_compiles_at_most (n : nat) (l : Loop) : Prop :=
  exists budgets : list nat,
    Forall2 compiles_at_most budgets (calls l)
    /\ compilations (events l) + sum_list budgets <= n.

(** What the spec's words ask of the module cache: however many calls for
    one contract are in flight while the cache has no entry, at most one
    compilation is started. *)
Definition one_compilation_per_key : Prop :=
  forall (srv : Server) (contractId methodName methodArgs : value) (n : nat)
         (g : Globals) (order : list nat),
    contractCache g = ∅ ->
    compilations
      (events (schedule srv
                 {| calls := replicate n (runContract contractId methodName methodArgs);
                    globals := g; events := [] |} order)) <= 1.

(** ** [isJSON] and [runViewMethod] *)

(** The built-in [JSON.parse]: the parsed value, or a [SyntaxError]. *)
Class JSONParse := JSON_parse : jsstring -> outcome value.

Context `{JSONParse}.

Definition MAX_WHITESPACE : nat := 1000.

Definition isJSON (buffer : bytes) : bool :=
  let startSlice := trim (toString_utf8 (take (MAX_WHITESPACE + 1) buffer)) in
  if startsWith startSlice (js "[") || startsWith startSlice (js "[") then
    match JSON_parse (toString_utf8 buffer) with
    | Ok _ => true
    | Err _ => false     (* the catch block *)
    end
  else true.

(** The [catch] block of [runViewMethod]: [Err] is the error thrown on. *)
Definition runViewMethod_catch (methodName : value) (e : Error) : outcome Response :=
  let message := emessage e in
  if test_TypeError_not_a_function message then
    Ok (RespThrow 404 (js "method " ++ template methodName ++ js " not found"))
  else if test_abort_prefix message then Ok (RespThrow 400 message)
  else Err e.

(** [runViewMethod(ctx)] for a request that is served alone. *)
Definition runViewMethod (srv : Server) (accountId methodName methodArgs : value)
    (g : Globals) : outcome Response * Globals * list Event :=
  let '(r, g', tr) := run srv (runContract accountId methodName methodArgs) g [] in
  (match r with
   | Ok v =>
       match Buffer_from_value v with
       | Ok result => if isJSON result then Ok (RespBody (VBuf result)) else Ok RespUnset
       | Err e => runViewMethod_catch methodName e
       end
   | Err e => runViewMethod_catch methodName e
   end, g', tr).

End FrontEnd.

Arguments Return {_ A} a.
Arguments Throw {_ A} e.
Arguments Await {_ A X} io k.
Arguments Atomic {_ A X} f k.

(* ================================================================== *)
(** * 6. Instances and databases used in the examples *)
(* ================================================================== *)

(** A rendering of buffers for [prettyBuffer]: hexadecimal. *)
Definition pretty_hex : PrettyBuffer := toString_hex.

(** A stand-in for [bs58.encode] in the examples. *)
Definition bs58_hex : Bs58 := toString_hex.

(** A runtime whose compiled module is the code itself and whose worker
    answers [ok]. *)
Definition echo_runtime : Runtime :=
  {| WasmModule := bytes;
     WebAssembly_compile := fun b => Ok b;
     workerPool_runContract := fun _ _ _ _ _ => Ok (VBuf (buf "ok"));
     redis_connect := Ok tt |}.

(** A [JSON.parse] that rejects every text. *)
Definition parse_nothing : JSONParse :=
  fun _ => Err {| ename := js "SyntaxError"; emessage := js "Unexpected token";
                  ecode := None |}.

(** The process [s] with the clock and the server as they are later on. *)
Definition later (s : Process) (srv : Server) (now : Z) : Process :=
  {| redisCache := redisCache s; redisClient := redisClient s;
     Date_now := now; server := srv; wire := wire s |}.

(** A process just started, talking to [srv]. *)
Definition fresh_process (srv : Server) (now : Z) : Process :=
  {| redisCache := []; redisClient := false; Date_now := now; server := srv; wire := [] |}.

Definition rev1 : bytes := buf "revision-1".
Definition rev2 : bytes := buf "revision-2".

(** An account record of 72 bytes. *)
Definition account_record (amount locked : N) (code_hash : bytes) (storage_usage : N)
  : bytes :=
  N_to_le 16 amount ++ N_to_le 16 locked ++ code_hash ++ N_to_le 8 storage_usage.

(** Height 100; contract [alice] has code revisions at heights 50 and 120,
    an account record (balance 5) and one storage entry; contract [bob] has
    none of these. *)
Definition db_alice : DB :=
  {| db_strings :=
       <[buf "latest_block_height" := buf "100"]>
       (<[buf "code:alice:revision-1" := buf "wasm-1"]>
       (<[buf "code:alice:revision-2" := buf "wasm-2"]>
       (<[buf "account-data:alice:revision-1" := account_record 5 0 (repeat x00 32) 100]>
       (<[buf "data-value:alice:k:revision-1" := buf "v"]> ∅))));
     db_zsets :=
       <[buf "code:alice" := [(rev1, 50%Z); (rev2, 120%Z)]]>
       (<[buf "account:alice" := [(rev1, 50%Z)]]>
       (<[buf "data:alice:k" := [(rev1, 40%Z)]]> ∅)) |}.

(** The same store once the indexer has recorded another account revision
    of [alice] (balance 7), at height 90. The latest height is unchanged. *)
Definition db_alice_later : DB :=
  {| db_strings :=
       <[buf "account-data:alice:revision-3" := account_record 7 0 (repeat x00 32) 100]>
       (db_strings db_alice);
     db_zsets :=
       <[buf "account:alice" := [(rev1, 50%Z); (buf "revision-3", 90%Z)]]>
       (db_zsets db_alice) |}.

(** A contract identifier that is not ASCII: the one letter U+00E9. *)
Definition e_acute : jsstring := [0xE9%N].

(** A store with one storage entry [k] of the contract [e_acute]: its key
    is [data:] followed by the UTF-8 bytes C3 A9 of the identifier, a
    colon, and [k]. *)
Definition db_e_acute : DB :=
  {| db_strings :=
       <[buf "data-value:" ++ Buffer_from e_acute ++ buf ":k:revision-1" := buf "v"]> ∅;
     db_zsets :=
       <[buf "data:" ++ Buffer_from e_acute ++ buf ":k" := [(rev1, 40%Z)]]> ∅ |}.

(** A server that is down. *)
Definition server_down : Server :=
  fun _ => Err {| ename := js "Error"; emessage := js "connect ECONNREFUSED 127.0.0.1:6379";
                  ecode := Some (js "ECONNREFUSED") |}.

(** The module-level variables of the front end in a process just started,
    and in one that has served a request. *)
Definition cold `{Runtime} : Globals :=
  {| g_redisClient := false; g_workerPool := false; contractCache := ∅ |}.
Definition warm `{Runtime} : Globals :=
  {| g_redisClient := true; g_workerPool := true; contractCache := ∅ |}.

(** A store in which the record of [carol] has been cut short. *)
Definition db_truncated : DB :=
  {| db_strings :=
       <[buf "latest_block_height" := buf "100"]>
       (<[buf "account-data:carol:revision-1" := buf "short"]> ∅);
     db_zsets := <[buf "account:carol" := [(rev1, 10%Z)]]> ∅ |}.

(** A runtime whose Redis client cannot connect. *)
Definition offline_runtime : Runtime :=
  {| WasmModule := bytes;
     WebAssembly_compile := fun b => Ok b;
     workerPool_runContract := fun _ _ _ _ _ => Ok (VBuf (buf "ok"));
     redis_connect := Err {| ename := js "Error";
                             emessage := js "connect ECONNREFUSED 127.0.0.1:6379";
                             ecode := Some (js "ECONNREFUSED") |} |}.

(** A runtime whose worker finds no such method in the module. *)
Definition no_method_runtime : Runtime :=
  {| WasmModule := bytes;
     WebAssembly_compile := fun b => Ok b;
     workerPool_runContract := fun _ _ _ _ _ =>
       Err (TypeError "wasm.instance.exports[methodName] is not a function");
     redis_connect := Ok tt |}.

(** The module-level variables once the code of [alice] at her revision
    has been compiled. *)
Definition alice_compiled `{Runtime} (m : WasmModule) : Globals :=
  {| g_redisClient := true; g_workerPool := true;
     contractCache :=
       <[contract_cacheKey (VStr (js "alice")) (toString_hex rev1) := m]> ∅ |}.

(* ================================================================== *)
(** * 7. Properties stated of the program *)
(* ================================================================== *)

(** A string of ASCII characters only: one UTF-8 byte per UTF-16 unit. *)
Definition is_ascii (s : jsstring) : bool := forallb (fun u => (u <? 0x80)%N) s.

(** The revision that [ZREVRANGEBYSCORE key H -inf LIMIT 0 1] names. *)
Definition latest_revision (zs : list (bytes * Z)) (H : Z) : option bytes :=
  head (zrevrangebyscore zs (Fin H) NegInf 0 1).

(** What the spec's words ask of [viewAccount]: entries made by one request
    are not seen by a later one, the latest height apart. The later
    request then answers as it would with those entries gone. *)
Definition request_scoped_memoisation `{PrettyBuffer} `{Bs58} : Prop :=
  forall (body accountId : value) (s : Process) (srv' : Server) (now' : Z),
    let s1 := (viewAccount body accountId s).2 in
    let s2 := later s1 srv' now' in
    (viewAccount body accountId s2).1
    = (viewAccount body accountId
         (with_redisCache
            (filter (fun e => lru_key e = js "getLatestBlockHeight") (redisCache s2)) s2)).1.

(** The boundary values of the fields of an account record. *)
Definition u64_boundary : list N := [0; 1; 2 ^ 63 - 1; 2 ^ 64 - 1]%N.
Definition u128_boundary : list N := [0; 2 ^ 127; 2 ^ 128 - 1]%N.

(** A fixed array of [u8] as borsh hands it over: a JS array of numbers. *)
Definition byte_numbers (b : bytes) : list value :=
  map (fun x => VNum (Z.of_N (Byte.to_N x))) b.

(** What the spec's words ask of [handleError]: no answer carries the text
    of the exception. *)
Definition no_exception_text_in_answers : Prop :=
  forall (body accountId : value) (error : Error) (r : Response),
    handleError body accountId error = Ok r ->
    forall status : Z, r <> RespThrow status (error_toString error).

(** The tags [handleError] has a case for. *)
Definition handled_codes : list jsstring :=
  [js "notImplemented"; js "panic"; js "abort"; js "codeNotFound"; js "accountNotFound"].

(** What the store holds for a composite key at height [h]: the revision
    [getLatestDataBlockHash] finds. *)
Definition data_revision (db : DB) (compKey : bytes) (h : Z) : value :=
  match latest_revision (default [] (db_zsets db !! (buf "data:" ++ compKey))) h with
  | Some R => VBuf R
  | None => VUndefined
  end.

(** The rendering of buffers tells buffers apart and has no dollar sign in
    it, so that the cache keys of distinct lookups are distinct. *)
Definition faithful_rendering `{PrettyBuffer} : Prop :=
  (forall a b, prettyBuffer a = prettyBuffer b -> a = b)
  /\ (forall a, 36%N ∉ prettyBuffer a).

(** The cache as [lru-cache] keeps it: at most [max] entries, one per key. *)
Definition cache_ok (c : list lru_entry) : Prop :=
  length c <= LRU_max /\ NoDup (map lru_key c).

(** An operation that leaves the cache so. *)
Definition keeps_cache_ok {A} (m : M A) : Prop :=
  forall s, cache_ok (redisCache s) -> cache_ok (redisCache (m s).2).

(** The [connect] of the Redis client among the awaited operations. *)
Definition is_Connect `{Runtime} (ev : Event) : bool :=
  match projT2 ev with
  | Connect => true
  | _ => false
  end.

(** A byte of ASCII white space: tab, line feed, vertical tab, form feed,
    carriage return or space. *)
Definition is_ascii_space (x : byte) : bool :=
  is_js_space (Byte.to_N x) && (Byte.to_N x <? 0x80)%N.

(** The schedule that resumes [n] calls in turn, [rounds] times over. *)
Definition round_robin (n rounds : nat) : list nat :=
  concat (replicate rounds (seq 0 n)).

(** A command that reads from the store. *)
Definition read_command (cmd : Command) : Prop :=
  exists rest, cmd = buf "GET" :: rest \/ cmd = buf "ZREVRANGEBYSCORE" :: rest
               \/ cmd = buf "SCAN" :: rest.

(** An operation that sends read commands only, if any. *)
Definition sends_reads_only {A} (m : M A) : Prop :=
  forall s, exists new, wire (m s).2 = new ++ wire s /\ Forall read_command new.

(* ================================================================== *)
(** * 8. Facts about strings and bytes *)
(* ================================================================== *)

Lemma byte_of_N_to_N (x : byte) : byte_of_N (Byte.to_N x) = x.
Proof.
  unfold byte_of_N. pose proof (Byte.to_N_bounded x).
  rewrite N.mod_small by lia. by rewrite Byte.of_to_N.
Qed.

Lemma to_N_byte_of_N (n : N) : (n < 256)%N -> Byte.to_N (byte_of_N n) = n.
Proof.
  intros Hn. unfold byte_of_N. rewrite N.mod_small by lia.
  destruct (Byte.of_N n) as [b|] eqn:E.
  - by apply Byte.to_of_N.
  - pose proof (Byte.to_of_N_option_map n) as Hm. rewrite E in Hm. simpl in Hm.
    destruct (n <=? 255)%N eqn:E'; [discriminate | apply N.leb_gt in E'; lia].
Qed.

Lemma byte_of_N_of_ascii (a : ascii) : byte_of_N (N_of_ascii a) = byte_of_ascii a.
Proof.
  unfold byte_of_N. pose proof (N_ascii_bounded a).
  rewrite N.mod_small by lia.
  by rewrite <- (byte_of_ascii_via_N a).
Qed.

Lemma not_surrogate_ascii (u : N) :
  (u <? 0x80)%N = true -> is_high_surrogate u = false /\ is_low_surrogate u = false.
Proof.
  intros Hu%N.ltb_lt. unfold is_high_surrogate, is_low_surrogate.
  split; apply andb_false_iff; left; apply N.leb_gt; lia.
Qed.

(** An ASCII prefix is its own code points, whatever follows. *)
Lemma codepoints_ascii_app (a s : jsstring) :
  is_ascii a = true -> codepoints (a ++ s) = a ++ codepoints s.
Proof.
  induction a as [|u a IH]; simpl; [done|].
  intros [Hu Ha]%andb_prop.
  destruct (not_surrogate_ascii u Hu) as [-> ->]. by rewrite IH.
Qed.

Lemma codepoints_ascii (a : jsstring) : is_ascii a = true -> codepoints a = a.
Proof.
  intros Ha. rewrite <- (app_nil_r a) at 1.
  rewrite codepoints_ascii_app by done. simpl. by rewrite app_nil_r.
Qed.

Lemma codepoints_cons (u : N) (rest : jsstring) :
  codepoints (u :: rest) =
  if is_high_surrogate u then
    match rest with
    | l :: rest' =>
        if is_low_surrogate l
        then (0x10000 + (u - 0xD800) * 0x400 + (l - 0xDC00))%N :: codepoints rest'
        else 0xFFFD%N :: codepoints rest
    | [] => [0xFFFD%N]
    end
  else if is_low_surrogate u then 0xFFFD%N :: codepoints rest
  else u :: codepoints rest.
Proof. reflexivity. Qed.

(** Code points split where the right part does not start with a low
    surrogate. *)
Lemma codepoints_app (s t : jsstring) :
  match t with u :: _ => is_low_surrogate u = false | [] => True end ->
  codepoints (s ++ t) = codepoints s ++ codepoints t.
Proof.
  intros Ht. remember (length s) as n eqn:Hn.
  revert s Hn. induction n as [n IH] using lt_wf_ind. intros s Hn.
  destruct s as [|u s]; [done|].
  cbn [app]. rewrite (codepoints_cons u (s ++ t)), (codepoints_cons u s).
  destruct (is_high_surrogate u).
  - destruct s as [|l s]; cbn [app].
    + destruct t as [|v t]; [done|]. by rewrite Ht.
    + destruct (is_low_surrogate l); cbn [app]; f_equal.
      * apply (IH (length s)); [simpl in Hn; lia | done].
      * apply (IH (length (l :: s)) ltac:(simpl in *; lia) (l :: s) eq_refl).
  - destruct (is_low_surrogate u); cbn [app]; f_equal;
      apply (IH (length s)); (simpl in Hn; lia) || done.
Qed.

Lemma utf8_encode_ascii (u : N) : (u <? 0x80)%N = true -> utf8_encode u = [byte_of_N u].
Proof. intros Hu. unfold utf8_encode. by rewrite Hu. Qed.

Lemma flat_map_utf8_ascii (a : jsstring) :
  is_ascii a = true -> flat_map utf8_encode a = map byte_of_N a.
Proof.
  induction a as [|u a IH]; simpl; [done|].
  intros [Hu Ha]%andb_prop. rewrite utf8_encode_ascii by done. simpl. by rewrite IH.
Qed.

Lemma Buffer_from_ascii (a : jsstring) :
  is_ascii a = true -> Buffer_from a = map byte_of_N a.
Proof.
  intros Ha. unfold Buffer_from. rewrite codepoints_ascii by done.
  by apply flat_map_utf8_ascii.
Qed.

Lemma Buffer_from_ascii_app (a s : jsstring) :
  is_ascii a = true -> Buffer_from (a ++ s) = map byte_of_N a ++ Buffer_from s.
Proof.
  intros Ha. unfold Buffer_from. rewrite codepoints_ascii_app by done.
  rewrite flat_map_app. by rewrite flat_map_utf8_ascii.
Qed.

Lemma Buffer_from_app (s t : jsstring) :
  match t with u :: _ => is_low_surrogate u = false | [] => True end ->
  Buffer_from (s ++ t) = Buffer_from s ++ Buffer_from t.
Proof.
  intros Ht. unfold Buffer_from. rewrite codepoints_app by done. apply flat_map_app.
Qed.

Lemma is_ascii_js (s : string) :
  forallb (fun a => (N_of_ascii a <? 0x80)%N) (list_ascii_of_string s) = true ->
  is_ascii (js s) = true.
Proof.
  unfold is_ascii, js. induction (list_ascii_of_string s) as [|a l IH]; simpl; [done|].
  intros [-> Hl]%andb_prop. by apply IH.
Qed.

Lemma map_byte_of_N_js (s : string) : map byte_of_N (js s) = buf s.
Proof.
  unfold js, buf, list_byte_of_string. rewrite map_map.
  apply map_ext. intros a. apply byte_of_N_of_ascii.
Qed.

(** [Buffer.from] of an ASCII literal is the literal's bytes. *)
Lemma Buffer_from_js (s : string) :
  is_ascii (js s) = true -> Buffer_from (js s) = buf s.
Proof. intros Hs. rewrite Buffer_from_ascii by done. apply map_byte_of_N_js. Qed.

Lemma length_Buffer_from_ascii (a : jsstring) :
  is_ascii a = true -> length (Buffer_from a) = length a.
Proof. intros Ha. rewrite Buffer_from_ascii by done. apply length_map. Qed.

(** Decoding what an ASCII string was encoded to gives the string back. *)
Lemma utf8_decode_ascii (a : jsstring) :
  is_ascii a = true -> utf8_decode_from u8_init (map byte_of_N a) = a.
Proof.
  induction a as [|u a IH]; simpl; [done|].
  intros [Hu Ha]%andb_prop. pose proof Hu as Hu'%N.ltb_lt.
  rewrite to_N_byte_of_N by lia.
  change (u8_step u8_init u) with (u8_start u). unfold u8_start.
  replace (u <=? 0x7F)%N with true by (symmetry; apply N.leb_le; lia).
  simpl. by rewrite IH.
Qed.

Lemma flat_map_utf16_ascii (a : jsstring) :
  is_ascii a = true -> flat_map utf16_units a = a.
Proof.
  induction a as [|u a IH]; [done|].
  intros [Hu Ha]%andb_prop. pose proof Hu as Hu'%N.ltb_lt.
  cbn [flat_map]. unfold utf16_units at 1.
  replace (u <? 0x10000)%N with true by (symmetry; apply N.ltb_lt; lia).
  cbn [app]. by rewrite (IH Ha).
Qed.

Lemma toString_Buffer_from_ascii (a : jsstring) :
  is_ascii a = true -> toString_utf8 (Buffer_from a) = a.
Proof.
  intros Ha. unfold toString_utf8. rewrite Buffer_from_ascii by done.
  rewrite utf8_decode_ascii by done. by apply flat_map_utf16_ascii.
Qed.

(** ** Decimal texts *)

Lemma string_of_uint_ascii (d : Decimal.uint) :
  forallb (fun a => (N_of_ascii a <? 0x80)%N)
    (list_ascii_of_string (NilEmpty.string_of_uint d)) = true.
Proof. induction d; simpl; auto. Qed.

Lemma string_of_int_ascii (d : Decimal.signed_int) :
  forallb (fun a => (N_of_ascii a <? 0x80)%N)
    (list_ascii_of_string (NilZero.string_of_int d)) = true.
Proof.
  destruct d as [u|u]; unfold NilZero.string_of_int, NilZero.string_of_uint;
    destruct u; simpl; auto using string_of_uint_ascii.
Qed.

Lemma decimal_ascii (z : Z) : is_ascii (decimal z) = true.
Proof. apply is_ascii_js, string_of_int_ascii. Qed.

Lemma Buffer_from_decimal (z : Z) :
  Buffer_from (decimal z) = buf (NilZero.string_of_int (Z.to_int z)).
Proof. apply Buffer_from_js, decimal_ascii. Qed.

Lemma to_int_nonnil (z : Z) :
  Z.to_int z <> Decimal.Pos Decimal.Nil /\ Z.to_int z <> Decimal.Neg Decimal.Nil.
Proof.
  destruct z as [|p|p]; simpl; split; try discriminate;
    intros [=E]; by apply (DecimalPos.Unsigned.to_uint_nonnil p).
Qed.

(** The server reads the decimal text of [z] as [z]. *)
Lemma parse_Z_decimal (z : Z) : parse_Z (Buffer_from (decimal z)) = Some z.
Proof.
  unfold parse_Z. rewrite Buffer_from_decimal. unfold buf.
  rewrite string_of_list_byte_of_string.
  destruct (to_int_nonnil z) as [H1 H2].
  rewrite NilZero.isi by done. by rewrite DecimalZ.of_to.
Qed.

Lemma parse_bound_decimal (z : Z) : parse_bound (Buffer_from (decimal z)) = Some (Fin z).
Proof.
  pose proof (parse_Z_decimal z) as Hz. unfold parse_bound.
  repeat case_decide;
    try (match goal with E : Buffer_from _ = _ |- _ => rewrite E in Hz end;
         vm_compute in Hz; discriminate).
  by rewrite Hz.
Qed.

Lemma toString_decimal (z : Z) : toString_utf8 (Buffer_from (decimal z)) = decimal z.
Proof. apply toString_Buffer_from_ascii, decimal_ascii. Qed.

(* ================================================================== *)
(** * 9. Facts about the store *)
(* ================================================================== *)

(** ** Sorted sets *)

Lemma zset_geb_score (x y : bytes * Z) : zset_geb x y = true -> (y.2 <= x.2)%Z.
Proof.
  unfold zset_geb. destruct (x.2 <? y.2)%Z eqn:E1; [discriminate|].
  apply Z.ltb_ge in E1. lia.
Qed.

Lemma zset_not_geb_score (x y : bytes * Z) : zset_geb x y = false -> (x.2 <= y.2)%Z.
Proof.
  unfold zset_geb. destruct (x.2 <? y.2)%Z eqn:E1; [apply Z.ltb_lt in E1; lia|].
  destruct (y.2 <? x.2)%Z eqn:E2; [discriminate|].
  apply Z.ltb_ge in E1, E2. lia.
Qed.

Lemma elem_of_zset_insert_desc (x y : bytes * Z) (l : list (bytes * Z)) :
  y ∈ zset_insert_desc x l <-> y = x \/ y ∈ l.
Proof.
  induction l as [|z l IH]; simpl.
  - rewrite list_elem_of_singleton, elem_of_nil. tauto.
  - destruct (zset_geb x z); rewrite !elem_of_cons; [tauto|].
    rewrite IH. tauto.
Qed.

Lemma elem_of_zset_sort_desc (y : bytes * Z) (l : list (bytes * Z)) :
  y ∈ zset_sort_desc l <-> y ∈ l.
Proof.
  induction l as [|x l IH]; simpl; [done|].
  rewrite elem_of_zset_insert_desc, IH, elem_of_cons. tauto.
Qed.

(** The first member of a reverse-ordered set has the greatest score. *)
Lemma head_zset_insert_desc (x : bytes * Z) (l : list (bytes * Z)) :
  (forall y z, head l = Some y -> z ∈ l -> (z.2 <= y.2)%Z) ->
  forall y z, head (zset_insert_desc x l) = Some y ->
              z ∈ zset_insert_desc x l -> (z.2 <= y.2)%Z.
Proof.
  intros Hl y z. destruct l as [|h l]; simpl.
  - intros [= <-] ->%list_elem_of_singleton. lia.
  - destruct (zset_geb x h) eqn:E; simpl.
    + intros [= <-]. apply zset_geb_score in E.
      rewrite elem_of_cons. intros [->|Hz]; [lia|].
      specialize (Hl h z eq_refl Hz). lia.
    + intros [= <-]. apply zset_not_geb_score in E.
      rewrite elem_of_cons, elem_of_zset_insert_desc.
      intros [->|[->|Hz]]; [lia | lia |].
      apply (Hl h z eq_refl). by right.
Qed.

Lemma head_zset_sort_desc (l : list (bytes * Z)) (y z : bytes * Z) :
  head (zset_sort_desc l) = Some y -> z ∈ l -> (z.2 <= y.2)%Z.
Proof.
  revert y z. induction l as [|x l IH]; intros y z; simpl; [done|].
  intros Hy Hz. apply (head_zset_insert_desc x (zset_sort_desc l)); try done.
  - intros y' z' Hy' Hz'. apply (IH y' z' Hy'). by apply elem_of_zset_sort_desc.
  - apply elem_of_zset_insert_desc. apply elem_of_cons in Hz as [->|Hz]; [by left|].
    right. by apply elem_of_zset_sort_desc.
Qed.

Lemma latest_revision_Some (zs : list (bytes * Z)) (H : Z) (m : bytes) :
  latest_revision zs H = Some m ->
  exists sc, (m, sc) ∈ zs /\ (sc <= H)%Z
             /\ forall m' sc', (m', sc') ∈ zs -> (sc' <= H)%Z -> (sc' <= sc)%Z.
Proof.
  unfold latest_revision, zrevrangebyscore. rewrite drop_0.
  set (f := filter _ zs).
  destruct (zset_sort_desc f) as [|[m0 sc] l] eqn:E; [done|].
  simpl. rewrite ?take_0. simpl. intros [= <-].
  assert (Hin : (m0, sc) ∈ f).
  { apply elem_of_zset_sort_desc. rewrite E. by left. }
  apply list_elem_of_filter in Hin as [Hp Hin]. simpl in Hp.
  rewrite andb_true_r in Hp. apply Z.leb_le in Hp.
  exists sc. split; [done|]. split; [done|].
  intros m' sc' Hin' Hle.
  apply (head_zset_sort_desc f (m0, sc) (m', sc')); [by rewrite E|].
  apply list_elem_of_filter. split; [|done].
  simpl. rewrite andb_true_r. by apply Z.leb_le.
Qed.

Lemma latest_revision_None (zs : list (bytes * Z)) (H : Z) :
  latest_revision zs H = None -> forall m sc, (m, sc) ∈ zs -> (H < sc)%Z.
Proof.
  unfold latest_revision, zrevrangebyscore. rewrite drop_0.
  set (f := filter _ zs).
  destruct (zset_sort_desc f) as [|[m0 sc0] l] eqn:E; [|done].
  intros _ m sc Hin.
  destruct (decide (sc <= H)%Z) as [Hle|]; [|lia].
  assert (Hf : (m, sc) ∈ f).
  { apply list_elem_of_filter. split; [|done].
    simpl. rewrite andb_true_r. by apply Z.leb_le. }
  apply elem_of_zset_sort_desc in Hf. rewrite E in Hf. by apply elem_of_nil in Hf.
Qed.

Lemma zrevrangebyscore_limit_1 (zs : list (bytes * Z)) (H : Z) :
  zrevrangebyscore zs (Fin H) NegInf 0 1 = option_list (latest_revision zs H).
Proof.
  unfold latest_revision, zrevrangebyscore. rewrite drop_0.
  destruct (zset_sort_desc _) as [|x l]; [done|]. simpl. by rewrite ?take_0.
Qed.

(** ** Commands as the client sends them and the server answers them *)

Lemma send_eq (name : bytes) (args : list value) (wargs : list bytes) (s : Process) :
  wire_args args = Ok wargs ->
  send name args s =
  (match server s (name :: wargs) with
   | Ok r => Ok (reply_value (existsb is_buffer args) r)
   | Err e => Err e
   end, sent (name :: wargs) s).
Proof. intros Hw. unfold send. rewrite Hw. by destruct (server s _). Qed.

Lemma redis_exec_GET (db : DB) (key : bytes) :
  db_zsets db !! key = None ->
  redis_exec db [buf "GET"; key]
  = Ok (match db_strings db !! key with Some v => RBulk v | None => RNil end).
Proof.
  intros Hz. unfold redis_exec. rewrite Hz.
  by destruct (decide (buf "GET" = buf "GET")).
Qed.

Lemma redis_exec_ZREVRANGEBYSCORE (db : DB) (key maxb : bytes) (H : Z) :
  parse_bound maxb = Some (Fin H) ->
  redis_exec db [buf "ZREVRANGEBYSCORE"; key; maxb; buf "-inf"; buf "LIMIT"; buf "0"; buf "1"]
  = Ok (RMulti (map RBulk (option_list
                  (latest_revision (default [] (db_zsets db !! key)) H)))).
Proof.
  intros Hp. unfold redis_exec.
  destruct (decide (_ ∧ _)) as [_|Hn]; [|by destruct Hn].
  rewrite Hp.
  change (parse_bound (buf "-inf")) with (Some NegInf).
  change (parse_nat (buf "0")) with (Some 0).
  change (parse_nat (buf "1")) with (Some 1).
  cbv iota beta. by rewrite zrevrangebyscore_limit_1.
Qed.

(** The command of the three revision lookups, against a database. *)
Lemma sendCommand_ZREVRANGEBYSCORE (db : DB) (s : Process) (key hb : bytes)
    (blockHeight : value) (H : Z) :
  server s = redis_exec db ->
  wire_arg blockHeight = Ok hb ->
  parse_bound hb = Some (Fin H) ->
  rc_sendCommand redis_client (js "ZREVRANGEBYSCORE")
    [VBuf key; blockHeight; VStr (js "-inf"); VStr (js "LIMIT"); VStr (js "0"); VStr (js "1")] s
  = (Ok (VArr (map VBuf (option_list
                 (latest_revision (default [] (db_zsets db !! key)) H)))),
     sent [buf "ZREVRANGEBYSCORE"; key; hb; buf "-inf"; buf "LIMIT"; buf "0"; buf "1"] s).
Proof.
  intros Hs Hw Hp. cbn [rc_sendCommand redis_client].
  change (Buffer_from (js "ZREVRANGEBYSCORE")) with (buf "ZREVRANGEBYSCORE").
  rewrite (send_eq _ _ [key; hb; buf "-inf"; buf "LIMIT"; buf "0"; buf "1"]).
  - rewrite Hs, (redis_exec_ZREVRANGEBYSCORE db key hb H Hp).
    cbn [existsb is_buffer orb reply_value]. f_equal. f_equal. f_equal.
    rewrite map_map. by apply map_ext.
  - cbn [wire_args wire_arg]. by rewrite Hw.
Qed.

Lemma first_of_option_list (o : option bytes) :
  first_of (VArr (map VBuf (option_list o)))
  = Ok (match o with Some m => VBuf m | None => VUndefined end).
Proof. by destruct o. Qed.

Lemma wire_arg_decimal (z : Z) : wire_arg (VStr (decimal z)) = Ok (Buffer_from (decimal z)).
Proof. reflexivity. Qed.

(** ** The cache *)

Lemma lru_find_set (key : jsstring) (v : outcome value) (maxAge now : Z)
    (c : list lru_entry) :
  lru_find key (lru_set key v maxAge now c)
  = Some {| lru_key := key; lru_value := v;
            lru_now := if (maxAge =? 0)%Z then 0%Z else now; lru_maxAge := maxAge |}.
Proof.
  unfold lru_find, lru_set, LRU_max. cbn [take find lru_key].
  by rewrite bool_decide_eq_true_2.
Qed.

Lemma lru_get_hit (key : jsstring) (now : Z) (c : list lru_entry) (e : lru_entry) :
  lru_find key c = Some e -> lru_stale now e = false ->
  lru_get key now c = (Some (lru_value e), e :: lru_without key c).
Proof. intros Hf Hs. unfold lru_get. by rewrite Hf, Hs. Qed.

Lemma lru_get_stale (key : jsstring) (now : Z) (c : list lru_entry) (e : lru_entry) :
  lru_find key c = Some e -> lru_stale now e = true ->
  lru_get key now c = (None, lru_without key c).
Proof. intros Hf Hs. unfold lru_get. by rewrite Hf, Hs. Qed.

Lemma lru_get_None (key : jsstring) (now : Z) (c : list lru_entry) :
  lru_find key c = None -> lru_get key now c = (None, c).
Proof. intros Hf. unfold lru_get. by rewrite Hf. Qed.

(** What a hit says about the cache. *)
Lemma lru_get_Some_inv (key : jsstring) (now : Z) (c c' : list lru_entry)
    (v : outcome value) :
  lru_get key now c = (Some v, c') ->
  exists e, lru_find key c = Some e /\ lru_stale now e = false
            /\ lru_value e = v /\ c' = e :: lru_without key c.
Proof.
  unfold lru_get. destruct (lru_find key c) as [e|]; [|done].
  destruct (lru_stale now e) eqn:E; [done|]. intros [= <- <-]. by exists e.
Qed.

(** ** Settling *)

Lemma lru_settle_without (key : jsstring) (o : outcome value) (c : list lru_entry) :
  lru_settle key o (lru_without key c) = lru_without key c.
Proof.
  unfold lru_settle, lru_without. induction c as [|e c IH]; [done|].
  rewrite filter_cons. destruct (decide (lru_key e ≠ key)) as [Hne|Heq]; [|done].
  cbn [map]. rewrite IH. by rewrite bool_decide_eq_false_2.
Qed.

Lemma lru_settle_take (key : jsstring) (o : outcome value) (n : nat) (c : list lru_entry) :
  lru_settle key o (take n c) = take n (lru_settle key o c).
Proof. unfold lru_settle. revert n. induction c as [|e c IH]; intros [|n]; cbn [take map]; [done..|]. by rewrite IH. Qed.

(** Settling the entry that has just been set. *)
Lemma lru_settle_set (key : jsstring) (o v : outcome value) (maxAge now : Z)
    (c : list lru_entry) :
  lru_settle key o (lru_set key v maxAge now c) = lru_set key o maxAge now c.
Proof.
  unfold lru_set. rewrite lru_settle_take. f_equal.
  change (lru_settle key o (?e :: ?l)) with
    ((if bool_decide (lru_key e = key)
      then {| lru_key := lru_key e; lru_value := o;
              lru_now := lru_now e; lru_maxAge := lru_maxAge e |}
      else e) :: lru_settle key o l).
  cbn [lru_key lru_now lru_maxAge]. rewrite bool_decide_eq_true_2 by done.
  by rewrite lru_settle_without.
Qed.

Lemma lru_find_settle (key : jsstring) (o : outcome value) (c : list lru_entry) :
  lru_find key (lru_settle key o c)
  = match lru_find key c with
    | Some e => Some {| lru_key := lru_key e; lru_value := o;
                        lru_now := lru_now e; lru_maxAge := lru_maxAge e |}
    | None => None
    end.
Proof.
  unfold lru_find, lru_settle. induction c as [|e c IH]; [done|].
  cbn [map find]. destruct (decide (lru_key e = key)) as [Heq|Hne].
  - repeat (rewrite (bool_decide_eq_true_2 _ Heq) || cbn [lru_key]). done.
  - by rewrite !(bool_decide_eq_false_2 _ Hne).
Qed.

Lemma lru_find_settle_other (key key' : jsstring) (o : outcome value) (c : list lru_entry) :
  key' <> key -> lru_find key' (lru_settle key o c) = lru_find key' c.
Proof.
  intros Hne. unfold lru_find, lru_settle. induction c as [|e c IH]; [done|].
  cbn [map find]. destruct (decide (lru_key e = key)) as [Heq|Hne'].
  - rewrite (bool_decide_eq_true_2 _ Heq). cbn [lru_key].
    rewrite !(bool_decide_eq_false_2 (lru_key e = key')) by congruence. done.
  - rewrite (bool_decide_eq_false_2 _ Hne'). by rewrite IH.
Qed.

Lemma map_lru_key_settle (key : jsstring) (o : outcome value) (c : list lru_entry) :
  map lru_key (lru_settle key o c) = map lru_key c.
Proof.
  unfold lru_settle. rewrite map_map. apply map_ext. intros e.
  by destruct (bool_decide _).
Qed.

Lemma sent_all_nil (s : Process) : sent_all [] s = s.
Proof. by destruct s. Qed.

Lemma sent_all_app (a b : list Command) (s : Process) :
  sent_all a (sent_all b s) = sent_all (a ++ b) s.
Proof. unfold sent_all. cbn [redisCache redisClient Date_now server wire]. by rewrite app_assoc. Qed.

(** ** Operations that only talk to the store *)

Lemma store_only_await {A} (p : outcome A) : store_only (await p).
Proof. intros srv. exists p, []. intros s _. unfold await. by rewrite sent_all_nil. Qed.

Lemma store_only_bind {A B} (m : M A) (k : A -> M B) :
  store_only m -> (forall a, store_only (k a)) -> store_only (bind m k).
Proof.
  intros Hm Hk srv. destruct (Hm srv) as (o & cmds & Ho). destruct o as [a|e].
  - destruct (Hk a srv) as (o2 & cmds2 & Ho2). exists o2, (cmds2 ++ cmds).
    intros s Hs. unfold bind. rewrite (Ho s Hs), (Ho2 (sent_all cmds s) Hs).
    by rewrite sent_all_app.
  - exists (Err e), cmds. intros s Hs. unfold bind. by rewrite (Ho s Hs).
Qed.

Lemma store_only_send (name : bytes) (args : list value) : store_only (send name args).
Proof.
  intros srv. unfold send. destruct (wire_args args) as [wargs|e].
  - exists (match srv (name :: wargs) with
            | Ok r => Ok (reply_value (existsb is_buffer args) r)
            | Err e => Err e
            end), [name :: wargs].
    intros s Hs. rewrite Hs. by destruct (srv (name :: wargs)).
  - exists (Err e), []. intros s _. by rewrite sent_all_nil.
Qed.

(** The seven operations that send one command. *)
Lemma store_only_operations (args : list value) :
  store_only (getLatestBlockHeight redis_client args)
  /\ store_only (getLatestContractBlockHash redis_client args)
  /\ store_only (getContractCode redis_client args)
  /\ store_only (getLatestAccountBlockHash redis_client args)
  /\ store_only (getAccountData redis_client args)
  /\ store_only (getLatestDataBlockHash redis_client args)
  /\ store_only (getData redis_client args).
Proof.
  unfold getLatestBlockHeight, getLatestContractBlockHash, getContractCode,
    getLatestAccountBlockHash, getAccountData, getLatestDataBlockHash, getData.
  cbn [rc_get rc_sendCommand redis_client].
  repeat split;
    repeat first [ apply store_only_send | apply store_only_await
                 | apply store_only_bind; [|intros ?] ].
Qed.

Section Resolver.
Context `{PrettyBuffer}.

Lemma withRedis_hit (name : jsstring) (ce : bool)
    (fn : RedisClient -> list value -> M value) (args : list value) (s : Process)
    (p : outcome value) (c' : list lru_entry) :
  lru_get (cacheKey name args) (Date_now s) (redisCache s) = (Some p, c') ->
  withRedis name ce fn args s = (p, with_redisCache c' s).
Proof.
  intros Hg. unfold withRedis, bind, redisCache_get. by rewrite Hg.
Qed.

(** A miss: the entry is made, [fn] runs, and its outcome settles the
    entry where [fn] has left it in the cache. *)
Lemma withRedis_miss (name : jsstring) (ce : bool)
    (fn : RedisClient -> list value -> M value) (args : list value) (s s1 : Process)
    (o : outcome value) (c' : list lru_entry) :
  lru_get (cacheKey name args) (Date_now s) (redisCache s) = (None, c') ->
  fn redis_client args (awaiting (cacheKey name args) ce c' s) = (o, s1) ->
  withRedis name ce fn args s
  = (o, with_redisCache (lru_settle (cacheKey name args) o (redisCache s1)) s1).
Proof.
  intros Hg Hf. unfold withRedis, bind, redisCache_get. rewrite Hg.
  cbn [getRedisClient redisCache_set]. unfold promise.
  change (with_redisCache _ (with_redisClient (with_redisCache c' s)))
    with (awaiting (cacheKey name args) ce c' s).
  rewrite Hf. by cbn [redisCache_settle await].
Qed.

(** A miss of an operation that only talks to the store: the call ends with
    the entry as the most recently used one. *)
Lemma withRedis_miss_store_only (name : jsstring) (ce : bool)
    (fn : RedisClient -> list value -> M value) (args : list value) (s s1 : Process)
    (o : outcome value) (c' : list lru_entry) :
  store_only (fn redis_client args) ->
  lru_get (cacheKey name args) (Date_now s) (redisCache s) = (None, c') ->
  fn redis_client args (with_redisClient (with_redisCache c' s)) = (o, s1) ->
  withRedis name ce fn args s
  = (o, with_redisCache
          (lru_set (cacheKey name args) o
             (if ce then BLOCK_INDEX_CACHE_TIME else 0%Z) (Date_now s1) (redisCache s1)) s1).
Proof.
  intros Hso Hg Hf. destruct (Hso (server s)) as (o' & cmds & Ho).
  rewrite (Ho (with_redisClient (with_redisCache c' s)) eq_refl) in Hf.
  injection Hf as -> <-.
  rewrite (withRedis_miss name ce fn args s _ o c' Hg
             (Ho (awaiting (cacheKey name args) ce c' s) eq_refl)).
  f_equal. unfold with_redisCache, sent_all, awaiting, with_redisClient.
  cbn [redisCache redisClient Date_now server wire].
  by rewrite lru_settle_set.
Qed.

(** An operation that sends one command, on a lookup that is not cached:
    the command goes out, the answer is stored under the lookup's key. *)
Lemma withRedis_send_miss (name : jsstring) (ce : bool)
    (fn : RedisClient -> list value -> M value) (args : list value) (s : Process)
    (cmd : Command) (o : outcome value) :
  lru_find (cacheKey name args) (redisCache s) = None ->
  (forall s0, server s0 = server s -> fn redis_client args s0 = (o, sent cmd s0)) ->
  exists s', withRedis name ce fn args s = (o, s')
    /\ server s' = server s /\ Date_now s' = Date_now s
    /\ redisCache s'
       = lru_set (cacheKey name args) o (if ce then BLOCK_INDEX_CACHE_TIME else 0%Z)
           (Date_now s) (redisCache s)
    /\ wire s' = cmd :: wire s.
Proof.
  intros Hmiss Hfn.
  eexists. split.
  - apply (withRedis_miss name ce fn args s
             (sent cmd (awaiting (cacheKey name args) ce (redisCache s) s)) o (redisCache s)).
    + by apply lru_get_None.
    + by apply Hfn.
  - cbn [with_redisCache sent awaiting redisCache redisClient Date_now server wire].
    split; [done|]. split; [done|]. split; [apply lru_settle_set | done].
Qed.

End Resolver.

(* ================================================================== *)
(** * 10. The state resolver *)
(* ================================================================== *)

(** ** Revision lookups against a database *)

Lemma getLatestContractBlockHash_eq (db : DB) (s : Process) (C : jsstring)
    (blockHeight : value) (hb : bytes) (H : Z) :
  server s = redis_exec db ->
  wire_arg blockHeight = Ok hb ->
  parse_bound hb = Some (Fin H) ->
  getLatestContractBlockHash redis_client [VStr C; blockHeight] s
  = (Ok (match latest_revision
                 (default [] (db_zsets db !! (buf "code:" ++ Buffer_from C))) H with
         | Some m => VBuf m
         | None => VUndefined
         end),
     sent [buf "ZREVRANGEBYSCORE"; buf "code:" ++ Buffer_from C; hb;
           buf "-inf"; buf "LIMIT"; buf "0"; buf "1"] s).
Proof.
  intros Hs Hw Hp. unfold getLatestContractBlockHash, bind, arg.
  cbn [nth template].
  rewrite (Buffer_from_ascii_app (js "code:") C eq_refl).
  change (map byte_of_N (js "code:")) with (buf "code:").
  rewrite (sendCommand_ZREVRANGEBYSCORE db s _ hb blockHeight H Hs Hw Hp).
  unfold await. by rewrite first_of_option_list.
Qed.

Section ResolverClaims.
Context `{PrettyBuffer}.

(** C2. [getLatestContractBlockHash(C, H)] against a database: the answer is
    a member of the ordered set [code:C] whose score is the greatest one
    not exceeding [H], and [undefined] when every member's score exceeds
    [H]. The exported, memoised operation gives the same answer when the
    cache holds nothing for the lookup. *)
Theorem getLatestContractBlockHash_greatest_revision :
  forall (db : DB) (s : Process) (C : jsstring) (H : Z),
    let zs := default [] (db_zsets db !! (buf "code:" ++ Buffer_from C)) in
    let s0 := later s (redis_exec db) (Date_now s) in
    exists o : option bytes,
      (getLatestContractBlockHash redis_client [VStr C; VStr (decimal H)] s0).1
      = Ok (match o with Some m => VBuf m | None => VUndefined end)
      /\ (lru_find (cacheKey (js "getLatestContractBlockHash") [VStr C; VStr (decimal H)])
            (redisCache s) = None ->
          (exports_getLatestContractBlockHash [VStr C; VStr (decimal H)] s0).1
          = Ok (match o with Some m => VBuf m | None => VUndefined end))
      /\ match o with
         | Some m =>
             exists sc, (m, sc) ∈ zs /\ (sc <= H)%Z
               /\ forall m' sc', (m', sc') ∈ zs -> (sc' <= H)%Z -> (sc' <= sc)%Z
         | None => forall m sc, (m, sc) ∈ zs -> (H < sc)%Z
         end.
Proof.
  intros db s C Hh zs s0.
  exists (latest_revision zs Hh).
  assert (Hraw : forall s', server s' = redis_exec db ->
            (getLatestContractBlockHash redis_client [VStr C; VStr (decimal Hh)] s').1
            = Ok (match latest_revision zs Hh with Some m => VBuf m | None => VUndefined end)).
  { intros s' Hs'.
    by rewrite (getLatestContractBlockHash_eq db s' C _ _ Hh Hs'
                  (wire_arg_decimal Hh) (parse_bound_decimal Hh)). }
  split; [by apply Hraw|]. split.
  - intros Hmiss. unfold exports_getLatestContractBlockHash.
    destruct (getLatestContractBlockHash redis_client [VStr C; VStr (decimal Hh)]
                (awaiting (cacheKey (js "getLatestContractBlockHash")
                             [VStr C; VStr (decimal Hh)]) false (redisCache s) s0))
      as [o s1] eqn:E.
    rewrite (withRedis_miss _ _ _ _ s0 s1 o (redisCache s)).
    + simpl. change o with (o, s1).1. rewrite <- E. by apply Hraw.
    + by apply lru_get_None.
    + done.
  - destruct (latest_revision zs Hh) as [m|] eqn:E.
    + by apply latest_revision_Some.
    + by apply latest_revision_None.
Qed.

End ResolverClaims.

(** ** Payload keys *)

Lemma Buffer_from_key_prefix (prefix : string) (C : jsstring) :
  is_ascii (js prefix) = true ->
  Buffer_from (js prefix ++ C ++ js ":") = buf prefix ++ Buffer_from C ++ buf ":".
Proof.
  intros Hp. rewrite (Buffer_from_ascii_app _ _ Hp), map_byte_of_N_js.
  by rewrite (Buffer_from_app C (js ":")).
Qed.

Lemma rc_get_wire (key : bytes) (s : Process) :
  wire (rc_get redis_client (VBuf key) s).2 = [buf "GET"; key] :: wire s.
Proof.
  cbn [rc_get redis_client]. by rewrite (send_eq _ [VBuf key] [key] s eq_refl).
Qed.

Lemma getContractCode_get (s : Process) (C : jsstring) (R : bytes) :
  getContractCode redis_client [VStr C; VBuf R] s
  = rc_get redis_client (VBuf (buf "code:" ++ Buffer_from C ++ buf ":" ++ R)) s.
Proof.
  unfold getContractCode, bind, await, arg. cbn [nth template Buffer_concat].
  rewrite (Buffer_from_key_prefix "code:" C eq_refl).
  by rewrite app_nil_r, <- !app_assoc.
Qed.

Lemma getData_get (s : Process) (compKey R : bytes) :
  getData redis_client [VBuf compKey; VBuf R] s
  = rc_get redis_client (VBuf (buf "data-value:" ++ compKey ++ buf ":" ++ R)) s.
Proof.
  unfold getData, bind, await, arg. cbn [nth Buffer_from_value Buffer_concat].
  by rewrite app_nil_r.
Qed.

Section PayloadKeys.
Context `{PrettyBuffer}.

(** The exported payload fetch on a lookup that is not cached: the GET with
    the key goes out and the answer is the server's. *)
Lemma exports_get_miss (name : jsstring) (fn : RedisClient -> list value -> M value)
    (args : list value) (key : bytes) (s : Process) :
  (forall s0, fn redis_client args s0 = rc_get redis_client (VBuf key) s0) ->
  lru_find (cacheKey name args) (redisCache s) = None ->
  (withRedis name false fn args s).1
  = match server s [buf "GET"; key] with
    | Ok r => Ok (reply_value true r)
    | Err e => Err e
    end
  /\ wire (withRedis name false fn args s).2 = [buf "GET"; key] :: wire s.
Proof.
  intros Hfn Hmiss.
  destruct (withRedis_send_miss name false fn args s [buf "GET"; key]
              (match server s [buf "GET"; key] with
               | Ok r => Ok (reply_value true r)
               | Err e => Err e
               end) Hmiss) as (s' & -> & _ & _ & _ & Hw); [|done].
  intros s0 Hs0. rewrite Hfn. cbn [rc_get redis_client].
  by rewrite (send_eq _ [VBuf key] [key] s0 eq_refl), Hs0.
Qed.

(** C6. The payload fetches send GET with keys built by plain byte
    concatenation: [code:] then the UTF-8 bytes of [C], the colon byte 0x3A
    and the revision hash for [getContractCode]; [data-value:] then the
    composite key bytes, a colon and the revision hash for [getData]. The
    key and hash bytes are arbitrary and go in as they are. The operations
    as the module exports them do the same on a lookup that is not cached:
    the one command they send is the GET of that key, and their answer is
    the server's reply to it. *)
Theorem payload_fetch_keys :
  forall (s : Process) (C : jsstring) (compKey R : bytes),
    buf ":" = [x3a]
    /\ getContractCode redis_client [VStr C; VBuf R] s
       = rc_get redis_client (VBuf (buf "code:" ++ Buffer_from C ++ buf ":" ++ R)) s
    /\ wire (getContractCode redis_client [VStr C; VBuf R] s).2
       = [buf "GET"; buf "code:" ++ Buffer_from C ++ buf ":" ++ R] :: wire s
    /\ getData redis_client [VBuf compKey; VBuf R] s
       = rc_get redis_client (VBuf (buf "data-value:" ++ compKey ++ buf ":" ++ R)) s
    /\ wire (getData redis_client [VBuf compKey; VBuf R] s).2
       = [buf "GET"; buf "data-value:" ++ compKey ++ buf ":" ++ R] :: wire s
    /\ (lru_find (cacheKey (js "getContractCode") [VStr C; VBuf R]) (redisCache s) = None ->
        (exports_getContractCode [VStr C; VBuf R] s).1
        = match server s [buf "GET"; buf "code:" ++ Buffer_from C ++ buf ":" ++ R] with
          | Ok r => Ok (reply_value true r)
          | Err e => Err e
          end
        /\ wire (exports_getContractCode [VStr C; VBuf R] s).2
           = [buf "GET"; buf "code:" ++ Buffer_from C ++ buf ":" ++ R] :: wire s)
    /\ (lru_find (cacheKey (js "getData") [VBuf compKey; VBuf R]) (redisCache s) = None ->
        (exports_getData [VBuf compKey; VBuf R] s).1
        = match server s [buf "GET"; buf "data-value:" ++ compKey ++ buf ":" ++ R] with
          | Ok r => Ok (reply_value true r)
          | Err e => Err e
          end
        /\ wire (exports_getData [VBuf compKey; VBuf R] s).2
           = [buf "GET"; buf "data-value:" ++ compKey ++ buf ":" ++ R] :: wire s).
Proof.
  intros s C compKey R.
  pose proof (getContractCode_get s C R) as Hc.
  pose proof (getData_get s compKey R) as Hd.
  split; [done|]. split; [done|]. split; [by rewrite Hc, rc_get_wire|].
  split; [done|]. split; [by rewrite Hd, rc_get_wire|]. split.
  - apply exports_get_miss. intros s0. apply getContractCode_get.
  - apply exports_get_miss. intros s0. apply getData_get.
Qed.

End PayloadKeys.

(** ** Memoisation *)

Section Memoisation.
Context `{PrettyBuffer}.

(** An entry that a lookup has just made answers later lookups: always
    when it has no maximum age, and for [BLOCK_INDEX_CACHE_TIME]
    milliseconds otherwise. *)
Lemma lru_get_after_set (key : jsstring) (o : outcome value) (ce : bool)
    (t now' : Z) (c : list lru_entry) :
  (if ce then (now' - t <= BLOCK_INDEX_CACHE_TIME)%Z else True) ->
  exists c2,
    lru_get key now' (lru_set key o (if ce then BLOCK_INDEX_CACHE_TIME else 0%Z) t c)
    = (Some o, c2).
Proof.
  intros Hage. eexists.
  rewrite (lru_get_hit key now' _ _ (lru_find_set key o _ t c)); [done|].
  unfold lru_stale, BLOCK_INDEX_CACHE_TIME in *. destruct ce; simpl; [|done].
  apply Z.ltb_ge. lia.
Qed.

Lemma lru_get_after_expiry (key : jsstring) (o : outcome value) (t now' : Z)
    (c : list lru_entry) :
  (BLOCK_INDEX_CACHE_TIME < now' - t)%Z ->
  lru_get key now' (lru_set key o BLOCK_INDEX_CACHE_TIME t c)
  = (None, lru_without key (lru_set key o BLOCK_INDEX_CACHE_TIME t c)).
Proof.
  intros Hage.
  rewrite (lru_get_stale key now' _ _ (lru_find_set key o _ t c)); [done|].
  unfold lru_stale, BLOCK_INDEX_CACHE_TIME in *. simpl. apply Z.ltb_lt. lia.
Qed.

(** The entry of a call that [fn] has left in the cache, once the call has
    returned. *)
Lemma withRedis_entry_kept (name : jsstring) (ce : bool)
    (fn : RedisClient -> list value -> M value) (args : list value) (s s1 : Process)
    (o : outcome value) (c' : list lru_entry) :
  lru_get (cacheKey name args) (Date_now s) (redisCache s) = (None, c') ->
  fn redis_client args (awaiting (cacheKey name args) ce c' s) = (o, s1) ->
  lru_find (cacheKey name args) (redisCache s1)
  = lru_find (cacheKey name args) (redisCache (awaiting (cacheKey name args) ce c' s)) ->
  lru_find (cacheKey name args) (redisCache (withRedis name ce fn args s).2)
  = Some {| lru_key := cacheKey name args; lru_value := o;
            lru_now := if ce then Date_now s else 0%Z;
            lru_maxAge := if ce then BLOCK_INDEX_CACHE_TIME else 0%Z |}.
Proof.
  intros Hmiss Hfn Hkept.
  rewrite (withRedis_miss name ce fn args s s1 o c' Hmiss Hfn).
  cbn [snd with_redisCache redisCache]. rewrite lru_find_settle, Hkept.
  cbn [awaiting redisCache]. rewrite lru_find_set.
  cbn [lru_key lru_now lru_maxAge]. by destruct ce.
Qed.

(** An operation that only talks to the store leaves the entry of its call
    where it is. *)
Lemma store_only_keeps_entry (fn : RedisClient -> list value -> M value)
    (args : list value) (s0 s1 : Process) (o : outcome value) :
  store_only (fn redis_client args) ->
  fn redis_client args s0 = (o, s1) ->
  redisCache s1 = redisCache s0.
Proof.
  intros Hso Hfn. destruct (Hso (server s0)) as (o' & cmds & Ho).
  rewrite (Ho s0 eq_refl) in Hfn. by injection Hfn as _ <-.
Qed.

(** C10. A lookup that misses puts its promise in the process-wide cache
    before the store has answered: the entry is there while [fn] runs.
    When the store call fails, [withRedis] rejects with that error, and the
    entry, if the lookups that [fn] has made have not evicted it, now holds
    the rejection; after an operation that only talks to the store it is
    the most recently used entry and answers ([ce = false]: at any later
    time; the latest height: for 500 ms). Whenever the cache still answers
    the key with that rejection, the same call rejects with the same error,
    runs nothing and sends nothing: only the cache order changes. *)
Theorem failed_lookup_stays_cached :
  forall (name : jsstring) (ce : bool) (fn : RedisClient -> list value -> M value)
         (args : list value) (s s1 : Process) (c' : list lru_entry) (e : Error),
    lru_get (cacheKey name args) (Date_now s) (redisCache s) = (None, c') ->
    fn redis_client args (awaiting (cacheKey name args) ce c' s) = (Err e, s1) ->
    let s' := (withRedis name ce fn args s).2 in
    (exists en, lru_find (cacheKey name args)
                  (redisCache (awaiting (cacheKey name args) ce c' s)) = Some en
                /\ lru_value en = pending)
    /\ (withRedis name ce fn args s).1 = Err e
    /\ (forall en, lru_find (cacheKey name args) (redisCache s1) = Some en ->
          exists en', lru_find (cacheKey name args) (redisCache s') = Some en'
                      /\ lru_value en' = Err e)
    /\ (store_only (fn redis_client args) ->
        redisCache s'
        = lru_set (cacheKey name args) (Err e)
            (if ce then BLOCK_INDEX_CACHE_TIME else 0%Z) (Date_now s) c'
        /\ forall now', (if ce then (now' - Date_now s <= BLOCK_INDEX_CACHE_TIME)%Z else True) ->
              (lru_get (cacheKey name args) now' (redisCache s')).1 = Some (Err e))
    /\ (forall s2 : Process,
          (lru_get (cacheKey name args) (Date_now s2) (redisCache s2)).1 = Some (Err e) ->
          exists c2, withRedis name ce fn args s2 = (Err e, with_redisCache c2 s2)).
Proof.
  intros name ce fn args s s1 c' e Hmiss Hfn s'.
  subst s'. rewrite (withRedis_miss name ce fn args s s1 (Err e) c' Hmiss Hfn).
  cbn [fst snd with_redisCache redisCache].
  split.
  { eexists. split; [apply lru_find_set | done]. }
  split; [done|]. split.
  { intros en Hen. rewrite lru_find_settle, Hen. by eexists. }
  split.
  { intros Hso.
    assert (Hc : lru_settle (cacheKey name args) (Err e) (redisCache s1)
                 = lru_set (cacheKey name args) (Err e)
                     (if ce then BLOCK_INDEX_CACHE_TIME else 0%Z) (Date_now s) c').
    { rewrite (store_only_keeps_entry fn args _ s1 (Err e) Hso Hfn).
      apply lru_settle_set. }
    rewrite Hc. split; [done|]. intros now' Hage.
    destruct (lru_get_after_set (cacheKey name args) (Err e) ce (Date_now s) now'
                c' Hage) as [c2 ->]. done. }
  intros s2 Hhit.
  destruct (lru_get (cacheKey name args) (Date_now s2) (redisCache s2)) as [hit c2] eqn:E.
  simpl in Hhit. subst hit. exists c2. by apply withRedis_hit.
Qed.

(** C3, as the code has it. The memoisation is process-wide for every
    lookup: the entry that a call has made, while it is in the cache,
    answers any later call with the same name and arguments, whatever the
    clock and the store say by then and whichever request makes it, and
    that call sends no command: so does any call that finds an entry for
    its key. The entry is in the cache when the call returns unless the
    lookups that [fn] itself has made have evicted it; the seven
    operations that send one command make none. The one
    difference of [getLatestBlockHeight], the only exported operation with
    [ce = true], is the maximum age of 500 ms: within it the entry answers,
    past it the entry is dropped and the operation runs again. *)
Theorem memoisation_is_process_wide :
  forall (name : jsstring) (ce : bool) (fn : RedisClient -> list value -> M value)
         (args : list value) (s s1 : Process) (c' : list lru_entry) (o : outcome value)
         (srv' : Server) (now' : Z),
    lru_get (cacheKey name args) (Date_now s) (redisCache s) = (None, c') ->
    fn redis_client args (awaiting (cacheKey name args) ce c' s) = (o, s1) ->
    let s' := (withRedis name ce fn args s).2 in
    let s2 := later s' srv' now' in
    BLOCK_INDEX_CACHE_TIME = 500%Z
    /\ (withRedis name ce fn args s).1 = o
    /\ (lru_find (cacheKey name args) (redisCache s1)
        = lru_find (cacheKey name args)
            (redisCache (awaiting (cacheKey name args) ce c' s)) ->
        ((if ce then (now' - Date_now s <= BLOCK_INDEX_CACHE_TIME)%Z else True) ->
         exists c2, withRedis name ce fn args s2 = (o, with_redisCache c2 s2))
        /\ (ce = true -> (BLOCK_INDEX_CACHE_TIME < now' - Date_now s)%Z ->
            (withRedis name ce fn args s2).1
            = (fn redis_client args
                 (awaiting (cacheKey name args) true
                    (lru_without (cacheKey name args) (redisCache s')) s2)).1))
    /\ (store_only (fn redis_client args) ->
        lru_find (cacheKey name args) (redisCache s1)
        = lru_find (cacheKey name args)
            (redisCache (awaiting (cacheKey name args) ce c' s)))
    /\ (forall a : list value,
          store_only (getLatestBlockHeight redis_client a)
          /\ store_only (getLatestContractBlockHash redis_client a)
          /\ store_only (getContractCode redis_client a)
          /\ store_only (getLatestAccountBlockHash redis_client a)
          /\ store_only (getAccountData redis_client a)
          /\ store_only (getLatestDataBlockHash redis_client a)
          /\ store_only (getData redis_client a))
    /\ (forall (s3 : Process) (p : outcome value),
          (lru_get (cacheKey name args) (Date_now s3) (redisCache s3)).1 = Some p ->
          exists c3, withRedis name ce fn args s3 = (p, with_redisCache c3 s3))
    /\ (exports_getLatestBlockHeight
        = withRedis (js "getLatestBlockHeight") true getLatestBlockHeight
        /\ exports_getLatestContractBlockHash
           = withRedis (js "getLatestContractBlockHash") false getLatestContractBlockHash
        /\ exports_getContractCode = withRedis (js "getContractCode") false getContractCode
        /\ exports_getLatestAccountBlockHash
           = withRedis (js "getLatestAccountBlockHash") false getLatestAccountBlockHash
        /\ exports_getAccountData = withRedis (js "getAccountData") false getAccountData
        /\ exports_getLatestDataBlockHash
           = withRedis (js "getLatestDataBlockHash") false getLatestDataBlockHash
        /\ exports_getData = withRedis (js "getData") false getData
        /\ exports_scanDataKeys = withRedis (js "scanDataKeys") false scanDataKeys).
Proof.
  intros name ce fn args s s1 c' o srv' now' Hmiss Hfn s' s2.
  split; [done|]. split.
  { by rewrite (withRedis_miss name ce fn args s s1 o c' Hmiss Hfn). }
  split; [|split; [|split; [exact store_only_operations|split; [|by repeat split]]]].
  3:{ intros s3 p Hhit.
      destruct (lru_get (cacheKey name args) (Date_now s3) (redisCache s3))
        as [hit c3] eqn:E.
      simpl in Hhit. subst hit. exists c3. by apply withRedis_hit. }
  - intros Hkept.
    pose proof (withRedis_entry_kept name ce fn args s s1 o c' Hmiss Hfn Hkept) as Hen.
    fold s' in Hen. split.
    + intros Hage. eexists. apply withRedis_hit.
      change (redisCache s2) with (redisCache s').
      change (Date_now s2) with now'.
      rewrite (lru_get_hit _ now' _ _ Hen); [done|].
      unfold lru_stale, BLOCK_INDEX_CACHE_TIME in *. destruct ce; simpl; [|done].
      apply Z.ltb_ge. lia.
    + intros -> Hage.
      assert (Hg : lru_get (cacheKey name args) (Date_now s2) (redisCache s2)
                   = (None, lru_without (cacheKey name args) (redisCache s'))).
      { change (redisCache s2) with (redisCache s').
        change (Date_now s2) with now'.
        rewrite (lru_get_stale _ now' _ _ Hen); [done|].
        unfold lru_stale, BLOCK_INDEX_CACHE_TIME in *. simpl. apply Z.ltb_lt. lia. }
      destruct (fn redis_client args
                  (awaiting (cacheKey name args) true
                     (lru_without (cacheKey name args) (redisCache s')) s2))
        as [o2 s3] eqn:E.
      by rewrite (withRedis_miss name true fn args s2 s3 o2 _ Hg E).
  - intros Hso. by rewrite (store_only_keeps_entry fn args _ s1 o Hso Hfn).
Qed.

End Memoisation.

(** A lookup made while the server is down: [getLatestBlockHeight] in a
    process just started. *)
Lemma failed_lookup_stays_cached_witness :
  let pb := pretty_hex in
  let s := fresh_process server_down 0 in
  let e := {| ename := js "Error"; emessage := js "connect ECONNREFUSED 127.0.0.1:6379";
              ecode := Some (js "ECONNREFUSED") |} in
  (exports_getLatestBlockHeight [] s).1 = Err e
  /\ redisCache (exports_getLatestBlockHeight [] s).2
     = lru_set (js "getLatestBlockHeight") (Err e) BLOCK_INDEX_CACHE_TIME 0 []
  /\ forall s2 : Process,
       (lru_get (js "getLatestBlockHeight") (Date_now s2) (redisCache s2)).1 = Some (Err e) ->
       exists c2, exports_getLatestBlockHeight [] s2 = (Err e, with_redisCache c2 s2).
Proof.
  intros pb s e.
  pose proof (failed_lookup_stays_cached (js "getLatestBlockHeight") true
                getLatestBlockHeight [] s
                (sent [buf "GET"; buf "latest_block_height"]
                   (awaiting (js "getLatestBlockHeight") true [] s)) [] e
                eq_refl eq_refl) as (_ & H1 & _ & H3 & H4).
  split; [exact H1|]. split; [|exact H4].
  exact (proj1 (H3 (proj1 (store_only_operations [])))).
Defined.

(** C3 as the spec words it fails: a second [viewAccount] request, made an
    hour after the first and after the store has recorded a newer account
    revision, still answers from the entries of the first request. *)
Lemma request_scoped_memoisation_fails :
  ~ @request_scoped_memoisation pretty_hex bs58_hex.
Proof.
  intros Hscoped.
  specialize (Hscoped (VObj [(js "id", VNum 1)]) (VStr (js "alice"))
                (fresh_process (redis_exec db_alice) 0)
                (redis_exec db_alice_later) 3600000%Z).
  vm_compute in Hscoped. discriminate Hscoped.
Qed.

(** A lookup of the code revision of [alice], then the same lookup an hour
    later against the changed store. *)
Lemma memoisation_is_process_wide_witness :
  let pb := pretty_hex in
  let args := [VStr (js "alice"); VStr (js "100")] in
  let s := fresh_process (redis_exec db_alice) 0 in
  let s' := (exports_getLatestContractBlockHash args s).2 in
  exists c2,
    exports_getLatestContractBlockHash args (later s' (redis_exec db_alice_later) 3600000)
    = (Ok (VBuf rev1), with_redisCache c2 (later s' (redis_exec db_alice_later) 3600000)).
Proof.
  intros pb args s s'.
  pose proof (memoisation_is_process_wide (js "getLatestContractBlockHash") false
                getLatestContractBlockHash args s
                (getLatestContractBlockHash redis_client args
                   (awaiting (cacheKey (js "getLatestContractBlockHash") args)
                      false [] s)).2 [] (Ok (VBuf rev1))
                (redis_exec db_alice_later) 3600000%Z eq_refl eq_refl)
    as (_ & _ & H3 & H4 & _).
  exact (proj1 (H3 (H4 (proj1 (proj2 (store_only_operations args))))) I).
Defined.

(* ================================================================== *)
(** * 11. The account record *)
(* ================================================================== *)

Lemma to_N_byte_of_N_mod (n : N) : Byte.to_N (byte_of_N n) = (n mod 256)%N.
Proof.
  unfold byte_of_N. pose proof (N.mod_upper_bound n 256 ltac:(lia)) as Hb.
  destruct (Byte.of_N (n mod 256)) as [b|] eqn:E.
  - by apply Byte.to_of_N.
  - pose proof (Byte.to_of_N_option_map (n mod 256)) as Hm. rewrite E in Hm. simpl in Hm.
    destruct (n mod 256 <=? 255)%N eqn:E'; [discriminate | apply N.leb_gt in E'; lia].
Qed.

Lemma length_N_to_le (n : nat) (v : N) : length (N_to_le n v) = n.
Proof. revert v. induction n as [|n IH]; intros v; simpl; [done|]. by rewrite IH. Qed.

Lemma le_to_N_to_le (n : nat) (v : N) : le_to_N (N_to_le n v) = (v mod 256 ^ N.of_nat n)%N.
Proof.
  revert v. induction n as [|n IH]; intros v.
  - simpl. by rewrite N.mod_1_r.
  - cbn [N_to_le le_to_N]. rewrite IH, to_N_byte_of_N_mod.
    rewrite Nat2N.inj_succ, N.pow_succ_r'.
    rewrite N.Div0.mod_mul_r. lia.
Qed.

Lemma le_to_N_to_le_small (n : nat) (v : N) :
  (v < 256 ^ N.of_nat n)%N -> le_to_N (N_to_le n v) = v.
Proof. intros Hv. rewrite le_to_N_to_le. by apply N.mod_small. Qed.

Lemma readUint_eq (len : nat) (b : bytes) :
  len <= length b ->
  readUint len b = Ok (VNum (Z.of_N (le_to_N (take len b))), drop len b).
Proof. intros Hl. unfold readUint, readBuffer. by rewrite decide_True. Qed.

Lemma readUint_short (len : nat) (b : bytes) :
  length b < len -> exists e, readUint len b = Err e.
Proof.
  intros Hl. unfold readUint, readBuffer. rewrite decide_False by lia. by eexists.
Qed.

Lemma length_byte_numbers (b : bytes) : length (byte_numbers b) = length b.
Proof. apply length_map. Qed.

Lemma read_times_readU8 (n : nat) (b : bytes) :
  n <= length b ->
  read_times n readU8 b = Ok (byte_numbers (take n b), drop n b).
Proof.
  revert b. induction n as [|n IH]; intros b Hl; [done|].
  destruct b as [|x b]; simpl in Hl; [lia|].
  cbn [read_times readU8]. rewrite IH by lia. done.
Qed.

Lemma read_times_readU8_short (n : nat) (b : bytes) :
  length b < n -> exists e, read_times n readU8 b = Err e.
Proof.
  revert b. induction n as [|n IH]; intros b Hl; [lia|].
  destruct b as [|x b]; simpl in Hl; cbn [read_times readU8]; [by eexists|].
  destruct (IH b ltac:(lia)) as [e ->]. by eexists.
Qed.

(** The decoder on any buffer: the four fields at their offsets when the
    buffer has exactly 72 bytes, an error otherwise. *)
Lemma deserialize_Account (b : bytes) :
  (length b = 72 ->
   deserialize Account_fields b
   = Ok (VObj (Account (le_to_N (take 16 b)) (le_to_N (take 16 (drop 16 b)))
                 (take 32 (drop 32 b)) (le_to_N (take 8 (drop 64 b))))))
  /\ (length b <> 72 -> exists e, deserialize Account_fields b = Err e).
Proof.
  unfold deserialize, Account_fields.
  cbn [deserializeStruct deserializeField].
  destruct (decide (16 <= length b)) as [H1|H1];
    [|destruct (readUint_short 16 b ltac:(lia)) as [e ->]; split; [lia | by eexists]].
  rewrite (readUint_eq 16 b H1).
  destruct (decide (16 <= length (drop 16 b))) as [H2|H2];
    [|destruct (readUint_short 16 (drop 16 b) ltac:(lia)) as [e ->];
      rewrite length_drop in H2; split; [lia | by eexists]].
  rewrite (readUint_eq 16 _ H2), drop_drop.
  rewrite length_drop in H2.
  destruct (decide (32 <= length (drop 32 b))) as [H3|H3];
    [|destruct (read_times_readU8_short 32 (drop (16 + 16) b)
                  ltac:(simpl; rewrite length_drop in *; lia)) as [e ->];
      rewrite length_drop in H3; split; [lia | by eexists]].
  rewrite (read_times_readU8 32 (drop (16 + 16) b) H3), drop_drop.
  rewrite length_drop in H3.
  destruct (decide (8 <= length (drop 64 b))) as [H4|H4];
    [|destruct (readUint_short 8 (drop (16 + 16 + 32) b)
                  ltac:(simpl; rewrite length_drop in *; lia)) as [e ->];
      rewrite length_drop in H4; split; [lia | by eexists]].
  rewrite (readUint_eq 8 (drop (16 + 16 + 32) b) H4), drop_drop.
  rewrite length_drop in H4. simpl Nat.add.
  destruct (drop 72 b) as [|x rest] eqn:E.
  - split; [done|]. intros Hne. exfalso. apply Hne.
    assert (length (drop 72 b) = 0) as Hd by (by rewrite E).
    rewrite length_drop in Hd. lia.
  - split; [|by eexists]. intros Hl.
    assert (length (drop 72 b) = S (length rest)) as Hd by (by rewrite E).
    rewrite length_drop in Hd. lia.
Qed.

Lemma writeUint_eq (len : nat) (v : N) :
  (v < 256 ^ N.of_nat len)%N -> writeUint len (VNum (Z.of_N v)) = Ok (N_to_le len v).
Proof.
  intros Hv. unfold writeUint. rewrite decide_True, N2Z.id; [done|].
  split; [lia|].
  change 256%Z with (Z.of_N 256). rewrite <- nat_N_Z, <- N2Z.inj_pow. lia.
Qed.

Lemma serialize_bytes (h : bytes) :
  foldr (fun x acc =>
           match serializeField U8 x, acc with
           | Ok b, Ok r => Ok (b ++ r)
           | Err e, _ | _, Err e => Err e
           end) (Ok []) (byte_numbers h) = Ok h.
Proof.
  induction h as [|x h IH]; [done|].
  cbn [byte_numbers map foldr]. fold (byte_numbers h). rewrite IH.
  cbn [serializeField]. rewrite writeUint_eq.
  - cbn [N_to_le]. by rewrite byte_of_N_to_N.
  - pose proof (Byte.to_N_bounded x). simpl. lia.
Qed.

Lemma serialize_Account (amount locked : N) (code_hash : bytes) (storage_usage : N) :
  (amount < 2 ^ 128)%N -> (locked < 2 ^ 128)%N -> length code_hash = 32 ->
  (storage_usage < 2 ^ 64)%N ->
  serializeStruct Account_fields (Account amount locked code_hash storage_usage)
  = Ok (account_record amount locked code_hash storage_usage).
Proof.
  intros Ha Hl Hh Hs. unfold Account_fields. cbn [serializeStruct].
  change (get_field (js "amount") (Account amount locked code_hash storage_usage))
    with (VNum (Z.of_N amount)).
  change (get_field (js "locked") (Account amount locked code_hash storage_usage))
    with (VNum (Z.of_N locked)).
  change (get_field (js "code_hash") (Account amount locked code_hash storage_usage))
    with (VArr (byte_numbers code_hash)).
  change (get_field (js "storage_usage") (Account amount locked code_hash storage_usage))
    with (VNum (Z.of_N storage_usage)).
  cbn [serializeField].
  rewrite !writeUint_eq by (simpl; lia).
  rewrite decide_True by (by rewrite length_byte_numbers).
  rewrite serialize_bytes. unfold account_record. by rewrite app_nil_r.
Qed.

Lemma length_account_record (amount locked : N) (code_hash : bytes) (storage_usage : N) :
  length code_hash = 32 ->
  length (account_record amount locked code_hash storage_usage) = 72.
Proof.
  intros Hh. unfold account_record. rewrite !length_app, !length_N_to_le, Hh. done.
Qed.

Lemma deserialize_account_record (amount locked : N) (code_hash : bytes)
    (storage_usage : N) :
  (amount < 2 ^ 128)%N -> (locked < 2 ^ 128)%N -> length code_hash = 32 ->
  (storage_usage < 2 ^ 64)%N ->
  deserialize Account_fields (account_record amount locked code_hash storage_usage)
  = Ok (VObj (Account amount locked code_hash storage_usage)).
Proof.
  intros Ha Hl Hh Hs.
  destruct (deserialize_Account (account_record amount locked code_hash storage_usage))
    as [Hd _].
  rewrite Hd by (by apply length_account_record). clear Hd.
  unfold account_record.
  pose proof (length_N_to_le 16 amount) as L1.
  pose proof (length_N_to_le 16 locked) as L2.
  pose proof (length_N_to_le 8 storage_usage) as L3.
  rewrite (take_app_length' (N_to_le 16 amount)) by done.
  rewrite (drop_app_length' (N_to_le 16 amount)) by done.
  rewrite (take_app_length' (N_to_le 16 locked)) by done.
  replace (drop 32 (N_to_le 16 amount ++ N_to_le 16 locked ++ code_hash
                    ++ N_to_le 8 storage_usage))
    with (code_hash ++ N_to_le 8 storage_usage).
  2:{ rewrite !app_assoc, <- (app_assoc _ code_hash).
      rewrite drop_app_length'; [done|]. rewrite length_app. lia. }
  replace (drop 64 (N_to_le 16 amount ++ N_to_le 16 locked ++ code_hash
                    ++ N_to_le 8 storage_usage))
    with (N_to_le 8 storage_usage).
  2:{ rewrite !app_assoc. rewrite drop_app_length'; [done|].
      rewrite !length_app. lia. }
  rewrite (take_app_length' code_hash) by done.
  rewrite (take_ge (N_to_le 8 storage_usage)) by lia.
  rewrite !le_to_N_to_le_small by (simpl; lia). done.
Qed.

(** C7. The account record codec. A 72-byte buffer decodes to [amount]
    (bytes 0-15, little-endian), [locked] (bytes 16-31, little-endian),
    [code_hash] (bytes 32-63) and [storage_usage] (bytes 64-71,
    little-endian); a buffer of another length is refused. Encoding a
    record whose fields are in range gives 72 bytes that decode to the
    same record, in particular for every combination of the boundary
    values. *)
Theorem account_record_codec :
  (forall b : bytes,
     length b = 72 ->
     deserialize Account_fields b
     = Ok (VObj (Account (le_to_N (take 16 b)) (le_to_N (take 16 (drop 16 b)))
                   (take 32 (drop 32 b)) (le_to_N (take 8 (drop 64 b))))))
  /\ (forall b : bytes, length b <> 72 -> exists e, deserialize Account_fields b = Err e)
  /\ (forall (amount locked : N) (code_hash : bytes) (storage_usage : N),
        (amount < 2 ^ 128)%N -> (locked < 2 ^ 128)%N -> length code_hash = 32 ->
        (storage_usage < 2 ^ 64)%N ->
        exists b,
          serializeStruct Account_fields (Account amount locked code_hash storage_usage)
          = Ok b
          /\ length b = 72
          /\ deserialize Account_fields b
             = Ok (VObj (Account amount locked code_hash storage_usage)))
  /\ (forall (amount locked storage_usage : N) (code_hash : bytes),
        amount ∈ u128_boundary -> locked ∈ u128_boundary ->
        storage_usage ∈ u64_boundary -> length code_hash = 32 ->
        exists b,
          serializeStruct Account_fields (Account amount locked code_hash storage_usage)
          = Ok b
          /\ deserialize Account_fields b
             = Ok (VObj (Account amount locked code_hash storage_usage))).
Proof.
  assert (Hrt : forall (amount locked : N) (code_hash : bytes) (storage_usage : N),
            (amount < 2 ^ 128)%N -> (locked < 2 ^ 128)%N -> length code_hash = 32 ->
            (storage_usage < 2 ^ 64)%N ->
            exists b,
              serializeStruct Account_fields
                (Account amount locked code_hash storage_usage) = Ok b
              /\ length b = 72
              /\ deserialize Account_fields b
                 = Ok (VObj (Account amount locked code_hash storage_usage))).
  { intros a l h su Ha Hl Hh Hs. exists (account_record a l h su).
    split; [by apply serialize_Account|].
    split; [by apply length_account_record | by apply deserialize_account_record]. }
  split; [intros b; apply deserialize_Account|].
  split; [intros b; apply deserialize_Account|].
  split; [exact Hrt|].
  intros a l su h Ha Hl Hs Hh.
  assert (a < 2 ^ 128)%N as Ha'.
  { unfold u128_boundary in Ha. rewrite !elem_of_cons, elem_of_nil in Ha.
    destruct Ha as [->|[->|[->|[]]]]; lia. }
  assert (l < 2 ^ 128)%N as Hl'.
  { unfold u128_boundary in Hl. rewrite !elem_of_cons, elem_of_nil in Hl.
    destruct Hl as [->|[->|[->|[]]]]; lia. }
  assert (su < 2 ^ 64)%N as Hs'.
  { unfold u64_boundary in Hs. rewrite !elem_of_cons, elem_of_nil in Hs.
    destruct Hs as [->|[->|[->|[->|[]]]]]; lia. }
  destruct (Hrt a l h su Ha' Hl' Hh Hs') as (b & H1 & _ & H3). by exists b.
Qed.

(** The record with the greatest balance and storage usage. *)
Lemma account_record_codec_witness :
  exists b,
    serializeStruct Account_fields
      (Account (2 ^ 128 - 1) (2 ^ 127) (repeat xff 32) (2 ^ 64 - 1)) = Ok b
    /\ deserialize Account_fields b
       = Ok (VObj (Account (2 ^ 128 - 1) (2 ^ 127) (repeat xff 32) (2 ^ 64 - 1))).
Proof.
  apply (proj2 (proj2 (proj2 account_record_codec))); unfold u128_boundary, u64_boundary;
    rewrite ?elem_of_cons; auto 10.
Defined.

(* ================================================================== *)
(** * 12. Errors on the way out *)
(* ================================================================== *)

(** C8 as the spec words it fails: a compilation failure of the engine
    reaches the client as HTTP 400 with the exception's own text. *)
Lemma exception_text_in_answer : ~ no_exception_text_in_answers.
Proof.
  intros Hno.
  apply (Hno (VObj [(js "id", VNum 1)]) (VStr (js "alice"))
           {| ename := js "CompileError";
              emessage := js "WebAssembly.compile(): expected magic word 00 61 73 6d";
              ecode := None |}
           _ eq_refl 400%Z).
  reflexivity.
Qed.

(** C8, as the code has it. [handleError] answers by cases. An error whose
    text matches [TypeError ... is not a function] becomes the structured
    MethodNotFound answer. Otherwise the tag decides: [notImplemented] is
    passed to the upstream node; [panic] and [abort] become the structured
    GuestPanic answer, which carries the error's message as a JSON string;
    [codeNotFound] and [accountNotFound] become structured answers built
    from the account identifier alone. Every other error, among them the
    tags [codeCompilation], [methodNotFound], [timeout] and [transient]
    and any error without a tag, is answered with HTTP 400 and the text of
    [error.toString()]. The front end's [runViewMethod] catches what
    [runContract] or the [Buffer.from] of its result throws: it answers 404
    with [method <name> not found] when the message matches
    [TypeError ... is not a function], 400 with the message when the
    message starts with [abort:], and throws every other error on
    unchanged. *)
Theorem handleError_answers :
  forall (body id accountId : value) (error : Error),
    member body "id" = Ok id ->
    (test_TypeError_not_a_function (error_toString error) = true ->
     handleError body accountId error
     = Ok (RespBody (viewCallError id MethodNotFound_message)))
    /\ (test_TypeError_not_a_function (error_toString error) = false ->
        (ecode error = Some (js "notImplemented") ->
         handleError body accountId error = Ok RespProxy)
        /\ (ecode error = Some (js "panic") \/ ecode error = Some (js "abort") ->
            handleError body accountId error
            = Ok (RespBody (viewCallError id (GuestPanic_message (emessage error)))))
        /\ (ecode error = Some (js "codeNotFound") ->
            handleError body accountId error
            = Ok (RespBody (viewCallError id (CodeDoesNotExist_message accountId))))
        /\ (ecode error = Some (js "accountNotFound") ->
            handleError body accountId error
            = Ok (RespBody (legacyError id (account_does_not_exist_message accountId))))
        /\ ((forall code, ecode error = Some code -> code ∉ handled_codes) ->
            handleError body accountId error
            = Ok (RespThrow 400 (error_toString error))))
    /\ (forall methodName : value,
          (test_TypeError_not_a_function (emessage error) = true ->
           runViewMethod_catch methodName error
           = Ok (RespThrow 404 (js "method " ++ template methodName ++ js " not found")))
          /\ (test_TypeError_not_a_function (emessage error) = false ->
              test_abort_prefix (emessage error) = true ->
              runViewMethod_catch methodName error = Ok (RespThrow 400 (emessage error)))
          /\ (test_TypeError_not_a_function (emessage error) = false ->
              test_abort_prefix (emessage error) = false ->
              runViewMethod_catch methodName error = Err error))
    /\ (forall (rt : Runtime) (jp : JSONParse) (srv : Server)
               (contractId methodName methodArgs : value) (g : Globals),
          ((run srv (runContract contractId methodName methodArgs) g []).1.1 = Err error
           \/ exists v, (run srv (runContract contractId methodName methodArgs) g []).1.1
                        = Ok v
                        /\ Buffer_from_value v = Err error) ->
          (runViewMethod srv contractId methodName methodArgs g).1.1
          = runViewMethod_catch methodName error).
Proof.
  intros body id accountId error Hid. unfold handleError. rewrite Hid.
  split; [by intros ->|]. split.
  - intros ->. split; [by intros ->|].
    split.
    { intros [-> | ->]; by repeat (case_decide; try done). }
    split; [intros ->; by repeat (case_decide; try done)|].
    split; [intros ->; by repeat (case_decide; try done)|].
    intros Hother.
    assert (forall c, c ∈ handled_codes -> ecode error <> Some c) as Hn.
    { intros c Hc Heq. by apply (Hother c Heq). }
    unfold handled_codes in Hn.
    repeat case_decide; try done;
      exfalso;
      repeat match goal with
             | Hx : _ \/ _ |- _ => destruct Hx
             end;
      match goal with
      | Hx : ecode error = Some ?c |- _ =>
          apply (Hn c); [rewrite !elem_of_cons; auto 10 | exact Hx]
      end.
  - split.
    + intros methodName. unfold runViewMethod_catch.
      split; [by intros ->|]. split; by intros -> ->.
    + intros rt jp srv contractId methodName methodArgs g Hrun. unfold runViewMethod.
      destruct (run srv (runContract contractId methodName methodArgs) g [])
        as [[r g'] tr].
      cbn [fst] in *. destruct Hrun as [-> | (v & -> & Hv)]; [done|]. by rewrite Hv.
Qed.

(** A deadline error, tagged [timeout]: the tag is not in the answer. *)
Lemma handleError_answers_witness :
  handleError (VObj [(js "id", VNum 1)]) (VStr (js "alice"))
    (FastNEARError "timeout" (js "deadline exceeded"))
  = Ok (RespThrow 400 (js "Error: deadline exceeded")).
Proof.
  pose proof (handleError_answers (VObj [(js "id", VNum 1)]) (VNum 1) (VStr (js "alice"))
                (FastNEARError "timeout" (js "deadline exceeded")) eq_refl)
    as (_ & H2 & _ & _).
  destruct (H2 eq_refl) as (_ & _ & _ & _ & H6). apply H6.
  intros code [= <-]. unfold handled_codes. rewrite !elem_of_cons, elem_of_nil.
  intros [H|[H|[H|[H|[H|[]]]]]]; discriminate H.
Defined.

(** C9. [isJSON] parses only when the trimmed text of the first 1001 bytes
    starts with an opening bracket. A buffer whose text starts otherwise is
    reported as JSON, parseable or not; the answer is [false] exactly when
    the text starts with the bracket and [JSON.parse] of the whole buffer
    throws. With a parser that rejects everything, a text that is not JSON
    passes and an unclosed array does not. *)
Theorem isJSON_parses_only_after_bracket :
  forall (jp : JSONParse) (buffer : bytes),
    let startSlice := trim (toString_utf8 (take (MAX_WHITESPACE + 1) buffer)) in
    MAX_WHITESPACE + 1 = 1001
    /\ (startsWith startSlice (js "[") = false -> isJSON buffer = true)
    /\ (startsWith startSlice (js "[") = true ->
        isJSON buffer = match JSON_parse (toString_utf8 buffer) with
                        | Ok _ => true
                        | Err _ => false
                        end)
    /\ (isJSON buffer = false <->
        startsWith startSlice (js "[") = true
        /\ exists e, JSON_parse (toString_utf8 buffer) = Err e)
    /\ @isJSON parse_nothing (buf "{this is not JSON") = true
    /\ @isJSON parse_nothing (buf "  [1, 2") = false.
Proof.
  intros jp buffer startSlice. unfold isJSON. fold startSlice.
  rewrite orb_diag.
  split; [done|]. split; [by intros ->|]. split; [by intros ->|].
  split; [|by vm_compute].
  destruct (startsWith startSlice (js "[")).
  - destruct (JSON_parse (toString_utf8 buffer)) as [v|e].
    + split; [done|]. by intros [_ [e' ?]].
    + split; [|done]. intros _. split; [done|]. by exists e.
  - split; [done|]. by intros [? _].
Qed.

(* ================================================================== *)
(** * 13. The front end *)
(* ================================================================== *)

Section FrontEndFacts.
Context `{Runtime}.

(** ** What the awaited Redis operations answer against a database *)

Lemma perform_get_latest_block_height (db : DB) (h : Z) :
  db_strings db !! buf "latest_block_height" = Some (Buffer_from (decimal h)) ->
  db_zsets db !! buf "latest_block_height" = None ->
  perform (redis_exec db) (RedisGet (VStr (js "latest_block_height")))
  = Ok (VStr (decimal h)).
Proof.
  intros Hs Hz. cbn [perform]. unfold redis_call.
  change (wire_args [VStr (js "GET"); VStr (js "latest_block_height")])
    with (Ok (A := list bytes) [buf "GET"; buf "latest_block_height"]).
  cbv beta iota.
  rewrite (redis_exec_GET db _ Hz), Hs. cbn [reply_value].
  by rewrite toString_decimal.
Qed.

Lemma perform_code_revision (db : DB) (C : jsstring) (h : Z) :
  perform (redis_exec db)
    (RedisSendCommand
       [VStr (js "ZREVRANGEBYSCORE"); VStr (js "code:" ++ C); VStr (decimal h);
        VStr (js "-inf"); VStr (js "LIMIT"); VStr (js "0"); VStr (js "1")])
  = Ok (VArr (map VBuf (option_list
               (latest_revision
                  (default [] (db_zsets db !! (buf "code:" ++ Buffer_from C))) h)))).
Proof.
  cbn [perform]. unfold redis_call. cbn [wire_args wire_arg].
  change (Buffer_from (js "ZREVRANGEBYSCORE")) with (buf "ZREVRANGEBYSCORE").
  change (Buffer_from (js "-inf")) with (buf "-inf").
  change (Buffer_from (js "LIMIT")) with (buf "LIMIT").
  change (Buffer_from (js "0")) with (buf "0").
  change (Buffer_from (js "1")) with (buf "1").
  rewrite (Buffer_from_ascii_app (js "code:") C eq_refl).
  change (map byte_of_N (js "code:")) with (buf "code:").
  rewrite (redis_exec_ZREVRANGEBYSCORE db _ _ h (parse_bound_decimal h)).
  cbn [reply_value]. f_equal. f_equal. rewrite map_map. by apply map_ext.
Qed.

Lemma no_revision_None (zs : list (bytes * Z)) (h : Z) :
  (forall m sc, (m, sc) ∈ zs -> (h < sc)%Z) -> latest_revision zs h = None.
Proof.
  intros Hno. destruct (latest_revision zs h) as [m|] eqn:E; [|done].
  destruct (latest_revision_Some zs h m E) as (sc & Hin & Hle & _).
  specialize (Hno m sc Hin). lia.
Qed.

(** A call for a contract with no code revision at the latest height: the
    revision is [undefined], and reading its [toString] throws. *)
Lemma runContract_without_revision (db : DB) (C : jsstring) (h : Z)
    (methodName methodArgs : value) (margs : bytes) (g : Globals) :
  methodArgs_buffer methodArgs = Ok margs ->
  g_redisClient g = true \/ redis_connect = Ok tt ->
  db_strings db !! buf "latest_block_height" = Some (Buffer_from (decimal h)) ->
  db_zsets db !! buf "latest_block_height" = None ->
  latest_revision (default [] (db_zsets db !! (buf "code:" ++ Buffer_from C))) h = None ->
  (run (redis_exec db) (runContract (VStr C) methodName methodArgs) g []).1.1
  = Err (TypeError "Cannot read properties of undefined (reading 'toString')").
Proof.
  intros Hargs Hconn Hh Hz Hnone. unfold runContract. rewrite Hargs.
  cbn [try_sync run write_global template].
  assert (Hc : forall k : unit -> Prog value,
            (run (redis_exec db)
               ((if g_redisClient g then fun k => k tt else Await Connect) k)
               {| g_redisClient := true; g_workerPool := g_workerPool g;
                  contractCache := contractCache g |} []).1.1
            = (run (redis_exec db) (k tt)
                 {| g_redisClient := true; g_workerPool := g_workerPool g;
                    contractCache := contractCache g |}
                 (if g_redisClient g then [] else [event Connect])).1.1).
  { intros k. destruct (g_redisClient g) eqn:E; [done|].
    destruct Hconn as [?|Hconn]; [done|]. cbn [run perform]. by rewrite Hconn. }
  rewrite Hc. cbn [run write_global].
  rewrite (perform_get_latest_block_height db h Hh Hz).
  cbn [run]. rewrite (perform_code_revision db C h), Hnone.
  by cbn [run option_list map first_of nth try_sync toString_hex_of].
Qed.

End FrontEndFacts.

Section FrontEndClaims.
Context `{Runtime} `{JSONParse}.

(** C1, as the code has it. When no code revision of the contract has a
    score up to the latest height, [runContract] does not fail with
    [codeNotFound]: the revision it destructures is [undefined], reading
    its [toString] throws a [TypeError] without a code, and [runViewMethod]
    throws that error on. *)
Theorem runContract_missing_code_TypeError :
  forall (db : DB) (C : jsstring) (h : Z) (methodName methodArgs : value)
         (margs : bytes) (g : Globals),
    methodArgs_buffer methodArgs = Ok margs ->
    g_redisClient g = true \/ redis_connect = Ok tt ->
    db_strings db !! buf "latest_block_height" = Some (Buffer_from (decimal h)) ->
    db_zsets db !! buf "latest_block_height" = None ->
    (forall m sc,
        (m, sc) ∈ default [] (db_zsets db !! (buf "code:" ++ Buffer_from C)) ->
        (h < sc)%Z) ->
    let e := TypeError "Cannot read properties of undefined (reading 'toString')" in
    (run (redis_exec db) (runContract (VStr C) methodName methodArgs) g []).1.1 = Err e
    /\ ecode e <> Some (js "codeNotFound")
    /\ (runViewMethod (redis_exec db) (VStr C) methodName methodArgs g).1.1 = Err e.
Proof.
  intros db C h methodName methodArgs margs g Hargs Hconn Hh Hz Hno e.
  pose proof (runContract_without_revision db C h methodName methodArgs margs g
                Hargs Hconn Hh Hz (no_revision_None _ h Hno)) as Hrun.
  split; [exact Hrun|]. split; [done|].
  unfold runViewMethod.
  destruct (run (redis_exec db) (runContract (VStr C) methodName methodArgs) g [])
    as [[r g'] tr].
  simpl in Hrun. subst r. reflexivity.
Qed.

End FrontEndClaims.

(** The contract [bob], which has no code, at height 100. *)
Lemma runContract_missing_code_TypeError_witness :
  (@run echo_runtime _ (redis_exec db_alice)
     (runContract (VStr (js "bob")) (VStr (js "get")) (VObj [])) cold []).1.1
  = Err (TypeError "Cannot read properties of undefined (reading 'toString')").
Proof.
  refine (proj1 (@runContract_missing_code_TypeError echo_runtime parse_nothing
                   db_alice (js "bob") 100 (VStr (js "get")) (VObj []) (buf "{}") cold
                   eq_refl (or_intror eq_refl) eq_refl eq_refl _)).
  intros m sc Hin. vm_compute in Hin. by apply elem_of_nil in Hin.
Defined.

(** ** Compilations of calls in flight *)

Lemma sum_list_insert (l : list nat) (i x y : nat) :
  l !! i = Some x -> sum_list (<[i := y]> l) + x = sum_list l + y.
Proof.
  revert i. induction l as [|z l IH]; intros i; [done|].
  destruct i as [|i]; simpl.
  - intros [= ->]. lia.
  - intros Hl. specialize (IH i Hl). lia.
Qed.

Section Compilations.
Context `{Runtime}.

Lemma compilations_cons (ev : Event) (tr : list Event) :
  compilations (ev :: tr) = (if is_Compile ev then 1 else 0) + compilations tr.
Proof.
  unfold compilations. rewrite filter_cons.
  destruct (is_Compile ev); by case_decide.
Qed.

Lemma compiles_at_most_mono {A} (n m : nat) (p : Prog A) :
  compiles_at_most n p -> n <= m -> compiles_at_most m p.
Proof.
  intros Hp. revert m. induction Hp as [| | n X f k _ IH | n X io k Hio _ IH | n b k _ IH];
    intros m Hle.
  - constructor.
  - constructor.
  - constructor. intros x. by apply IH.
  - constructor; [done|]. intros x. by apply IH.
  - destruct m as [|m]; [lia|]. apply cam_Compile. intros x. apply IH. lia.
Qed.

Lemma try_sync_compiles_at_most {A X} (n : nat) (o : outcome X) (k : X -> Prog A) :
  (forall x, compiles_at_most n (k x)) -> compiles_at_most n (try_sync o k).
Proof. intros Hk. destruct o; simpl; [apply Hk | constructor]. Qed.

(** A call of [runContract] starts at most one compilation. *)
Lemma runContract_compiles_at_most_1 (contractId methodName methodArgs : value) :
  compiles_at_most 1 (runContract contractId methodName methodArgs).
Proof.
  unfold runContract.
  apply try_sync_compiles_at_most; intros margs.
  constructor; intros created.
  assert (Hrest : forall k : unit -> Prog value,
            (forall x, compiles_at_most 1 (k x)) ->
            compiles_at_most 1
              ((if created then fun k => k tt else Await Connect) k)).
  { intros k Hk. destruct created; [apply Hk | by constructor]. }
  apply Hrest; intros _.
  constructor; intros _.
  constructor; [done|]; intros latestBlockHeight.
  constructor; [done|]; intros reply.
  apply try_sync_compiles_at_most; intros contractBlockHash.
  apply try_sync_compiles_at_most; intros hex.
  constructor; intros [wasmModule|].
  - constructor; [done|]. intros x. constructor.
  - apply try_sync_compiles_at_most; intros key.
    constructor; [done|]; intros wasmData.
    apply try_sync_compiles_at_most; intros wasmBytes.
    apply cam_Compile; intros wasmModule.
    constructor; intros _.
    constructor; [done|]. intros x. constructor.
Qed.

(** One turn of a call uses up what it starts. *)
Lemma advance_compiles_at_most {A} (srv : Server) (n : nat) (p p' : Prog A)
    (g g' : Globals) (tr tr' : list Event) :
  compiles_at_most n p ->
  advance srv p g tr = (p', g', tr') ->
  exists c, compilations tr' = c + compilations tr
            /\ c <= n /\ compiles_at_most (n - c) p'.
Proof.
  intros Hp. revert g tr.
  induction Hp as [n a | n e | n X f k Hk IH | n X io k Hio Hk IH | n b k Hk IH];
    intros g tr; cbn [advance].
  - intros [= <- <- <-]. exists 0. rewrite Nat.sub_0_r. repeat split; [lia | constructor].
  - intros [= <- <- <-]. exists 0. rewrite Nat.sub_0_r. repeat split; [lia | constructor].
  - destruct (f g) as [[x|e] g1].
    + apply IH.
    + intros [= <- <- <-]. exists 0. rewrite Nat.sub_0_r. repeat split; [lia | constructor].
  - intros [= <- <- <-]. exists 0. rewrite Nat.sub_0_r, compilations_cons, Hio.
    repeat split; [lia|]. by apply try_sync_compiles_at_most.
  - intros [= <- <- <-]. exists 1. rewrite compilations_cons. simpl.
    rewrite Nat.sub_0_r. repeat split; [lia|]. by apply try_sync_compiles_at_most.
Qed.

Lemma resume_compiles_at_most (srv : Server) (n : nat) (l : Loop) (i : nat) :
  loop_compiles_at_most n l -> loop_compiles_at_most n (resume srv l i).
Proof.
  intros (budgets & Hall & Hsum). unfold resume.
  destruct (calls l !! i) as [p|] eqn:Hp; [|by exists budgets].
  destruct (Forall2_lookup_r _ _ _ _ _ Hall Hp) as (b & Hb & Hcam).
  destruct (advance srv p (globals l) (events l)) as [[p' g'] tr'] eqn:E.
  destruct (advance_compiles_at_most srv b p p' _ _ _ _ Hcam E) as (c & Hc & Hle & Hcam').
  exists (<[i := b - c]> budgets). cbn [calls events]. split.
  - by apply Forall2_insert.
  - pose proof (sum_list_insert budgets i b (b - c) Hb). lia.
Qed.

Lemma schedule_compiles_at_most (srv : Server) (n : nat) (l : Loop) (order : list nat) :
  loop_compiles_at_most n l -> loop_compiles_at_most n (schedule srv l order).
Proof.
  unfold schedule. revert l. induction order as [|i order IH]; intros l Hl; [done|].
  simpl. apply IH. by apply resume_compiles_at_most.
Qed.

Lemma calls_compile_at_most_length (ps : list (Prog value)) (g : Globals) :
  Forall (compiles_at_most 1) ps ->
  loop_compiles_at_most (length ps) {| calls := ps; globals := g; events := [] |}.
Proof.
  intros Hps. exists (replicate (length ps) 1). cbn [calls events]. split.
  - induction Hps as [|p ps Hp _ IH]; simpl; by constructor.
  - rewrite sum_list_replicate. unfold compilations. simpl. lia.
Qed.

End Compilations.

Section ModuleCache.
Context `{Runtime}.

Lemma perform_get_code (db : DB) (key wasm : bytes) :
  db_strings db !! key = Some wasm ->
  db_zsets db !! key = None ->
  perform (redis_exec db) (RedisGetBuffer (VBuf key)) = Ok (VBuf wasm).
Proof.
  intros Hs Hz. cbn [perform]. unfold redis_call. cbn [wire_args wire_arg].
  change (Buffer_from (js "GET")) with (buf "GET").
  by rewrite (redis_exec_GET db _ Hz), Hs.
Qed.

(** A call that finds the module of the revision in the cache awaits the
    two lookups and the worker, and nothing else. *)
Lemma runContract_cache_hit (db : DB) (C : jsstring) (h : Z) (R : bytes)
    (methodName methodArgs : value) (margs : bytes) (g : Globals) (m : WasmModule) :
  methodArgs_buffer methodArgs = Ok margs ->
  g_redisClient g = true ->
  db_strings db !! buf "latest_block_height" = Some (Buffer_from (decimal h)) ->
  db_zsets db !! buf "latest_block_height" = None ->
  latest_revision (default [] (db_zsets db !! (buf "code:" ++ Buffer_from C))) h = Some R ->
  contractCache g !! contract_cacheKey (VStr C) (toString_hex R) = Some m ->
  run (redis_exec db) (runContract (VStr C) methodName methodArgs) g []
  = (workerPool_runContract (VStr (decimal h)) m (VStr C) methodName margs,
     {| g_redisClient := true; g_workerPool := true; contractCache := contractCache g |},
     [event (WorkerRun (VStr (decimal h)) m (VStr C) methodName margs);
      event (RedisSendCommand
        [VStr (js "ZREVRANGEBYSCORE"); VStr (js "code:" ++ C); VStr (decimal h);
         VStr (js "-inf"); VStr (js "LIMIT"); VStr (js "0"); VStr (js "1")]);
      event (RedisGet (VStr (js "latest_block_height")))]).
Proof.
  intros Hargs Hconn Hh Hz Hrev Hhit. unfold runContract. rewrite Hargs.
  cbn [try_sync run write_global template]. rewrite Hconn.
  cbn [run write_global g_redisClient g_workerPool].
  rewrite (perform_get_latest_block_height db h Hh Hz).
  cbn [run]. rewrite (perform_code_revision db C h), Hrev.
  cbn [run option_list option_rect map first_of nth try_sync toString_hex_of
         read_global contractCache template].
  rewrite Hhit. cbn [run perform].
  by destruct (workerPool_runContract _ _ _ _ _).
Qed.

(** A call, up to its lookup in the module cache. *)
Lemma run_runContract_connected (srv : Server) (contractId methodName methodArgs : value)
    (margs : bytes) (g : Globals) :
  methodArgs_buffer methodArgs = Ok margs ->
  g_redisClient g = true \/ redis_connect = Ok tt ->
  exists tr0,
    (tr0 = [] \/ tr0 = [event Connect])
    /\ forall rest : Prog value,
         run srv
           (Atomic (fun g => (Ok (g_redisClient g),
                              {| g_redisClient := true; g_workerPool := g_workerPool g;
                                 contractCache := contractCache g |})) (fun created =>
            (if created : bool then fun k => k tt else Await Connect) (fun _ =>
            Atomic (write_global (fun g =>
                      {| g_redisClient := g_redisClient g; g_workerPool := true;
                         contractCache := contractCache g |})) (fun _ => rest)))) g []
         = run srv rest
             {| g_redisClient := true; g_workerPool := true;
                contractCache := contractCache g |} tr0.
Proof.
  intros Hargs Hconn. destruct (g_redisClient g) eqn:E.
  - exists []. split; [by left|]. intros rest. cbn [run]. by rewrite E.
  - destruct Hconn as [?|Hconn]; [done|].
    exists [event Connect]. split; [by right|]. intros rest.
    cbn [run]. rewrite E. cbn [run perform]. by rewrite Hconn.
Qed.

(** A call that does not find the module: it fetches the code of the
    revision, compiles it and stores the module before the worker runs. *)
Lemma runContract_cache_miss (db : DB) (C : jsstring) (h : Z) (R wasm : bytes)
    (methodName methodArgs : value) (margs : bytes) (g : Globals) (m : WasmModule) :
  let key := contract_cacheKey (VStr C) (toString_hex R) in
  let code := buf "code:" ++ Buffer_from C ++ buf ":" ++ R in
  methodArgs_buffer methodArgs = Ok margs ->
  g_redisClient g = true \/ redis_connect = Ok tt ->
  db_strings db !! buf "latest_block_height" = Some (Buffer_from (decimal h)) ->
  db_zsets db !! buf "latest_block_height" = None ->
  latest_revision (default [] (db_zsets db !! (buf "code:" ++ Buffer_from C))) h = Some R ->
  db_strings db !! code = Some wasm ->
  db_zsets db !! code = None ->
  contractCache g !! key = None ->
  WebAssembly_compile wasm = Ok m ->
  exists tr0,
    (tr0 = [] \/ tr0 = [event Connect])
    /\ run (redis_exec db) (runContract (VStr C) methodName methodArgs) g []
       = (workerPool_runContract (VStr (decimal h)) m (VStr C) methodName margs,
          {| g_redisClient := true; g_workerPool := true;
             contractCache := <[key := m]> (contractCache g) |},
          [event (WorkerRun (VStr (decimal h)) m (VStr C) methodName margs);
           event (Compile wasm);
           event (RedisGetBuffer (VBuf code));
           event (RedisSendCommand
                    [VStr (js "ZREVRANGEBYSCORE"); VStr (js "code:" ++ C); VStr (decimal h);
                     VStr (js "-inf"); VStr (js "LIMIT"); VStr (js "0"); VStr (js "1")]);
           event (RedisGet (VStr (js "latest_block_height")))] ++ tr0).
Proof.
  intros key code Hargs Hconn Hh Hz Hrev Hcode Hcz Hmiss Hcomp.
  destruct (run_runContract_connected (redis_exec db) (VStr C) methodName methodArgs
              margs g Hargs Hconn) as (tr0 & Htr0 & Hrun).
  exists tr0. split; [done|].
  unfold runContract. rewrite Hargs. cbn [try_sync]. rewrite Hrun.
  cbn [run]. rewrite (perform_get_latest_block_height db h Hh Hz).
  cbn [run]. cbn [template]. rewrite (perform_code_revision db C h), Hrev.
  cbn [run option_list option_rect map first_of nth try_sync toString_hex_of
         read_global contractCache template].
  fold key. rewrite Hmiss.
  cbn [Buffer_concat try_sync].
  rewrite (Buffer_from_key_prefix "code:" C eq_refl), app_nil_r, <- !app_assoc.
  fold code. cbn [run]. rewrite (perform_get_code db code wasm Hcode Hcz).
  cbn [run wasm_bytes try_sync perform]. rewrite Hcomp.
  cbn [run write_global perform g_redisClient g_workerPool contractCache].
  by destruct (workerPool_runContract _ _ _ _ _).
Qed.

(** ** Calls resumed in turn *)

Lemma schedule_app (srv : Server) (l : Loop) (o1 o2 : list nat) :
  schedule srv l (o1 ++ o2) = schedule srv (schedule srv l o1) o2.
Proof. unfold schedule. apply foldl_app. Qed.

Lemma schedule_cons (srv : Server) (l : Loop) (i : nat) (order : list nat) :
  schedule srv l (i :: order) = schedule srv (resume srv l i) order.
Proof. done. Qed.

Lemma resume_eq (srv : Server) (l : Loop) (i : nat) (p p' : Prog value) (g' : Globals)
    (tr' : list Event) :
  calls l !! i = Some p ->
  advance srv p (globals l) (events l) = (p', g', tr') ->
  resume srv l i = {| calls := <[i := p']> (calls l); globals := g'; events := tr' |}.
Proof. intros Hl Ha. unfold resume. by rewrite Hl, Ha. Qed.

(** One round over calls that are all at the same point, when a turn of
    such a call leaves the module-level variables as they are. *)
Lemma schedule_round_from (srv : Server) (p p' : Prog value) (g : Globals) (ev : Event)
    (n : nat) (before : list (Prog value)) (tr : list Event) :
  (forall tr0, advance srv p g tr0 = (p', g, ev :: tr0)) ->
  schedule srv {| calls := before ++ replicate n p; globals := g; events := tr |}
    (seq (length before) n)
  = {| calls := before ++ replicate n p'; globals := g;
       events := replicate n ev ++ tr |}.
Proof.
  intros Hadv. revert before tr. induction n as [|n IH]; intros before tr; [done|].
  cbn [seq replicate]. rewrite schedule_cons.
  rewrite (resume_eq srv _ (length before) p p' g (ev :: tr));
    [|by apply list_lookup_middle|by cbn [globals events]].
  cbn [calls]. rewrite (insert_app_r_alt before _ (length before)) by done.
  rewrite Nat.sub_diag. cbn [list_insert].
  change (<[0%nat := p']> (p :: replicate n p)) with (p' :: replicate n p).
  specialize (IH (before ++ [p']) (ev :: tr)).
  rewrite length_app in IH. cbn [length] in IH. rewrite Nat.add_1_r in IH.
  rewrite <- !app_assoc in IH. cbn [app] in IH.
  rewrite IH. f_equal.
  change (ev :: tr) with ([ev] ++ tr). rewrite app_assoc. f_equal.
  change [ev] with (replicate 1 ev). rewrite <- replicate_add.
  by rewrite Nat.add_1_r.
Qed.

Lemma schedule_round (srv : Server) (p p' : Prog value) (g : Globals) (ev : Event)
    (n : nat) (tr : list Event) :
  (forall tr0, advance srv p g tr0 = (p', g, ev :: tr0)) ->
  schedule srv {| calls := replicate n p; globals := g; events := tr |} (seq 0 n)
  = {| calls := replicate n p'; globals := g; events := replicate n ev ++ tr |}.
Proof. intros Hadv. exact (schedule_round_from srv p p' g ev n [] tr Hadv). Qed.

Lemma compilations_replicate (n : nat) (ev : Event) (tr : list Event) :
  compilations (replicate n ev ++ tr)
  = (if is_Compile ev then n else 0) + compilations tr.
Proof.
  induction n as [|n IH]; [by destruct (is_Compile ev)|].
  cbn [replicate app]. rewrite compilations_cons, IH. destruct (is_Compile ev); lia.
Qed.

(** [n] calls for one contract whose module is not cached, resumed in turn
    for four rounds: each has looked the time and the revision up, missed
    the module cache, fetched the code and started to compile it, and the
    module-level variables are as they were. *)
Lemma lockstep_four_rounds (db : DB) (C : jsstring) (h : Z) (R wasm : bytes)
    (methodName methodArgs : value) (margs : bytes) (cache : gmap jsstring WasmModule)
    (n : nat) :
  let code : bytes := buf "code:" ++ Buffer_from C ++ buf ":" ++ R in
  methodArgs_buffer methodArgs = Ok margs ->
  db_strings db !! buf "latest_block_height" = Some (Buffer_from (decimal h)) ->
  db_zsets db !! buf "latest_block_height" = None ->
  latest_revision (default [] (db_zsets db !! (buf "code:" ++ Buffer_from C))) h
  = Some R ->
  db_strings db !! code = Some wasm ->
  db_zsets db !! code = None ->
  cache !! contract_cacheKey (VStr C) (toString_hex R) = None ->
  exists p,
    schedule (redis_exec db)
      {| calls := replicate n (runContract (VStr C) methodName methodArgs);
         globals := {| g_redisClient := true; g_workerPool := true;
                       contractCache := cache |};
         events := [] |}
      (round_robin n 4)
    = {| calls := replicate n p;
         globals := {| g_redisClient := true; g_workerPool := true;
                       contractCache := cache |};
         events :=
           replicate n (event (Compile wasm))
           ++ replicate n (event (RedisGetBuffer (VBuf code)))
           ++ replicate n
                (event (RedisSendCommand
                          [VStr (js "ZREVRANGEBYSCORE"); VStr (js "code:" ++ C);
                           VStr (decimal h); VStr (js "-inf"); VStr (js "LIMIT");
                           VStr (js "0"); VStr (js "1")]))
           ++ replicate n (event (RedisGet (VStr (js "latest_block_height"))))
           ++ [] |}.
Proof.
  intros code Hargs Hh Hz Hrev Hcode Hcz Hmiss.
  unfold round_robin. cbn [replicate concat]. rewrite app_nil_r.
  rewrite !schedule_app.
  erewrite (schedule_round (redis_exec db) (runContract (VStr C) methodName methodArgs));
    [|intros tr0; unfold runContract; rewrite Hargs;
      cbn [try_sync advance write_global g_redisClient g_workerPool contractCache];
      reflexivity].
  erewrite schedule_round;
    [|intros tr0; rewrite (perform_get_latest_block_height db h Hh Hz);
      cbn [try_sync advance template]; reflexivity].
  erewrite schedule_round;
    [|intros tr0; rewrite (perform_code_revision db C h), Hrev;
      cbn [try_sync option_list option_rect map first_of nth toString_hex_of advance
             read_global contractCache template];
      rewrite Hmiss; cbn [Buffer_concat try_sync];
      rewrite (Buffer_from_key_prefix "code:" C eq_refl), app_nil_r, <- !app_assoc;
      fold code; cbn [advance]; reflexivity].
  erewrite schedule_round;
    [|intros tr0; rewrite (perform_get_code db code wasm Hcode Hcz);
      cbn [try_sync wasm_bytes advance]; reflexivity].
  by eexists.
Qed.

(** C4, as the code has it. The module cache is consulted and filled by
    each call on its own. For any calls in flight and any order in which
    the event loop resumes them, at most one compilation is started per
    call (not per key). A call that finds the entry starts none. A call
    that runs alone and does not find the entry fetches the code, starts
    exactly one compilation, of that code, and leaves the module in the
    cache under the key of the contract and revision. And [n] calls for one
    contract that is not cached, resumed in turn, have after four rounds
    each missed the cache and started a compilation of the same code, [n]
    in all, while the cache is still as it was: a call stores its module
    only once its own compilation has ended. *)
Theorem compilations_per_call :
  (forall (srv : Server) (jobs : list (value * value * value)) (g : Globals)
          (order : list nat),
      compilations
        (events (schedule srv
                   {| calls := map (fun j => runContract j.1.1 j.1.2 j.2) jobs;
                      globals := g; events := [] |} order))
      <= length jobs)
  /\ (forall (db : DB) (C : jsstring) (h : Z) (R : bytes) (methodName methodArgs : value)
             (margs : bytes) (g : Globals) (m : WasmModule),
        methodArgs_buffer methodArgs = Ok margs ->
        g_redisClient g = true ->
        db_strings db !! buf "latest_block_height" = Some (Buffer_from (decimal h)) ->
        db_zsets db !! buf "latest_block_height" = None ->
        latest_revision (default [] (db_zsets db !! (buf "code:" ++ Buffer_from C))) h
        = Some R ->
        contractCache g !! contract_cacheKey (VStr C) (toString_hex R) = Some m ->
        compilations
          (run (redis_exec db) (runContract (VStr C) methodName methodArgs) g []).2 = 0)
  /\ (forall (db : DB) (C : jsstring) (h : Z) (R wasm : bytes)
             (methodName methodArgs : value) (margs : bytes) (g : Globals)
             (m : WasmModule),
        methodArgs_buffer methodArgs = Ok margs ->
        g_redisClient g = true \/ redis_connect = Ok tt ->
        db_strings db !! buf "latest_block_height" = Some (Buffer_from (decimal h)) ->
        db_zsets db !! buf "latest_block_height" = None ->
        latest_revision (default [] (db_zsets db !! (buf "code:" ++ Buffer_from C))) h
        = Some R ->
        db_strings db !! (buf "code:" ++ Buffer_from C ++ buf ":" ++ R) = Some wasm ->
        db_zsets db !! (buf "code:" ++ Buffer_from C ++ buf ":" ++ R) = None ->
        contractCache g !! contract_cacheKey (VStr C) (toString_hex R) = None ->
        WebAssembly_compile wasm = Ok m ->
        filter (fun ev => is_Compile ev = true)
          (run (redis_exec db) (runContract (VStr C) methodName methodArgs) g []).2
        = [event (Compile wasm)]
        /\ contractCache
             (run (redis_exec db) (runContract (VStr C) methodName methodArgs) g []).1.2
           = <[contract_cacheKey (VStr C) (toString_hex R) := m]> (contractCache g))
  /\ (forall (db : DB) (C : jsstring) (h : Z) (R wasm : bytes)
             (methodName methodArgs : value) (margs : bytes)
             (cache : gmap jsstring WasmModule) (n : nat),
        methodArgs_buffer methodArgs = Ok margs ->
        db_strings db !! buf "latest_block_height" = Some (Buffer_from (decimal h)) ->
        db_zsets db !! buf "latest_block_height" = None ->
        latest_revision (default [] (db_zsets db !! (buf "code:" ++ Buffer_from C))) h
        = Some R ->
        db_strings db !! (buf "code:" ++ Buffer_from C ++ buf ":" ++ R) = Some wasm ->
        db_zsets db !! (buf "code:" ++ Buffer_from C ++ buf ":" ++ R) = None ->
        cache !! contract_cacheKey (VStr C) (toString_hex R) = None ->
        compilations
          (events (schedule (redis_exec db)
                     {| calls := replicate n (runContract (VStr C) methodName methodArgs);
                        globals := {| g_redisClient := true; g_workerPool := true;
                                      contractCache := cache |};
                        events := [] |}
                     (round_robin n 4))) = n
        /\ contractCache
             (globals (schedule (redis_exec db)
                         {| calls := replicate n
                                       (runContract (VStr C) methodName methodArgs);
                            globals := {| g_redisClient := true; g_workerPool := true;
                                          contractCache := cache |};
                            events := [] |}
                         (round_robin n 4))) = cache).
Proof.
  split; [|split; [|split]].
  - intros srv jobs g order.
    pose proof (schedule_compiles_at_most srv (length jobs)
                  {| calls := map (fun j => runContract j.1.1 j.1.2 j.2) jobs;
                     globals := g; events := [] |} order) as Hs.
    destruct Hs as (budgets & _ & Hsum); [|lia].
    rewrite <- (length_map (fun j => runContract j.1.1 j.1.2 j.2) jobs).
    apply calls_compile_at_most_length.
    apply Forall_forall. intros p Hp. apply in_map_iff in Hp.
    destruct Hp as (j & <- & _). apply runContract_compiles_at_most_1.
  - intros db C h R methodName methodArgs margs g m Hargs Hconn Hh Hz Hrev Hhit.
    by rewrite (runContract_cache_hit db C h R methodName methodArgs margs g m).
  - intros db C h R wasm methodName methodArgs margs g m
      Hargs Hconn Hh Hz Hrev Hcode Hcz Hmiss Hcomp.
    destruct (runContract_cache_miss db C h R wasm methodName methodArgs margs g m
                Hargs Hconn Hh Hz Hrev Hcode Hcz Hmiss Hcomp) as (tr0 & Htr0 & ->).
    cbn [fst snd contractCache]. split; [|done].
    by destruct Htr0 as [-> | ->].
  - intros db C h R wasm methodName methodArgs margs cache n
      Hargs Hh Hz Hrev Hcode Hcz Hmiss.
    destruct (lockstep_four_rounds db C h R wasm methodName methodArgs margs cache n
                Hargs Hh Hz Hrev Hcode Hcz Hmiss) as [p ->].
    cbn [events globals contractCache]. split; [|done].
    rewrite !compilations_replicate. cbn [is_Compile event projT2]. unfold compilations.
    simpl. lia.
Qed.

End ModuleCache.

(** C4 as the spec words it fails: two calls for [alice] in flight in a
    process just started, resumed in turn, start two compilations. *)
Lemma two_compilations_for_one_key : ~ @one_compilation_per_key echo_runtime.
Proof.
  intros Hone.
  specialize (Hone (redis_exec db_alice) (VStr (js "alice")) (VStr (js "get")) (VObj [])
                2 (@cold echo_runtime) [0; 1; 0; 1; 0; 1; 0; 1; 0; 1] eq_refl).
  vm_compute in Hone. lia.
Qed.

(** Three calls in flight, for two contracts. *)
Lemma compilations_per_call_witness :
  compilations
    (events (@schedule echo_runtime (redis_exec db_alice)
               {| calls := [runContract (VStr (js "alice")) (VStr (js "get")) (VObj []);
                            runContract (VStr (js "bob")) (VStr (js "get")) (VObj []);
                            runContract (VStr (js "alice")) (VStr (js "get")) (VObj [])];
                  globals := cold; events := [] |}
               [0; 1; 2; 0; 1; 2; 0; 1; 2; 0; 1; 2; 0; 1; 2; 0; 1; 2])) <= 3.
Proof.
  exact (proj1 (@compilations_per_call echo_runtime) (redis_exec db_alice)
           [(VStr (js "alice"), VStr (js "get"), VObj []);
            (VStr (js "bob"), VStr (js "get"), VObj []);
            (VStr (js "alice"), VStr (js "get"), VObj [])]
           cold [0; 1; 2; 0; 1; 2; 0; 1; 2; 0; 1; 2; 0; 1; 2; 0; 1; 2]).
Defined.

(* ================================================================== *)
(** * 14. Scanning storage keys *)
(* ================================================================== *)

(** ** The revision lookup against a database *)

Lemma getLatestDataBlockHash_eq (db : DB) (s : Process) (compKey : bytes)
    (blockHeight : value) (hb : bytes) (h : Z) :
  server s = redis_exec db ->
  wire_arg blockHeight = Ok hb ->
  parse_bound hb = Some (Fin h) ->
  getLatestDataBlockHash redis_client [VBuf compKey; blockHeight] s
  = (Ok (data_revision db compKey h),
     sent [buf "ZREVRANGEBYSCORE"; buf "data:" ++ compKey; hb;
           buf "-inf"; buf "LIMIT"; buf "0"; buf "1"] s).
Proof.
  intros Hs Hw Hp. unfold getLatestDataBlockHash, bind, await, arg.
  cbn [nth Buffer_from_value Buffer_concat]. rewrite app_nil_r.
  rewrite (sendCommand_ZREVRANGEBYSCORE db s _ hb blockHeight h Hs Hw Hp).
  by rewrite first_of_option_list.
Qed.

(** ** Cache keys of distinct lookups *)

Lemma split_at_dollar (x y u v : jsstring) :
  36%N ∉ x -> 36%N ∉ y -> x ++ 36%N :: u = y ++ 36%N :: v -> x = y /\ u = v.
Proof.
  revert y. induction x as [|a x IH]; intros [|b y] Hx Hy; simpl.
  - by intros [= ->].
  - intros [= <- _]. exfalso. apply Hy. by left.
  - intros [= -> _]. exfalso. apply Hx. by left.
  - intros [= -> Heq]. destruct (IH y) as [-> ->]; try done.
    + intros Hin. apply Hx. by right.
    + intros Hin. apply Hy. by right.
Qed.

Section ScanFacts.
Context `{PrettyBuffer}.

Lemma cacheKey_2 (name : jsstring) (a b : value) :
  cacheKey name [a; b]
  = name ++ js "$$" ++ match a with VBuf x => prettyBuffer x | _ => template a end
         ++ js "$$" ++ match b with VBuf x => prettyBuffer x | _ => template b end.
Proof. reflexivity. Qed.

End ScanFacts.

(** ** Entries of the cache *)

Lemma lru_find_Some (key : jsstring) (c : list lru_entry) (e : lru_entry) :
  lru_find key c = Some e -> e ∈ c /\ lru_key e = key.
Proof.
  intros [Hin Hk]%find_some. split; [by apply list_elem_of_In|].
  by apply bool_decide_eq_true in Hk.
Qed.

(** ** The claim about [scanDataKeys] *)

Lemma scan_pattern (C : jsstring) (keyPattern : value) :
  Buffer_from (js "data:" ++ template (VStr C) ++ js ":" ++ template keyPattern)
  = buf "data:" ++ Buffer_from C ++ buf ":" ++ Buffer_from (template keyPattern).
Proof.
  cbn [template]. rewrite (Buffer_from_ascii_app (js "data:") _ eq_refl).
  change (map byte_of_N (js "data:")) with (buf "data:").
  rewrite (Buffer_from_app C (js ":" ++ template keyPattern)) by done.
  by rewrite (Buffer_from_ascii_app (js ":") _ eq_refl).
Qed.

Lemma redis_exec_SCAN (db : DB) (cursor pattern count : bytes) (i n : nat) :
  parse_nat cursor = Some i ->
  parse_nat count = Some (S n) ->
  redis_exec db [buf "SCAN"; cursor; buf "MATCH"; pattern; buf "COUNT"; count]
  = Ok (RMulti [RBulk (Buffer_from (decimal (Z.of_nat (scan_page db i (S n) pattern).1)));
                RMulti (map RBulk (scan_page db i (S n) pattern).2)]).
Proof.
  intros Hi Hn. unfold redis_exec.
  destruct (decide (_ ∧ _)) as [_|Hne]; [|by destruct Hne].
  by rewrite Hi, Hn.
Qed.

(** ** UTF-16 units and UTF-8 bytes *)

Lemma length_utf8_encode (c : N) :
  1 <= length (utf8_encode c) /\ ((c <? 0x80)%N = false -> 2 <= length (utf8_encode c)).
Proof.
  unfold utf8_encode.
  destruct (c <? 0x80)%N; [simpl; split; [lia|done]|].
  destruct (c <? 0x800)%N; [simpl; lia|].
  destruct (c <? 0x10000)%N; simpl; lia.
Qed.

Lemma surrogate_not_ascii (u : N) :
  is_high_surrogate u = true \/ is_low_surrogate u = true -> (u <? 0x80)%N = false.
Proof.
  unfold is_high_surrogate, is_low_surrogate.
  intros [[Hl _]%andb_prop|[Hl _]%andb_prop]; apply N.leb_le in Hl; apply N.ltb_ge; lia.
Qed.

(** A string has at most as many UTF-16 units as UTF-8 bytes, and fewer as
    soon as it is not ASCII. *)
Lemma length_Buffer_from (n : nat) (s : jsstring) :
  length s <= n ->
  length s <= length (Buffer_from s)
  /\ (is_ascii s = false -> length s < length (Buffer_from s)).
Proof.
  revert s. induction n as [|n IH]; intros [|u rest] Hn; simpl in Hn; try lia;
    [split; [done|discriminate] | split; [done|discriminate] |].
  unfold Buffer_from. cbn [codepoints is_ascii forallb].
  destruct (is_high_surrogate u) eqn:Hh.
  { rewrite (surrogate_not_ascii u (or_introl Hh)). cbn [andb].
    destruct rest as [|l rest'].
    - simpl. split; [lia|lia].
    - destruct (is_low_surrogate l) eqn:Hl.
      + cbn [flat_map]. rewrite length_app.
        destruct (IH rest' ltac:(simpl in Hn; lia)) as [Hle _].
        unfold Buffer_from in Hle.
        assert (Hfour : length (utf8_encode
                          (65536 + (u - 55296) * 1024 + (l - 56320))%N) = 4).
        { unfold utf8_encode.
          rewrite !(proj2 (N.ltb_ge _ _)) by lia. done. }
        rewrite Hfour. simpl. lia.
      + cbn [flat_map]. rewrite length_app.
        destruct (IH (l :: rest') ltac:(simpl in Hn |- *; lia)) as [Hle _].
        unfold Buffer_from in Hle. simpl in Hle |- *. lia. }
  destruct (is_low_surrogate u) eqn:Hl.
  { rewrite (surrogate_not_ascii u (or_intror Hl)). cbn [andb flat_map].
    rewrite length_app.
    destruct (IH rest ltac:(lia)) as [Hle _]. unfold Buffer_from in Hle.
    simpl. lia. }
  cbn [flat_map]. rewrite length_app.
  destruct (IH rest ltac:(lia)) as [Hle Hlt]. unfold Buffer_from in Hle, Hlt.
  destruct (length_utf8_encode u) as [H1 H2]. simpl. split; [lia|].
  destruct (u <? 0x80)%N; cbn [andb].
  - intros Hr. specialize (Hlt Hr). lia.
  - intros _. specialize (H2 eq_refl). lia.
Qed.

Lemma drop_contract_prefix (C : jsstring) (storageKey : bytes) :
  is_ascii C = true ->
  drop 5 (buf "data:" ++ Buffer_from C ++ buf ":" ++ storageKey)
  = Buffer_from C ++ buf ":" ++ storageKey
  /\ drop (S (length C)) (Buffer_from C ++ buf ":" ++ storageKey) = storageKey.
Proof.
  intros HC. split; [done|].
  rewrite app_assoc. apply drop_app_length'.
  rewrite length_app, (length_Buffer_from_ascii C HC). simpl. lia.
Qed.

(** What [slice(contractId.length + 1)] leaves of a composite key: the
    storage key when the identifier is ASCII; otherwise the last bytes of
    the identifier and the colon as well. *)
Lemma drop_contract_prefix_utf16 (C : jsstring) (k : bytes) :
  is_ascii C = false ->
  drop (S (length C)) (drop 5 (buf "data:" ++ Buffer_from C ++ buf ":" ++ k))
  = drop (S (length C)) (Buffer_from C) ++ buf ":" ++ k
  /\ drop (S (length C)) (drop 5 (buf "data:" ++ Buffer_from C ++ buf ":" ++ k)) <> k.
Proof.
  intros HC.
  destruct (length_Buffer_from (length C) C (le_n _)) as [_ Hlt]. specialize (Hlt HC).
  assert (Hd : drop (S (length C)) (drop 5 (buf "data:" ++ Buffer_from C ++ buf ":" ++ k))
               = drop (S (length C)) (Buffer_from C) ++ buf ":" ++ k).
  { change (drop 5 (buf "data:" ++ ?x)) with x.
    rewrite drop_app_le by lia. done. }
  split; [done|]. rewrite Hd. intros Heq.
  apply (f_equal length) in Heq. rewrite !length_app in Heq. simpl in Heq. lia.
Qed.

Lemma Promise_all_map_Ok (f : value -> M value) (l vs : list value) (s s' : Process) :
  Promise_all_map f l s = (Ok vs, s') ->
  Forall2 (fun x v => exists s1 s2, f x s1 = (Ok v, s2)) l vs.
Proof.
  revert vs s s'. induction l as [|x l IH]; intros vs s s'; cbn [Promise_all_map].
  - intros [= <- <-]. constructor.
  - destruct (f x s) as [o s1] eqn:E1.
    destruct (Promise_all_map f l s1) as [os s2] eqn:E2.
    destruct o as [v|e]; [|done]. destruct os as [vs'|e]; [|done].
    intros [= <- <-]. constructor; [by exists s, s1 | by apply (IH vs' s1 s2)].
Qed.

Section ScanClaim.
Context `{PrettyBuffer}.

(** The callback of [keys.map]: whatever the two lookups answer, the entry
    is reported under the key without its first 5 bytes and the following
    [contractId.length + 1] bytes. *)
Lemma scanDataKeys_entry_key (C : jsstring) (blockHeight : value) (key : bytes)
    (s1 s2 : Process) (r : value) :
  scanDataKeys_entry (VStr C) blockHeight (VBuf key) s1 = (Ok r, s2) ->
  exists v, r = VArr [VBuf (drop (S (length C)) (drop 5 key)); v].
Proof.
  unfold scanDataKeys_entry, bind, await. cbn [Buffer_from_value length_plus_1].
  change (length (js "data:")) with 5.
  destruct (exports_getLatestDataBlockHash _ _) as [[bh|e] s3]; [|done].
  destruct (falsy bh).
  - unfold ret. intros [= <- <-]. by eexists.
  - destruct (exports_getData _ _) as [[v|e] s4]; [|done].
    unfold ret. intros [= <- <-]. by eexists.
Qed.

(** C5. [scanDataKeys] answers with the cursor of the server and one entry
    for each key of the page the server returned, in their order. The
    entry of a key is reported under the key without its first 5 bytes
    ([data:]) and the following [contractId.length + 1] bytes, where the
    length counts UTF-16 units. For an ASCII identifier that is the storage
    key [k] of [data:C:k]. For any other identifier the UTF-8 bytes of [C]
    are more than its UTF-16 units: the reported key is [k] preceded by the
    colon and by the bytes of [C] that [slice] did not reach, and is not
    the storage key. *)
Theorem scanDataKeys_strips_utf16_length :
  forall (db : DB) (s : Process) (C : jsstring)
         (blockHeight keyPattern iterator limit result : value)
         (cb nb : bytes) (cursor count : nat),
    server s = redis_exec db ->
    wire_arg iterator = Ok cb -> parse_nat cb = Some cursor ->
    wire_arg limit = Ok nb -> parse_nat nb = Some (S count) ->
    lru_find (cacheKey (js "scanDataKeys")
                [VStr C; blockHeight; keyPattern; iterator; limit]) (redisCache s) = None ->
    (exports_scanDataKeys [VStr C; blockHeight; keyPattern; iterator; limit] s).1
    = Ok result ->
    let pattern : bytes := buf "data:" ++ Buffer_from C ++ buf ":"
                           ++ Buffer_from (template keyPattern) in
    let page := scan_page db cursor (S count) pattern in
    (exists data,
       result = VObj [(js "iterator", VStr (decimal (Z.of_nat page.1)));
                      (js "data", VArr data)]
       /\ Forall2
            (fun key entry =>
               exists v, entry = VArr [VBuf (drop (S (length C)) (drop 5 key)); v])
            page.2 data)
    /\ (forall k : bytes,
          let key := buf "data:" ++ Buffer_from C ++ buf ":" ++ k in
          (is_ascii C = true -> drop (S (length C)) (drop 5 key) = k)
          /\ (is_ascii C = false ->
              drop (S (length C)) (drop 5 key)
              = drop (S (length C)) (Buffer_from C) ++ buf ":" ++ k
              /\ drop (S (length C)) (drop 5 key) <> k)).
Proof.
  intros db s C blockHeight keyPattern iterator limit result cb nb cursor count
    Hs Hcb Hcursor Hnb Hcount Hmiss Hcall pattern page.
  split.
  2:{ intros k key. split.
      - intros HC. destruct (drop_contract_prefix C k HC) as [Hd1 Hd2].
        unfold key. by rewrite Hd1.
      - apply drop_contract_prefix_utf16. }
  set (args := [VStr C; blockHeight; keyPattern; iterator; limit]) in *.
  (* the memoised call runs the operation *)
  unfold exports_scanDataKeys in Hcall.
  destruct (scanDataKeys redis_client args
              (awaiting (cacheKey (js "scanDataKeys") args) false (redisCache s) s))
    as [o s1] eqn:Hraw.
  rewrite (withRedis_miss _ _ _ _ s s1 o (redisCache s)
             (lru_get_None _ _ _ Hmiss) Hraw) in Hcall.
  cbn [fst] in Hcall. subst o.
  (* the SCAN command and its reply *)
  unfold scanDataKeys, bind, await, args, arg in Hraw. cbn [nth] in Hraw.
  rewrite scan_pattern in Hraw. fold pattern in Hraw.
  cbn [rc_scan redis_client] in Hraw.
  rewrite (send_eq _ _ [cb; buf "MATCH"; pattern; buf "COUNT"; nb]) in Hraw
    by (cbn [wire_args wire_arg]; by rewrite Hcb, Hnb).
  cbn [server awaiting sent] in Hraw.
  rewrite Hs, (redis_exec_SCAN db cb pattern nb cursor count Hcursor Hcount) in Hraw.
  fold page in Hraw.
  assert (Hbuffers : existsb is_buffer
                       [iterator; VStr (js "MATCH"); VBuf pattern;
                        VStr (js "COUNT"); limit] = true).
  { cbn [existsb is_buffer]. by rewrite !orb_true_r. }
  rewrite Hbuffers in Hraw.
  cbn [reply_value map first_two_of nth array_elements] in Hraw.
  rewrite map_map in Hraw.
  change (map (fun x => reply_value true (RBulk x)) page.2)
    with (map VBuf page.2) in Hraw.
  (* the entries *)
  destruct (Promise_all_map _ _ _) as [[data|e] s2] eqn:Hall in Hraw;
    [|by injection Hraw].
  cbn [Buffer_from_value] in Hraw. unfold ret in Hraw. injection Hraw as <- _.
  exists data. rewrite toString_decimal. split; [done|].
  apply Promise_all_map_Ok in Hall. rewrite Forall2_fmap_l in Hall.
  revert Hall. apply List.Forall2_impl. intros key entry (st1 & st2 & Hentry).
  by apply (scanDataKeys_entry_key C blockHeight key st1 st2).
Qed.

End ScanClaim.

(** ** A rendering that qualifies: hexadecimal *)

Lemma hex_digit_inj (a b : N) :
  (a < 16)%N -> (b < 16)%N -> hex_digit a = hex_digit b -> a = b.
Proof.
  unfold hex_digit. intros Ha Hb.
  destruct (a <? 10)%N eqn:Ea, (b <? 10)%N eqn:Eb;
    try apply N.ltb_lt in Ea; try apply N.ltb_lt in Eb;
    try apply N.ltb_ge in Ea; try apply N.ltb_ge in Eb; lia.
Qed.

Lemma hex_digit_not_dollar (a : N) : hex_digit a <> 36%N.
Proof. unfold hex_digit. destruct (a <? 10)%N; lia. Qed.

Lemma to_N_inj (x y : byte) : Byte.to_N x = Byte.to_N y -> x = y.
Proof.
  intros Heq. pose proof (Byte.of_to_N x) as Hx. rewrite Heq, Byte.of_to_N in Hx.
  by injection Hx.
Qed.

Lemma pretty_hex_faithful : @faithful_rendering pretty_hex.
Proof.
  split.
  - unfold prettyBuffer, pretty_hex, toString_hex.
    intros a. induction a as [|x a IH]; intros [|y b]; simpl; try done.
    intros [= H1 H2 Hrest].
    pose proof (Byte.to_N_bounded x). pose proof (Byte.to_N_bounded y).
    apply hex_digit_inj in H1; [|apply N.Div0.div_lt_upper_bound; lia..].
    apply hex_digit_inj in H2; [|apply N.mod_upper_bound; lia..].
    f_equal; [|by apply IH]. apply to_N_inj.
    rewrite (N.div_mod (Byte.to_N x) 16), (N.div_mod (Byte.to_N y) 16) by lia.
    by rewrite H1, H2.
  - unfold prettyBuffer, pretty_hex, toString_hex.
    intros a. induction a as [|x a IH]; simpl.
    + apply not_elem_of_nil.
    + rewrite !not_elem_of_cons. repeat split; try done;
        intros Heq; by apply (hex_digit_not_dollar _ (eq_sym Heq)).
Qed.

(** The one storage entry of the contract [e_acute], scanned in a process
    just started: the key [data:é:k] is reported as [:k]. *)
Lemma scanDataKeys_strips_utf16_length_witness :
  (exists data,
     VObj [(js "iterator", VStr (js "0"));
           (js "data", VArr [VArr [VBuf (buf ":k"); VBuf (buf "v")]])]
     = VObj [(js "iterator", VStr (js "0")); (js "data", VArr data)]
     /\ Forall2
          (fun key entry =>
             exists v, entry = VArr [VBuf (drop (S (length e_acute)) (drop 5 key)); v])
          [buf "data:" ++ Buffer_from e_acute ++ buf ":k"] data)
  /\ drop (S (length e_acute))
       (drop 5 (buf "data:" ++ Buffer_from e_acute ++ buf ":" ++ buf "k")) <> buf "k".
Proof.
  assert (H0 : parse_nat (buf "0") = Some 0) by (vm_compute; reflexivity).
  assert (H10 : parse_nat (buf "10") = Some 10) by (vm_compute; reflexivity).
  assert (Hw : wire_arg (VNum 10) = Ok (buf "10")) by (vm_compute; reflexivity).
  assert (Hrun : (@exports_scanDataKeys pretty_hex
                    [VStr e_acute; VStr (js "100"); VStr (js "*"); VStr (js "0"); VNum 10]
                    (fresh_process (redis_exec db_e_acute) 0)).1
                 = Ok (VObj [(js "iterator", VStr (js "0"));
                             (js "data", VArr [VArr [VBuf (buf ":k"); VBuf (buf "v")]])]))
    by (vm_compute; reflexivity).
  pose proof (@scanDataKeys_strips_utf16_length pretty_hex db_e_acute
                (fresh_process (redis_exec db_e_acute) 0)
                e_acute (VStr (js "100")) (VStr (js "*")) (VStr (js "0")) (VNum 10) _
                (buf "0") (buf "10") 0 9
                eq_refl eq_refl H0 Hw H10 eq_refl Hrun) as Hscan.
  cbv zeta in Hscan.
  match type of Hscan with
  | context [scan_page ?d ?c ?n ?p] =>
      assert (Hp : scan_page d c n p
                   = (0, [buf "data:" ++ Buffer_from e_acute ++ buf ":k"]))
        by (vm_compute; reflexivity);
      rewrite Hp in Hscan
  end.
  cbn [fst snd] in Hscan.
  assert (Hd : decimal (Z.of_nat 0) = js "0") by (vm_compute; reflexivity).
  rewrite Hd in Hscan.
  destruct Hscan as [Hdata Hkey].
  split.
  - exact Hdata.
  - exact (proj2 (proj2 (Hkey (buf "k")) eq_refl)).
Defined.

(* ================================================================== *)
(** * 15. Further properties of the code *)
(* ================================================================== *)

(** ** Lookups that miss the cache *)

Lemma lru_find_take (key : jsstring) (n : nat) (c : list lru_entry) :
  lru_find key c = None -> lru_find key (take n c) = None.
Proof.
  unfold lru_find. revert n. induction c as [|e c IH]; intros [|n]; simpl; try done.
  destruct (bool_decide (lru_key e = key)); [done|]. apply IH.
Qed.

Lemma lru_find_without (key key' : jsstring) (c : list lru_entry) :
  lru_find key' c = None -> lru_find key' (lru_without key c) = None.
Proof.
  unfold lru_find, lru_without. induction c as [|e c IH]; [done|].
  cbn [find]. destruct (bool_decide (lru_key e = key')) eqn:E; [done|]. intros Hc.
  rewrite filter_cons. destruct (decide (lru_key e ≠ key)); [|by apply IH].
  cbn [find]. rewrite E. by apply IH.
Qed.

Lemma lru_find_set_other (key key' : jsstring) (v : outcome value) (maxAge now : Z)
    (c : list lru_entry) :
  key' <> key -> lru_find key' c = None ->
  lru_find key' (lru_set key v maxAge now c) = None.
Proof.
  intros Hne Hc. unfold lru_set. apply lru_find_take.
  unfold lru_find. cbn [find lru_key]. rewrite bool_decide_eq_false_2 by done.
  by apply lru_find_without.
Qed.


(** ** Revisions of accounts and of storage entries *)

Lemma getLatestAccountBlockHash_eq (db : DB) (s : Process) (A : jsstring)
    (blockHeight : value) (hb : bytes) (h : Z) :
  server s = redis_exec db ->
  wire_arg blockHeight = Ok hb ->
  parse_bound hb = Some (Fin h) ->
  getLatestAccountBlockHash redis_client [VStr A; blockHeight] s
  = (Ok (match latest_revision
                 (default [] (db_zsets db !! (buf "account:" ++ Buffer_from A))) h with
         | Some m => VBuf m
         | None => VUndefined
         end),
     sent [buf "ZREVRANGEBYSCORE"; buf "account:" ++ Buffer_from A; hb;
           buf "-inf"; buf "LIMIT"; buf "0"; buf "1"] s).
Proof.
  intros Hs Hw Hp. unfold getLatestAccountBlockHash, bind, arg.
  cbn [nth template].
  rewrite (Buffer_from_ascii_app (js "account:") A eq_refl).
  change (map byte_of_N (js "account:")) with (buf "account:").
  rewrite (sendCommand_ZREVRANGEBYSCORE db s _ hb blockHeight h Hs Hw Hp).
  unfold await. by rewrite first_of_option_list.
Qed.

Section Revisions.
Context `{PrettyBuffer}.

(** X1. The revision lookups of accounts and of storage entries, against a
    database and not cached: [getLatestAccountBlockHash(A, H)] answers a
    member of the ordered set [account:A], [getLatestDataBlockHash(k, H)]
    one of [data:k], whose score is the greatest one not exceeding [H];
    [undefined] when every member's score exceeds [H]. *)
Theorem account_and_data_revisions_greatest :
  forall (db : DB) (s : Process) (A : jsstring) (compKey : bytes)
         (blockHeight : value) (hb : bytes) (h : Z),
    server s = redis_exec db ->
    wire_arg blockHeight = Ok hb ->
    parse_bound hb = Some (Fin h) ->
    lru_find (cacheKey (js "getLatestAccountBlockHash") [VStr A; blockHeight])
      (redisCache s) = None ->
    lru_find (cacheKey (js "getLatestDataBlockHash") [VBuf compKey; blockHeight])
      (redisCache s) = None ->
    let greatest (zs : list (bytes * Z)) (v : value) :=
      match v with
      | VBuf m => exists sc, (m, sc) ∈ zs /\ (sc <= h)%Z
                    /\ forall m' sc', (m', sc') ∈ zs -> (sc' <= h)%Z -> (sc' <= sc)%Z
      | VUndefined => forall m sc, (m, sc) ∈ zs -> (h < sc)%Z
      | _ => False
      end in
    (exists v, (exports_getLatestAccountBlockHash [VStr A; blockHeight] s).1 = Ok v
               /\ greatest (default [] (db_zsets db !! (buf "account:" ++ Buffer_from A))) v)
    /\ (exists v, (exports_getLatestDataBlockHash [VBuf compKey; blockHeight] s).1 = Ok v
                  /\ greatest (default [] (db_zsets db !! (buf "data:" ++ compKey))) v).
Proof.
  intros db s A compKey blockHeight hb h Hs Hw Hp HmA HmD greatest.
  assert (Hg : forall zs, greatest zs (match latest_revision zs h with
                                       | Some m => VBuf m
                                       | None => VUndefined
                                       end)).
  { intros zs. destruct (latest_revision zs h) as [m|] eqn:E; simpl.
    - by apply latest_revision_Some.
    - by apply latest_revision_None. }
  split.
  - destruct (withRedis_send_miss (js "getLatestAccountBlockHash") false
                getLatestAccountBlockHash [VStr A; blockHeight] s _ _ HmA
                (fun s0 Hs0 => getLatestAccountBlockHash_eq db s0 A blockHeight hb h
                                 (eq_trans Hs0 Hs) Hw Hp))
      as (s' & Heq & _).
    unfold exports_getLatestAccountBlockHash. rewrite Heq. eexists. split; [done|]. apply Hg.
  - destruct (withRedis_send_miss (js "getLatestDataBlockHash") false
                getLatestDataBlockHash [VBuf compKey; blockHeight] s _ _ HmD
                (fun s0 Hs0 => getLatestDataBlockHash_eq db s0 compKey blockHeight hb h
                                 (eq_trans Hs0 Hs) Hw Hp))
      as (s' & Heq & _).
    unfold exports_getLatestDataBlockHash. rewrite Heq. eexists. split; [done|].
    unfold data_revision. apply Hg.
Qed.

End Revisions.

(** The account revision of [alice] at height 100, and the revision of her
    storage entry [k]. *)
Lemma account_and_data_revisions_greatest_witness :
  let pb := pretty_hex in
  let s := fresh_process (redis_exec db_alice) 0 in
  exists v w,
    (exports_getLatestAccountBlockHash [VStr (js "alice"); VStr (js "100")] s).1 = Ok v
    /\ (exports_getLatestDataBlockHash [VBuf (buf "alice:k"); VStr (js "100")] s).1 = Ok w
    /\ v = VBuf rev1 /\ w = VBuf rev1.
Proof.
  intros pb s.
  destruct (@account_and_data_revisions_greatest pb db_alice s (js "alice") (buf "alice:k")
              (VStr (js "100")) (buf "100") 100 eq_refl eq_refl eq_refl eq_refl eq_refl)
    as [(v & Hv & _) (w & Hw & _)].
  exists v, w. split; [exact Hv|]. split; [exact Hw|].
  vm_compute in Hv, Hw. by injection Hv as <-; injection Hw as <-.
Defined.

(** ** Account records *)

Lemma getAccountData_get (s : Process) (A : jsstring) (R : bytes) :
  getAccountData redis_client [VStr A; VBuf R] s
  = rc_get redis_client (VBuf (buf "account-data:" ++ Buffer_from A ++ buf ":" ++ R)) s.
Proof.
  unfold getAccountData, bind, await, arg. cbn [nth template Buffer_concat].
  rewrite (Buffer_from_key_prefix "account-data:" A eq_refl).
  by rewrite app_nil_r, <- !app_assoc.
Qed.

Lemma rc_get_buffer (db : DB) (key : bytes) (s : Process) :
  server s = redis_exec db ->
  db_zsets db !! key = None ->
  rc_get redis_client (VBuf key) s
  = (Ok (match db_strings db !! key with Some v => VBuf v | None => VNull end),
     sent [buf "GET"; key] s).
Proof.
  intros Hs Hz. cbn [rc_get redis_client].
  rewrite (send_eq _ [VBuf key] [key] s eq_refl), Hs, (redis_exec_GET db key Hz).
  by destruct (db_strings db !! key).
Qed.

Lemma getLatestBlockHeight_eq (db : DB) (s : Process) (args : list value) :
  server s = redis_exec db ->
  db_zsets db !! buf "latest_block_height" = None ->
  getLatestBlockHeight redis_client args s
  = (Ok (match db_strings db !! buf "latest_block_height" with
         | Some v => VStr (toString_utf8 v)
         | None => VNull
         end),
     sent [buf "GET"; buf "latest_block_height"] s).
Proof.
  intros Hs Hz. unfold getLatestBlockHeight. cbn [rc_get redis_client].
  rewrite (send_eq _ [VStr (js "latest_block_height")] [buf "latest_block_height"] s eq_refl).
  rewrite Hs, (redis_exec_GET db _ Hz).
  by destruct (db_strings db !! buf "latest_block_height").
Qed.

Section AccountData.
Context `{PrettyBuffer}.

Lemma exports_getAccountData_miss (db : DB) (s : Process) (A : jsstring) (R : bytes) :
  let key := buf "account-data:" ++ Buffer_from A ++ buf ":" ++ R in
  server s = redis_exec db ->
  db_zsets db !! key = None ->
  lru_find (cacheKey (js "getAccountData") [VStr A; VBuf R]) (redisCache s) = None ->
  exists s',
    exports_getAccountData [VStr A; VBuf R] s
    = (Ok (match db_strings db !! key with Some b => VBuf b | None => VNull end), s')
    /\ wire s' = [buf "GET"; key] :: wire s.
Proof.
  intros key Hs Hz Hmiss.
  destruct (withRedis_send_miss (js "getAccountData") false getAccountData
              [VStr A; VBuf R] s [buf "GET"; key]
              (Ok (match db_strings db !! key with Some b => VBuf b | None => VNull end))
              Hmiss) as (s' & Heq & _ & _ & _ & Hw).
  { intros s0 Hs0. rewrite getAccountData_get.
    apply rc_get_buffer; [by rewrite Hs0|done]. }
  by exists s'.
Qed.

(** X2. [getAccountData(A, R)], not cached, sends one GET for the key
    [account-data:] then the UTF-8 bytes of [A], a colon and the bytes of
    [R] as they are, and answers the stored record as a Buffer, or [null]
    when the store has no such key. *)
Theorem getAccountData_record :
  forall (db : DB) (s : Process) (A : jsstring) (R : bytes),
    let key := buf "account-data:" ++ Buffer_from A ++ buf ":" ++ R in
    server s = redis_exec db ->
    db_zsets db !! key = None ->
    lru_find (cacheKey (js "getAccountData") [VStr A; VBuf R]) (redisCache s) = None ->
    exists s',
      exports_getAccountData [VStr A; VBuf R] s
      = (Ok (match db_strings db !! key with Some b => VBuf b | None => VNull end), s')
      /\ wire s' = [buf "GET"; key] :: wire s.
Proof. intros db s A R. apply exports_getAccountData_miss. Qed.

(** X3. A payload fetch whose revision hash is not a Buffer (it is
    [undefined] when the revision lookup found nothing) fails in
    [Buffer.concat]: the three operations reject and nothing is sent to
    the store. *)
Theorem payload_fetch_without_revision :
  forall (s : Process) (id compKey blockHash : value),
    is_buffer blockHash = false ->
    (exists e, getContractCode redis_client [id; blockHash] s = (Err e, s))
    /\ (exists e, getAccountData redis_client [id; blockHash] s = (Err e, s))
    /\ (exists e, getData redis_client [compKey; blockHash] s = (Err e, s)).
Proof.
  intros s id compKey blockHash Hb.
  assert (Hc : forall pre : list value, exists e, Buffer_concat (pre ++ [blockHash]) = Err e).
  { induction pre as [|x pre [e IH]]; cbn [app Buffer_concat].
    - destruct blockHash; try done; by eexists.
    - destruct x; try by eexists. rewrite IH. by eexists. }
  split; [|split].
  - unfold getContractCode, bind, await, arg. cbn [nth].
    destruct (Hc [VBuf (Buffer_from (js "code:" ++ template id ++ js ":"))]) as [e He].
    cbn [app] in He. rewrite He. by exists e.
  - unfold getAccountData, bind, await, arg. cbn [nth].
    destruct (Hc [VBuf (Buffer_from (js "account-data:" ++ template id ++ js ":"))]) as [e He].
    cbn [app] in He. rewrite He. by exists e.
  - unfold getData, bind, await, arg. cbn [nth].
    destruct (Buffer_from_value compKey) as [k|e]; [|by exists e].
    destruct (Hc [VBuf (buf "data-value:"); VBuf k; VBuf (buf ":")]) as [e He].
    cbn [app] in He. rewrite He. by exists e.
Qed.

End AccountData.

(** The record of [alice] at her revision, from a process just started. *)
Lemma getAccountData_record_witness :
  let pb := pretty_hex in
  let s := fresh_process (redis_exec db_alice) 0 in
  exists s',
    exports_getAccountData [VStr (js "alice"); VBuf rev1] s
    = (Ok (match db_strings db_alice !! (buf "account-data:" ++ Buffer_from (js "alice")
                                           ++ buf ":" ++ rev1) with
           | Some b => VBuf b
           | None => VNull
           end), s')
    /\ wire s' = [buf "GET"; buf "account-data:" ++ Buffer_from (js "alice") ++ buf ":" ++ rev1]
                 :: wire s.
Proof.
  intros pb s.
  apply (@getAccountData_record pb db_alice s (js "alice") rev1); reflexivity.
Defined.

(** A fetch of code for the revision [undefined]. *)
Lemma payload_fetch_without_revision_witness :
  let s := fresh_process (redis_exec db_alice) 0 in
  exists e, getContractCode redis_client [VStr (js "bob"); VUndefined] s = (Err e, s).
Proof.
  intros s.
  exact (proj1 (payload_fetch_without_revision s (VStr (js "bob")) VUndefined VUndefined
                  eq_refl)).
Defined.

(** ** [parseInt] of a decimal text *)

Ltac digit_head :=
  match goal with
  | |- context [js (String ?c ?s)] =>
      change (js (String c s)) with (N_of_ascii c :: js s)
  end;
  cbn [leading_digits];
  repeat match goal with
  | |- context [is_digit (N_of_ascii ?c)] =>
      let v := eval vm_compute in (is_digit (N_of_ascii c)) in
      change (is_digit (N_of_ascii c)) with v
  | |- context [Z.of_N (N_of_ascii ?c - 48)] =>
      let v := eval vm_compute in (Z.of_N (N_of_ascii c - 48)) in
      change (Z.of_N (N_of_ascii c - 48)) with v
  end;
  cbv iota.

Lemma leading_digits_acc (d : Decimal.uint) (acc : positive) :
  leading_digits (js (NilEmpty.string_of_uint d)) (Z.pos acc)
  = Z.pos (Pos.of_uint_acc d acc).
Proof.
  revert acc. induction d; intros acc; cbn [NilEmpty.string_of_uint Pos.of_uint_acc];
    [done|..]; digit_head; rewrite <- IHd; f_equal; lia.
Qed.

Lemma leading_digits_of_uint (d : Decimal.uint) :
  leading_digits (js (NilEmpty.string_of_uint d)) 0 = Z.of_N (Pos.of_uint d).
Proof.
  induction d; cbn [NilEmpty.string_of_uint Pos.of_uint]; [done|..]; digit_head;
    [exact IHd|..]; cbn [Z.of_N]; rewrite <- leading_digits_acc; f_equal.
Qed.

Lemma string_of_uint_head (d : Decimal.uint) :
  d <> Decimal.Nil ->
  exists u rest, js (NilEmpty.string_of_uint d) = u :: rest
                 /\ is_digit u = true /\ is_js_space u = false.
Proof.
  destruct d; [done|..]; intros _; cbn [NilEmpty.string_of_uint];
    match goal with
    | |- context [js (String ?c ?s)] =>
        change (js (String c s)) with (N_of_ascii c :: js s)
    end; by eexists _, _.
Qed.

Lemma is_digit_cases (u : N) :
  is_digit u = true ->
  (u = 48 \/ u = 49 \/ u = 50 \/ u = 51 \/ u = 52 \/ u = 53 \/ u = 54 \/ u = 55
   \/ u = 56 \/ u = 57)%N.
Proof.
  unfold is_digit. intros [H1%N.leb_le H2%N.leb_le]%andb_prop. lia.
Qed.

Lemma parseInt_digits (u : N) (rest : jsstring) :
  is_digit u = true ->
  parseInt (u :: rest) = VNum (to_double (leading_digits (u :: rest) 0))
  /\ parseInt (45%N :: u :: rest) = VNum (to_double (- leading_digits (u :: rest) 0)).
Proof.
  intros Hd. pose proof (is_digit_cases u Hd) as Hc.
  assert (Hneg : forall x : Z, (-1 * x = - x)%Z) by (intros; lia).
  assert (Hpos : forall x : Z, (1 * x = x)%Z) by (intros; lia).
  unfold parseInt. cbn [trimStart]. change (is_js_space 45) with false. cbv iota.
  repeat (destruct Hc as [->|Hc]); try subst u;
    (split;
     [ match goal with
       | |- context [is_js_space ?n] =>
           let v := eval vm_compute in (is_js_space n) in change (is_js_space n) with v
       end; cbv iota; rewrite Hd, Hpos; reflexivity
     | rewrite Hd, Hneg; reflexivity ]).
Qed.

Lemma parseInt_decimal (z : Z) : parseInt (decimal z) = VNum (to_double z).
Proof.
  unfold decimal.
  destruct z as [|p|p]; [done|..]; cbn [Z.to_int NilZero.string_of_int];
    pose proof (Unsigned.to_uint_nonnil p) as Hn;
    assert (Hs : NilZero.string_of_uint (Pos.to_uint p)
                 = NilEmpty.string_of_uint (Pos.to_uint p))
      by (by destruct (Pos.to_uint p));
    destruct (string_of_uint_head _ Hn) as (u & rest & Heq & Hd & _);
    destruct (parseInt_digits u rest Hd) as [Hp Hm].
  - rewrite Hs, Heq, Hp, <- Heq, leading_digits_of_uint, Unsigned.of_to. done.
  - change (js (String "-" (NilZero.string_of_uint (Pos.to_uint p))))
      with (45%N :: js (NilZero.string_of_uint (Pos.to_uint p))).
    rewrite Hs, Heq, Hm, <- Heq, leading_digits_of_uint, Unsigned.of_to. done.
Qed.

Lemma to_double_small (z : Z) : (Z.abs z < 2 ^ 53)%Z -> to_double z = z.
Proof.
  intros Hz. unfold to_double.
  destruct (decide (z = 0%Z)) as [->|Hnz]; [done|].
  assert (Hl : (Z.log2 (Z.abs z) < 53)%Z) by (apply Z.log2_lt_pow2; lia).
  rewrite (proj2 (Z.leb_le _ _)); [done|lia].
Qed.

(** ** [viewAccount] against a database *)

Lemma app_prefix_neq {A} (p q x y : list A) :
  length p = length q -> p <> q -> p ++ x <> q ++ y.
Proof. intros Hl Hne Heq. by apply app_inj_1 in Heq as [? _]. Qed.

Section AccountKeys.
Context `{PrettyBuffer}.

Lemma cacheKey_0 (name : jsstring) : cacheKey name [] = name.
Proof. done. Qed.

Lemma height_key_not_revision_key (a b : value) :
  js "getLatestBlockHeight" <> cacheKey (js "getLatestAccountBlockHash") [a; b].
Proof.
  rewrite cacheKey_2.
  change (js "getLatestBlockHeight") with (js "getLatestB" ++ js "lockHeight").
  change (js "getLatestAccountBlockHash") with (js "getLatestA" ++ js "ccountBlockHash").
  rewrite <- app_assoc. by apply app_prefix_neq.
Qed.

Lemma record_key_not_height_key (a b : value) :
  cacheKey (js "getAccountData") [a; b] <> js "getLatestBlockHeight".
Proof.
  rewrite cacheKey_2.
  change (js "getLatestBlockHeight") with (js "getL" ++ js "atestBlockHeight").
  change (js "getAccountData") with (js "getA" ++ js "ccountData").
  rewrite <- app_assoc. by apply app_prefix_neq.
Qed.

Lemma record_key_not_revision_key (a b c d : value) :
  cacheKey (js "getAccountData") [a; b] <> cacheKey (js "getLatestAccountBlockHash") [c; d].
Proof.
  rewrite !cacheKey_2.
  change (js "getLatestAccountBlockHash") with (js "getL" ++ js "atestAccountBlockHash").
  change (js "getAccountData") with (js "getA" ++ js "ccountData").
  rewrite <- !app_assoc. by apply app_prefix_neq.
Qed.

End AccountKeys.

Lemma Buffer_from_byte_numbers (b : bytes) :
  Buffer_from_value (VArr (map (fun x => VNum (Z.of_N (Byte.to_N x))) b)) = Ok b.
Proof.
  cbn [Buffer_from_value]. f_equal. rewrite map_map. rewrite <- (map_id b) at 2.
  apply map_ext. intros x. pose proof (Byte.to_N_bounded x).
  rewrite Z.mod_small by lia. rewrite N2Z.id. apply byte_of_N_to_N.
Qed.

Lemma read_times_readU8_end (n : nat) (b : bytes) :
  length b < n ->
  read_times n readU8 b = Err (BorshError "Reached the end of buffer when deserializing").
Proof.
  revert b. induction n as [|n IH]; intros b Hl; [lia|].
  destruct b as [|x b]; [done|]. simpl in Hl.
  cbn [read_times readU8]. by rewrite IH by lia.
Qed.

(** The errors of a record that is not 72 bytes long. *)
Lemma deserialize_Account_errors (b : bytes) :
  length b <> 72 ->
  exists m, deserialize Account_fields b = Err (BorshError m)
            /\ (m = "Expected buffer length isn't within bounds"
                \/ m = "Reached the end of buffer when deserializing"
                \/ m = "Unexpected bytes after deserialized data")%string.
Proof.
  intros Hl. unfold deserialize, Account_fields.
  cbn [deserializeStruct deserializeField].
  destruct (decide (length b < 16)) as [H16|H16].
  { unfold readUint at 1, readBuffer. rewrite decide_False by lia. eexists. split; [done|]. by left. }
  rewrite (readUint_eq 16 b) by lia.
  destruct (decide (length b < 32)) as [H32|H32].
  { unfold readUint at 1, readBuffer. rewrite decide_False by (rewrite length_drop; lia).
    eexists. split; [done|]. by left. }
  rewrite (readUint_eq 16 (drop 16 b)) by (rewrite length_drop; lia).
  rewrite drop_drop.
  destruct (decide (length b < 64)) as [H64|H64].
  { rewrite read_times_readU8_end by (rewrite length_drop; lia).
    eexists. split; [done|]. right. by left. }
  rewrite read_times_readU8 by (rewrite length_drop; lia).
  rewrite drop_drop.
  destruct (decide (length b < 72)) as [H72|H72].
  { unfold readUint at 1, readBuffer. rewrite decide_False by (rewrite length_drop; lia).
    eexists. split; [done|]. by left. }
  rewrite (readUint_eq 8 (drop _ b)) by (rewrite length_drop; lia).
  rewrite drop_drop.
  destruct (drop _ b) as [|x rest] eqn:E.
  { apply (f_equal length) in E. rewrite length_drop in E. simpl in E. lia. }
  eexists. split; [done|]. right. by right.
Qed.

Section ViewAccountLookups.
Context `{PrettyBuffer}.

(** The two lookups every [viewAccount] starts with, neither cached: the
    latest height, then the account's revision at that height. *)
Lemma viewAccount_lookups (db : DB) (s : Process) (A : jsstring) (h : Z) :
  server s = redis_exec db ->
  db_strings db !! buf "latest_block_height" = Some (Buffer_from (decimal h)) ->
  db_zsets db !! buf "latest_block_height" = None ->
  lru_find (js "getLatestBlockHeight") (redisCache s) = None ->
  lru_find (cacheKey (js "getLatestAccountBlockHash") [VStr A; VStr (decimal h)])
    (redisCache s) = None ->
  exists s1 s2,
    exports_getLatestBlockHeight [] s = (Ok (VStr (decimal h)), s1)
    /\ exports_getLatestAccountBlockHash [VStr A; VStr (decimal h)] s1
       = (Ok (match latest_revision
                      (default [] (db_zsets db !! (buf "account:" ++ Buffer_from A))) h with
              | Some m => VBuf m
              | None => VUndefined
              end), s2)
    /\ server s2 = redis_exec db
    /\ forall a b, lru_find (cacheKey (js "getAccountData") [a; b]) (redisCache s) = None ->
                   lru_find (cacheKey (js "getAccountData") [a; b]) (redisCache s2) = None.
Proof.
  intros Hs Hh Hz Hm1 Hm2.
  destruct (withRedis_send_miss (js "getLatestBlockHeight") true getLatestBlockHeight
              [] s [buf "GET"; buf "latest_block_height"] (Ok (VStr (decimal h))) Hm1)
    as (s1 & Heq1 & Hs1 & Hn1 & Hc1 & _).
  { intros s0 Hs0. rewrite (getLatestBlockHeight_eq db s0 []); [|by rewrite Hs0|done].
    by rewrite Hh, toString_decimal. }
  assert (Hm2' : lru_find (cacheKey (js "getLatestAccountBlockHash")
                             [VStr A; VStr (decimal h)]) (redisCache s1) = None).
  { rewrite Hc1. apply lru_find_set_other; [|done].
    intros Heq. by apply (height_key_not_revision_key (VStr A) (VStr (decimal h))). }
  destruct (withRedis_send_miss (js "getLatestAccountBlockHash") false
              getLatestAccountBlockHash [VStr A; VStr (decimal h)] s1 _ _ Hm2'
              (fun s0 Hs0 => getLatestAccountBlockHash_eq db s0 A (VStr (decimal h)) _ h
                               (eq_trans Hs0 (eq_trans Hs1 Hs))
                               (wire_arg_decimal h) (parse_bound_decimal h)))
    as (s2 & Heq2 & Hs2 & _ & Hc2 & _).
  exists s1, s2. split; [done|]. split; [done|]. split; [by rewrite Hs2, Hs1|].
  intros a b Hm3. rewrite Hc2, Hc1.
  apply lru_find_set_other; [apply record_key_not_revision_key|].
  apply lru_find_set_other; [apply record_key_not_height_key|done].
Qed.

End ViewAccountLookups.

(** ** The text test of [handleError] *)

Lemma test_TypeError_without_T (s : jsstring) :
  84%N ∉ s -> test_TypeError_not_a_function s = false.
Proof.
  induction s as [|u s IH]; [done|].
  intros [Hu Hs]%not_elem_of_cons.
  cbn [test_TypeError_not_a_function]. rewrite (IH Hs), orb_false_r.
  change (js "TypeError") with (84%N :: js "ypeError"). cbn [startsWith].
  rewrite (proj2 (N.eqb_neq 84 u)) by done. done.
Qed.

Lemma decimal_without_T (z : Z) : 84%N ∉ decimal z.
Proof.
  assert (Hu : forall d, 84%N ∉ js (NilEmpty.string_of_uint d)).
  { induction d; [apply not_elem_of_nil|..];
      (apply not_elem_of_cons; split; [done|exact IHd]). }
  unfold decimal.
  destruct (Z.to_int z) as [d|d]; unfold NilZero.string_of_int, NilZero.string_of_uint.
  - destruct d; try apply Hu. change (js "0") with [48%N].
    by intros [?|?%elem_of_nil]%elem_of_cons.
  - change (js (String "-" ?s)) with (45%N :: js s).
    apply not_elem_of_cons. split; [done|].
    destruct d; try apply Hu. change (js "0") with [48%N].
    by intros [?|?%elem_of_nil]%elem_of_cons.
Qed.

Lemma startsWith_app (p r : jsstring) : startsWith (p ++ r) p = true.
Proof.
  induction p as [|a p IH]; [by destruct r|]. cbn [app startsWith]. by rewrite N.eqb_refl.
Qed.

Lemma dotstar_then_app (p m y : jsstring) :
  Forall (fun u => is_line_terminator u = false) m ->
  dotstar_then p (m ++ p ++ y) = true.
Proof.
  induction 1 as [|u m Hu _ IH].
  - cbn [app]. destruct (p ++ y) eqn:E.
    + destruct p; [done|discriminate].
    + cbn [dotstar_then]. rewrite <- E, startsWith_app. done.
  - cbn [app dotstar_then]. rewrite Hu, IH. apply orb_true_r.
Qed.

Lemma test_TypeError_app (x m y : jsstring) :
  Forall (fun u => is_line_terminator u = false) m ->
  test_TypeError_not_a_function
    (x ++ js "TypeError" ++ m ++ js " is not a function" ++ y) = true.
Proof.
  intros Hm. induction x as [|u x IH].
  - cbn [app].
    change (js "TypeError" ++ ?r) with (84%N :: (js "ypeError" ++ r)).
    cbn [test_TypeError_not_a_function].
    change (84%N :: (js "ypeError" ++ ?r)) with (js "TypeError" ++ r).
    rewrite startsWith_app.
    rewrite drop_app_length'; [|done]. by rewrite dotstar_then_app.
  - cbn [app test_TypeError_not_a_function]. rewrite IH. apply orb_true_r.
Qed.

Section ViewAccountAnswers.
Context `{PrettyBuffer} `{Bs58}.

(** [viewAccount] for an account without a revision up to the latest
    height, or whose revision has no record: [handleError] gets the
    [accountNotFound] error. *)
Lemma viewAccount_not_found (db : DB) (s : Process) (A : jsstring) (h : Z) (body : value) :
  let zs := default [] (db_zsets db !! (buf "account:" ++ Buffer_from A)) in
  let key R := buf "account-data:" ++ Buffer_from A ++ buf ":" ++ R in
  server s = redis_exec db ->
  db_strings db !! buf "latest_block_height" = Some (Buffer_from (decimal h)) ->
  db_zsets db !! buf "latest_block_height" = None ->
  lru_find (js "getLatestBlockHeight") (redisCache s) = None ->
  lru_find (cacheKey (js "getLatestAccountBlockHash") [VStr A; VStr (decimal h)])
    (redisCache s) = None ->
  ((forall m sc, (m, sc) ∈ zs -> (h < sc)%Z)
   \/ (exists R, latest_revision zs h = Some R
                 /\ db_strings db !! key R = None /\ db_zsets db !! key R = None
                 /\ lru_find (cacheKey (js "getAccountData") [VStr A; VBuf R])
                      (redisCache s) = None)) ->
  (viewAccount body (VStr A) s).1
  = handleError body (VStr A)
      (FastNEARError "accountNotFound"
         (js "Account not found: " ++ A ++ js " at " ++ decimal h ++ js " block height")).
Proof.
  intros zs key Hs Hh Hz Hm1 Hm2 Hcase.
  destruct (viewAccount_lookups db s A h Hs Hh Hz Hm1 Hm2)
    as (s1 & s2 & Heq1 & Heq2 & Hs2 & Hm3).
  unfold viewAccount, viewAccount_try, bind. rewrite Heq1, Heq2.
  destruct Hcase as [Hnone|(R & HR & Hk & Hkz & Hm3')].
  - fold zs. rewrite (no_revision_None zs h Hnone). done.
  - fold zs. rewrite HR. cbn [falsy].
    destruct (exports_getAccountData_miss db s2 A R Hs2 Hkz (Hm3 _ _ Hm3')) as (s3 & Heq3 & _).
    rewrite Heq3. fold (key R). rewrite Hk. done.
Qed.

(** X4. [viewAccount] for an account the store does not have at the latest
    height [h]: either no revision of the account has a score up to [h], or
    the revision found has no record. For an account identifier without a
    capital T (NEAR identifiers are lower case) the answer is the legacy
    error object with code -32000, whose [data] names the account. *)
Theorem viewAccount_unknown_account :
  forall (db : DB) (s : Process) (A : jsstring) (h : Z) (body id : value),
    let zs := default [] (db_zsets db !! (buf "account:" ++ Buffer_from A)) in
    let key R := buf "account-data:" ++ Buffer_from A ++ buf ":" ++ R in
    server s = redis_exec db ->
    db_strings db !! buf "latest_block_height" = Some (Buffer_from (decimal h)) ->
    db_zsets db !! buf "latest_block_height" = None ->
    lru_find (js "getLatestBlockHeight") (redisCache s) = None ->
    lru_find (cacheKey (js "getLatestAccountBlockHash") [VStr A; VStr (decimal h)])
      (redisCache s) = None ->
    ((forall m sc, (m, sc) ∈ zs -> (h < sc)%Z)
     \/ (exists R, latest_revision zs h = Some R
                   /\ db_strings db !! key R = None /\ db_zsets db !! key R = None
                   /\ lru_find (cacheKey (js "getAccountData") [VStr A; VBuf R])
                        (redisCache s) = None)) ->
    84%N ∉ A ->
    member body "id" = Ok id ->
    (viewAccount body (VStr A) s).1
    = Ok (RespBody
            (VObj [(js "jsonrpc", VStr (js "2.0"));
                   (js "result",
                     VObj [(js "code", VNum (-32000));
                           (js "data",
                             VStr (js "account " ++ A ++ js " does not exist while viewing"));
                           (js "message", VStr (js "Server error"))]);
                   (js "id", id)])).
Proof.
  intros db s A h body id zs key Hs Hh Hz Hm1 Hm2 Hcase HT Hid.
  rewrite (viewAccount_not_found db s A h body Hs Hh Hz Hm1 Hm2 Hcase).
  unfold handleError.
  rewrite test_TypeError_without_T.
  - cbn [ecode FastNEARError]. by rewrite Hid.
  - unfold error_toString, FastNEARError. cbn [ename emessage].
    change (js "Error") with (69%N :: js "rror").
    change (js "Account not found: " ++ ?r) with (65%N :: (js "ccount not found: " ++ r)).
    cbv iota.
    repeat (rewrite not_elem_of_app || rewrite not_elem_of_cons).
    repeat split;
      first [ done | apply decimal_without_T
            | apply (bool_decide_unpack _); vm_compute; exact I ].
Qed.

(** X5. The text of the error is tested before its tag, and the text of
    [accountNotFound] carries the account identifier: for an unknown
    account whose identifier contains [TypeError] and, later on the same
    line, [ is not a function], [viewAccount] answers that the contract
    method was not found. *)
Theorem viewAccount_unknown_account_as_method_not_found :
  forall (db : DB) (s : Process) (x m y : jsstring) (h : Z) (body id : value),
    let A := x ++ js "TypeError" ++ m ++ js " is not a function" ++ y in
    server s = redis_exec db ->
    db_strings db !! buf "latest_block_height" = Some (Buffer_from (decimal h)) ->
    db_zsets db !! buf "latest_block_height" = None ->
    lru_find (js "getLatestBlockHeight") (redisCache s) = None ->
    lru_find (cacheKey (js "getLatestAccountBlockHash") [VStr A; VStr (decimal h)])
      (redisCache s) = None ->
    (forall r sc,
        (r, sc) ∈ default [] (db_zsets db !! (buf "account:" ++ Buffer_from A)) ->
        (h < sc)%Z) ->
    Forall (fun u => is_line_terminator u = false) m ->
    member body "id" = Ok id ->
    (viewAccount body (VStr A) s).1
    = Ok (RespBody
            (VObj [(js "jsonrpc", VStr (js "2.0"));
                   (js "result",
                     VObj [(js "error",
                             VStr (js "wasm execution failed with error: FunctionCallError(MethodResolveError(MethodNotFound))"))]);
                   (js "id", id)])).
Proof.
  intros db s x m y h body id A Hs Hh Hz Hm1 Hm2 Hnone Hm Hid.
  rewrite (viewAccount_not_found db s A h body Hs Hh Hz Hm1 Hm2 (or_introl Hnone)).
  unfold handleError.
  assert (Ht : test_TypeError_not_a_function
                 (error_toString
                    (FastNEARError "accountNotFound"
                       (js "Account not found: " ++ A ++ js " at " ++ decimal h
                        ++ js " block height"))) = true).
  { unfold error_toString, FastNEARError. cbn [ename emessage].
    change (js "Error") with (69%N :: js "rror").
    change (js "Account not found: " ++ ?r) with (65%N :: (js "ccount not found: " ++ r)).
    cbv iota.
    change (65%N :: (js "ccount not found: " ++ ?r)) with (js "Account not found: " ++ r).
    change (69%N :: js "rror") with (js "Error").
    unfold A. rewrite <- !app_assoc.
    rewrite !(app_assoc _ _ (js "TypeError" ++ _)).
    apply test_TypeError_app. exact Hm. }
  rewrite Ht, Hid. done.
Qed.

(** [viewAccount] up to the record of the account, none of the three
    lookups cached. *)
Lemma viewAccount_record (db : DB) (s : Process) (A : jsstring) (h : Z) (R b : bytes)
    (body : value) :
  let key := buf "account-data:" ++ Buffer_from A ++ buf ":" ++ R in
  server s = redis_exec db ->
  db_strings db !! buf "latest_block_height" = Some (Buffer_from (decimal h)) ->
  db_zsets db !! buf "latest_block_height" = None ->
  lru_find (js "getLatestBlockHeight") (redisCache s) = None ->
  lru_find (cacheKey (js "getLatestAccountBlockHash") [VStr A; VStr (decimal h)])
    (redisCache s) = None ->
  lru_find (cacheKey (js "getAccountData") [VStr A; VBuf R]) (redisCache s) = None ->
  latest_revision (default [] (db_zsets db !! (buf "account:" ++ Buffer_from A))) h = Some R ->
  db_strings db !! key = Some b ->
  db_zsets db !! key = None ->
  (viewAccount body (VStr A) s).1
  = match deserialize Account_fields b with
    | Ok account =>
        match member body "id" with
        | Ok id =>
            Ok (RespBody (match account with
                          | VObj fields => account_result fields (VStr (decimal h)) id
                          | _ => VUndefined
                          end))
        | Err e => handleError body (VStr A) e
        end
    | Err e => handleError body (VStr A) e
    end.
Proof.
  intros key Hs Hh Hz Hm1 Hm2 Hm3 HR Hk Hkz.
  destruct (viewAccount_lookups db s A h Hs Hh Hz Hm1 Hm2)
    as (s1 & s2 & Heq1 & Heq2 & Hs2 & Hm3').
  unfold viewAccount, viewAccount_try, bind. rewrite Heq1, Heq2, HR. cbn [falsy].
  destruct (exports_getAccountData_miss db s2 A R Hs2 Hkz (Hm3' _ _ Hm3)) as (s3 & Heq3 & _).
  rewrite Heq3. fold key. rewrite Hk. cbn [falsy]. unfold await.
  destruct (deserialize Account_fields b) as [account|e]; [|done].
  destruct (member body "id") as [id|e]; [|done].
  by destruct account.
Qed.

(** X6. [viewAccount] for an account whose latest revision up to the
    latest height [h] has a record of 72 bytes: the answer gives [amount]
    and [locked] as the decimal text of the two little-endian 128-bit
    numbers, [code_hash] as the base-58 text of bytes 32 to 63, and
    [storage_usage] and [block_height] as numbers, which are doubles: each
    is exact when below 2^53. *)
Theorem viewAccount_known_account :
  forall (db : DB) (s : Process) (A : jsstring) (h : Z) (R b : bytes) (body id : value),
    let key := buf "account-data:" ++ Buffer_from A ++ buf ":" ++ R in
    server s = redis_exec db ->
    db_strings db !! buf "latest_block_height" = Some (Buffer_from (decimal h)) ->
    db_zsets db !! buf "latest_block_height" = None ->
    lru_find (js "getLatestBlockHeight") (redisCache s) = None ->
    lru_find (cacheKey (js "getLatestAccountBlockHash") [VStr A; VStr (decimal h)])
      (redisCache s) = None ->
    lru_find (cacheKey (js "getAccountData") [VStr A; VBuf R]) (redisCache s) = None ->
    latest_revision (default [] (db_zsets db !! (buf "account:" ++ Buffer_from A))) h
    = Some R ->
    db_strings db !! key = Some b ->
    db_zsets db !! key = None ->
    length b = 72 ->
    member body "id" = Ok id ->
    (viewAccount body (VStr A) s).1
    = Ok (RespBody
            (VObj [(js "jsonrpc", VStr (js "2.0"));
                   (js "result",
                     VObj [(js "amount", VStr (decimal (Z.of_N (le_to_N (take 16 b)))));
                           (js "locked",
                             VStr (decimal (Z.of_N (le_to_N (take 16 (drop 16 b))))));
                           (js "code_hash", VStr (bs58_encode (take 32 (drop 32 b))));
                           (js "storage_usage",
                             VNum (to_double (Z.of_N (le_to_N (take 8 (drop 64 b))))));
                           (js "block_height", VNum (to_double h))]);
                   (js "id", id)]))
    /\ (forall z, (Z.abs z < 2 ^ 53)%Z -> to_double z = z).
Proof.
  intros db s A h R b body id key Hs Hh Hz Hm1 Hm2 Hm3 HR Hk Hkz Hl Hid.
  split; [|apply to_double_small].
  rewrite (viewAccount_record db s A h R b body Hs Hh Hz Hm1 Hm2 Hm3 HR Hk Hkz).
  rewrite (proj1 (deserialize_Account b) Hl), Hid.
  unfold account_result, Account, get_field. cbn [find fst snd].
  repeat match goal with
  | |- context [bool_decide (?a = ?b)] =>
      let v := eval vm_compute in (bool_decide (a = b)) in
      change (bool_decide (a = b)) with v
  end.
  cbv iota. cbn [snd template].
  by rewrite Buffer_from_byte_numbers, !parseInt_decimal.
Qed.

(** X7. [viewAccount] for an account whose record is not 72 bytes long:
    the decoder's error has no case in [handleError], and the answer is
    HTTP 400 with the text of that error. *)
Theorem viewAccount_malformed_record :
  forall (db : DB) (s : Process) (A : jsstring) (h : Z) (R b : bytes) (body : value),
    let key := buf "account-data:" ++ Buffer_from A ++ buf ":" ++ R in
    server s = redis_exec db ->
    db_strings db !! buf "latest_block_height" = Some (Buffer_from (decimal h)) ->
    db_zsets db !! buf "latest_block_height" = None ->
    lru_find (js "getLatestBlockHeight") (redisCache s) = None ->
    lru_find (cacheKey (js "getLatestAccountBlockHash") [VStr A; VStr (decimal h)])
      (redisCache s) = None ->
    lru_find (cacheKey (js "getAccountData") [VStr A; VBuf R]) (redisCache s) = None ->
    latest_revision (default [] (db_zsets db !! (buf "account:" ++ Buffer_from A))) h
    = Some R ->
    db_strings db !! key = Some b ->
    db_zsets db !! key = None ->
    length b <> 72 ->
    exists e, deserialize Account_fields b = Err e
              /\ (viewAccount body (VStr A) s).1 = Ok (RespThrow 400 (error_toString e)).
Proof.
  intros db s A h R b body key Hs Hh Hz Hm1 Hm2 Hm3 HR Hk Hkz Hl.
  destruct (deserialize_Account_errors b Hl) as (m & He & Hm).
  exists (BorshError m). split; [done|].
  rewrite (viewAccount_record db s A h R b body Hs Hh Hz Hm1 Hm2 Hm3 HR Hk Hkz), He.
  by destruct Hm as [-> | [-> | ->]].
Qed.

End ViewAccountAnswers.

(** [bob], who has no account in the store. *)
Lemma viewAccount_unknown_account_witness :
  (@viewAccount pretty_hex bs58_hex (VObj [(js "id", VNum 1)]) (VStr (js "bob"))
     (fresh_process (redis_exec db_alice) 0)).1
  = Ok (RespBody
          (VObj [(js "jsonrpc", VStr (js "2.0"));
                 (js "result",
                   VObj [(js "code", VNum (-32000));
                         (js "data",
                           VStr (js "account " ++ js "bob" ++ js " does not exist while viewing"));
                         (js "message", VStr (js "Server error"))]);
                 (js "id", VNum 1)])).
Proof.
  apply (@viewAccount_unknown_account pretty_hex bs58_hex db_alice
           (fresh_process (redis_exec db_alice) 0) (js "bob") 100);
    try reflexivity.
  - left. intros m sc Hin. by apply elem_of_nil in Hin.
  - apply (bool_decide_unpack _). vm_compute. exact I.
Defined.

(** An account identifier that reads like the error of a missing method. *)
Lemma viewAccount_unknown_account_as_method_not_found_witness :
  (@viewAccount pretty_hex bs58_hex (VObj [(js "id", VNum 1)])
     (VStr ([] ++ js "TypeError" ++ js ": x" ++ js " is not a function" ++ []))
     (fresh_process (redis_exec db_alice) 0)).1
  = Ok (RespBody
          (VObj [(js "jsonrpc", VStr (js "2.0"));
                 (js "result",
                   VObj [(js "error",
                           VStr (js "wasm execution failed with error: FunctionCallError(MethodResolveError(MethodNotFound))"))]);
                 (js "id", VNum 1)])).
Proof.
  apply (@viewAccount_unknown_account_as_method_not_found pretty_hex bs58_hex db_alice
           (fresh_process (redis_exec db_alice) 0) [] (js ": x") [] 100);
    try reflexivity.
  - intros r sc Hin. by apply elem_of_nil in Hin.
  - by repeat constructor.
Defined.

(** The account of [alice]: balance 5, storage usage 100, at height 100. *)
Lemma viewAccount_known_account_witness :
  (@viewAccount pretty_hex bs58_hex (VObj [(js "id", VNum 1)]) (VStr (js "alice"))
     (fresh_process (redis_exec db_alice) 0)).1
  = Ok (RespBody
          (VObj [(js "jsonrpc", VStr (js "2.0"));
                 (js "result",
                   VObj [(js "amount", VStr (js "5")); (js "locked", VStr (js "0"));
                         (js "code_hash", VStr (bs58_hex (repeat x00 32)));
                         (js "storage_usage", VNum 100); (js "block_height", VNum 100)]);
                 (js "id", VNum 1)])).
Proof.
  exact (proj1 (@viewAccount_known_account pretty_hex bs58_hex db_alice
                  (fresh_process (redis_exec db_alice) 0) (js "alice") 100 rev1
                  (account_record 5 0 (repeat x00 32) 100)
                  (VObj [(js "id", VNum 1)]) (VNum 1)
                  eq_refl eq_refl eq_refl eq_refl eq_refl eq_refl eq_refl eq_refl eq_refl
                  eq_refl eq_refl)).
Defined.

(** The record of [carol], five bytes long. *)
Lemma viewAccount_malformed_record_witness :
  exists e,
    deserialize Account_fields (buf "short") = Err e
    /\ (@viewAccount pretty_hex bs58_hex (VObj [(js "id", VNum 1)]) (VStr (js "carol"))
          (fresh_process (redis_exec db_truncated) 0)).1
       = Ok (RespThrow 400 (error_toString e)).
Proof.
  apply (@viewAccount_malformed_record pretty_hex bs58_hex db_truncated
           (fresh_process (redis_exec db_truncated) 0) (js "carol") 100 rev1 (buf "short"));
    try reflexivity.
  by vm_compute.
Defined.

(** ** Cache keys *)

Section CacheKeys.
Context `{PrettyBuffer}.

(** The part of a key after the name: every argument after [$$]. *)
Lemma cacheKey_eq (name : jsstring) (args : list value) :
  cacheKey name args = name ++ flat_map (fun p => js "$$" ++ p) (prettyArgs args).
Proof.
  unfold cacheKey. generalize (prettyArgs args). intros l. revert name.
  induction l as [|p l IH]; intros name; [by rewrite app_nil_r|].
  change (join (js "$$") (name :: p :: l)) with (name ++ js "$$" ++ join (js "$$") (p :: l)).
  rewrite (IH p). cbn [flat_map]. by rewrite <- !app_assoc.
Qed.

Lemma split_before_dollar (x y u v : jsstring) :
  36%N ∉ x -> 36%N ∉ y ->
  (u = [] \/ exists u', u = 36%N :: u') ->
  (v = [] \/ exists v', v = 36%N :: v') ->
  x ++ u = y ++ v -> x = y /\ u = v.
Proof.
  intros Hx Hy Hu Hv Heq.
  destruct Hu as [->|[u' ->]], Hv as [->|[v' ->]].
  - rewrite !app_nil_r in Heq. by subst.
  - exfalso. apply Hx. rewrite app_nil_r in Heq. rewrite Heq.
    apply elem_of_app. right. by left.
  - exfalso. apply Hy. rewrite app_nil_r in Heq. rewrite <- Heq.
    apply elem_of_app. right. by left.
  - destruct (split_at_dollar x y u' v' Hx Hy Heq) as [-> ->]. done.
Qed.

Lemma dollar_tail (l : list jsstring) :
  let t := flat_map (fun p => js "$$" ++ p) l in
  t = [] \/ exists t', t = 36%N :: t'.
Proof. destruct l as [|p l]; [by left|]. right. by eexists. Qed.

Lemma dollar_tail_inj (l l' : list jsstring) :
  Forall (fun p => 36%N ∉ p) l -> Forall (fun p => 36%N ∉ p) l' ->
  flat_map (fun p => js "$$" ++ p) l = flat_map (fun p => js "$$" ++ p) l' -> l = l'.
Proof.
  intros Hl. revert l'. induction Hl as [|p l Hp Hl IH]; intros l' Hl' Heq.
  - destruct l' as [|p' l']; [done|]. discriminate Heq.
  - destruct Hl' as [|p' l' Hp' Hl']; [discriminate Heq|].
    cbn [flat_map] in Heq. rewrite <- !app_assoc in Heq.
    injection Heq as Heq.
    destruct (split_before_dollar p p' _ _ Hp Hp' (dollar_tail l) (dollar_tail l') Heq)
      as [-> Hrest].
    f_equal. by apply IH.
Qed.

(** X8. Cache keys are the name and the printed arguments joined by [$$],
    with nothing escaped. When neither the names nor the printed arguments
    contain a dollar sign, two lookups have the same key only if they are
    lookups of the same operation with arguments that print the same. *)
Theorem cacheKey_injective :
  forall (name name' : jsstring) (args args' : list value),
    36%N ∉ name -> 36%N ∉ name' ->
    Forall (fun p => 36%N ∉ p) (prettyArgs args) ->
    Forall (fun p => 36%N ∉ p) (prettyArgs args') ->
    cacheKey name args = cacheKey name' args' ->
    name = name' /\ prettyArgs args = prettyArgs args'.
Proof.
  intros name name' args args' Hn Hn' Ha Ha' Heq. rewrite !cacheKey_eq in Heq.
  destruct (split_before_dollar name name' _ _ Hn Hn'
              (dollar_tail (prettyArgs args)) (dollar_tail (prettyArgs args')) Heq)
    as [-> Hrest].
  split; [done|]. by apply dollar_tail_inj.
Qed.

(** X9. With a dollar sign in an argument the keys collide: the lookups
    [f(a$$b, c)] and [f(a, b$$c)] have one key, and once the first has been
    made the second is answered with the first's result, from the cache.
    This is for an operation that only talks to the store, as the six
    operations of two arguments do: its own lookups, had it any, could
    evict the entry before the call returns. *)
Theorem cacheKey_collision :
  forall (name : jsstring) (ce : bool) (fn : RedisClient -> list value -> M value)
         (a b c : jsstring) (s s1 : Process) (c' : list lru_entry) (o : outcome value),
    let args1 := [VStr (a ++ js "$$" ++ b); VStr c] in
    let args2 := [VStr a; VStr (b ++ js "$$" ++ c)] in
    store_only (fn redis_client args1) ->
    lru_get (cacheKey name args1) (Date_now s) (redisCache s) = (None, c') ->
    fn redis_client args1 (with_redisClient (with_redisCache c' s)) = (o, s1) ->
    let s' := (withRedis name ce fn args1 s).2 in
    cacheKey name args1 = cacheKey name args2
    /\ exists c2, withRedis name ce fn args2 s' = (o, with_redisCache c2 s').
Proof.
  intros name ce fn a b c s s1 c' o args1 args2 Hso Hg Hf s'.
  assert (Hk : cacheKey name args1 = cacheKey name args2).
  { unfold args1, args2. rewrite !cacheKey_2. cbn [template]. by rewrite <- !app_assoc. }
  split; [done|].
  unfold s'. rewrite (withRedis_miss_store_only name ce fn args1 s s1 o c' Hso Hg Hf).
  cbn [snd].
  destruct (lru_get_after_set (cacheKey name args1) o ce (Date_now s1) (Date_now s1)
              (redisCache s1)) as [c2 Hc2].
  { destruct ce; [|done]. unfold BLOCK_INDEX_CACHE_TIME. lia. }
  exists c2. apply withRedis_hit. by rewrite <- Hk.
Qed.

End CacheKeys.

(** Two revision lookups with the same key. *)
Lemma cacheKey_injective_witness :
  js "getData" = js "getData"
  /\ @prettyArgs pretty_hex [VStr (js "alice:k"); VBuf rev1]
     = @prettyArgs pretty_hex [VStr (js "alice:k"); VBuf rev1].
Proof.
  apply (@cacheKey_injective pretty_hex); try reflexivity;
    try (apply (bool_decide_unpack _); vm_compute; exact I);
    repeat constructor; apply (bool_decide_unpack _); vm_compute; exact I.
Defined.

(** The code revision of the contract [a$$b] at height [c], then that of
    the contract [a] at the height [b$$c]. *)
Lemma cacheKey_collision_witness :
  let pb := pretty_hex in
  let s := fresh_process (redis_exec db_alice) 0 in
  let s' := (exports_getLatestContractBlockHash
               [VStr (js "alice" ++ js "$$" ++ js "1"); VStr (js "00")] s).2 in
  cacheKey (js "getLatestContractBlockHash")
    [VStr (js "alice" ++ js "$$" ++ js "1"); VStr (js "00")]
  = cacheKey (js "getLatestContractBlockHash")
      [VStr (js "alice"); VStr (js "1" ++ js "$$" ++ js "00")]
  /\ exists c2,
       exports_getLatestContractBlockHash
         [VStr (js "alice"); VStr (js "1" ++ js "$$" ++ js "00")] s'
       = (Ok VUndefined, with_redisCache c2 s').
Proof.
  intros pb s.
  apply (@cacheKey_collision pb (js "getLatestContractBlockHash") false
           getLatestContractBlockHash (js "alice") (js "1") (js "00") s
           (sent [buf "ZREVRANGEBYSCORE"; buf "code:alice$$1"; buf "00"; buf "-inf";
                  buf "LIMIT"; buf "0"; buf "1"]
              (with_redisClient (with_redisCache [] s))) []).
  - exact (proj1 (proj2 (store_only_operations _))).
  - reflexivity.
  - reflexivity.
Defined.

(** ** The cache stays within its bound *)

Lemma length_lru_without (key : jsstring) (c : list lru_entry) :
  length (lru_without key c) <= length c.
Proof. unfold lru_without. apply length_filter. Qed.

Lemma length_lru_without_found (key : jsstring) (c : list lru_entry) (e : lru_entry) :
  lru_find key c = Some e -> S (length (lru_without key c)) <= length c.
Proof.
  unfold lru_find, lru_without. induction c as [|x c IH]; [done|].
  cbn [find]. rewrite filter_cons. destruct (bool_decide (lru_key x = key)) eqn:E.
  - intros _. apply bool_decide_eq_true_1 in E.
    rewrite decide_False by (intros Hne; by apply Hne).
    simpl. pose proof (length_filter (fun e => lru_key e ≠ key) c). lia.
  - intros Hf. apply bool_decide_eq_false_1 in E.
    rewrite decide_True by done. simpl. specialize (IH Hf). lia.
Qed.

Lemma elem_of_map_lru_key (key : jsstring) (c : list lru_entry) :
  key ∈ map lru_key c <-> exists e, e ∈ c /\ lru_key e = key.
Proof.
  rewrite list_elem_of_In, in_map_iff. split.
  - intros (e & He & Hin). exists e. by rewrite list_elem_of_In.
  - intros (e & Hin & He). exists e. by rewrite <- list_elem_of_In.
Qed.

Lemma NoDup_lru_without (key : jsstring) (c : list lru_entry) :
  NoDup (map lru_key c) -> NoDup (map lru_key (lru_without key c)).
Proof.
  unfold lru_without. induction c as [|x c IH]; [done|].
  cbn [map]. intros [Hx Hc]%list.NoDup_cons. rewrite filter_cons.
  destruct (decide (lru_key x ≠ key)); [|by apply IH].
  cbn [map]. apply list.NoDup_cons. split; [|by apply IH].
  intros (y & Hin & Hy)%elem_of_map_lru_key. apply Hx.
  apply list_elem_of_filter in Hin as [_ Hin].
  apply elem_of_map_lru_key. by exists y.
Qed.

Lemma key_not_in_lru_without (key : jsstring) (c : list lru_entry) :
  key ∉ map lru_key (lru_without key c).
Proof.
  intros (y & Hin & Hy)%elem_of_map_lru_key.
  apply list_elem_of_filter in Hin as [Hne _]. by apply Hne.
Qed.

Lemma NoDup_map_take (n : nat) (c : list lru_entry) :
  NoDup (map lru_key c) -> NoDup (map lru_key (take n c)).
Proof.
  revert n. induction c as [|x c IH]; intros [|n]; cbn [take map]; try done.
  - intros _. constructor.
  - intros [Hx Hc]%list.NoDup_cons. apply list.NoDup_cons. split; [|by apply IH].
    intros (y & Hin & Hy)%elem_of_map_lru_key. apply Hx.
    apply elem_of_map_lru_key. exists y. split; [|done].
    apply elem_of_take in Hin as (i & Hi & _). by apply list_elem_of_lookup_2 in Hi.
Qed.

Lemma cache_ok_lru_get (key : jsstring) (now : Z) (c : list lru_entry) :
  cache_ok c -> cache_ok (lru_get key now c).2.
Proof.
  intros [Hl Hn]. unfold lru_get.
  destruct (lru_find key c) as [e|] eqn:E; [|done].
  pose proof (length_lru_without_found key c e E) as Hlen.
  destruct (lru_find_Some key c e E) as [_ Hk].
  destruct (lru_stale now e); cbn [snd].
  - split; [lia|by apply NoDup_lru_without].
  - split; [simpl; lia|]. cbn [map]. apply list.NoDup_cons. split.
    + rewrite Hk. apply key_not_in_lru_without.
    + by apply NoDup_lru_without.
Qed.

Lemma cache_ok_lru_set (key : jsstring) (v : outcome value) (maxAge now : Z)
    (c : list lru_entry) :
  NoDup (map lru_key c) -> cache_ok (lru_set key v maxAge now c).
Proof.
  intros Hn. unfold lru_set. split.
  - rewrite length_take. lia.
  - apply NoDup_map_take. cbn [map lru_key]. apply list.NoDup_cons. split.
    + apply key_not_in_lru_without.
    + by apply NoDup_lru_without.
Qed.

Lemma cache_ok_lru_settle (key : jsstring) (o : outcome value) (c : list lru_entry) :
  cache_ok c -> cache_ok (lru_settle key o c).
Proof.
  intros [Hl Hn]. split; [|by rewrite map_lru_key_settle].
  unfold lru_settle. by rewrite length_map.
Qed.

Lemma keeps_ret {A} (a : A) : keeps_cache_ok (ret a).
Proof. by intros s. Qed.

Lemma keeps_throw {A} (e : Error) : keeps_cache_ok (@throw A e).
Proof. by intros s. Qed.

Lemma keeps_await {A} (p : outcome A) : keeps_cache_ok (await p).
Proof. by intros s. Qed.

Lemma keeps_bind {A B} (m : M A) (k : A -> M B) :
  keeps_cache_ok m -> (forall a, keeps_cache_ok (k a)) -> keeps_cache_ok (bind m k).
Proof.
  intros Hm Hk s Hs. unfold bind. specialize (Hm s Hs).
  destruct (m s) as [[a|e] s1]; [|done]. by apply Hk.
Qed.

Lemma keeps_send (name : bytes) (args : list value) : keeps_cache_ok (send name args).
Proof.
  intros s Hs. unfold send. destruct (wire_args args); [|done].
  by destruct (server s _).
Qed.

Lemma keeps_Promise_all_map (f : value -> M value) (l : list value) :
  (forall x, keeps_cache_ok (f x)) -> keeps_cache_ok (Promise_all_map f l).
Proof.
  intros Hf. induction l as [|x l IH]; intros s Hs; [done|].
  cbn [Promise_all_map]. specialize (Hf x s Hs).
  destruct (f x s) as [o s1]. specialize (IH s1 Hf).
  by destruct (Promise_all_map f l s1).
Qed.

Section CacheBound.
Context `{PrettyBuffer}.

Lemma keeps_withRedis (name : jsstring) (ce : bool)
    (fn : RedisClient -> list value -> M value) (args : list value) :
  keeps_cache_ok (fn redis_client args) -> keeps_cache_ok (withRedis name ce fn args).
Proof.
  intros Hfn s Hs. unfold withRedis, bind, redisCache_get.
  pose proof (cache_ok_lru_get (cacheKey name args) (Date_now s) (redisCache s) Hs) as Hg.
  destruct (lru_get (cacheKey name args) (Date_now s) (redisCache s)) as [[p|] c'];
    cbn [snd] in Hg; [done|].
  cbn [getRedisClient redisCache_set]. unfold promise.
  change (with_redisCache _ (with_redisClient (with_redisCache c' s)))
    with (awaiting (cacheKey name args) ce c' s).
  assert (Hin : cache_ok (redisCache (awaiting (cacheKey name args) ce c' s))).
  { cbn [awaiting redisCache]. apply cache_ok_lru_set. apply Hg. }
  specialize (Hfn _ Hin).
  destruct (fn redis_client args (awaiting (cacheKey name args) ce c' s)) as [o s1].
  cbn [redisCache_settle await snd redisCache with_redisCache].
  by apply cache_ok_lru_settle.
Qed.

Ltac keeps :=
  repeat first
    [ progress cbv beta zeta
    | apply keeps_withRedis | apply keeps_send
    | apply keeps_await | apply keeps_ret | apply keeps_throw
    | apply keeps_bind; [|intros ?]
    | apply keeps_Promise_all_map; intros ? ].

Lemma keeps_scanDataKeys_entry (contractId blockHeight key : value) :
  keeps_cache_ok (scanDataKeys_entry contractId blockHeight key).
Proof.
  unfold scanDataKeys_entry, exports_getLatestDataBlockHash, exports_getData,
    getLatestDataBlockHash, getData.
  apply keeps_bind; [keeps|intros k]. cbv zeta.
  apply keeps_bind; [keeps|intros n]. cbv zeta.
  apply keeps_bind; [keeps|intros blockHash].
  destruct (falsy blockHash); keeps.
Qed.

(** X10. The cache of lookups stays as [lru-cache] keeps it through every
    exported operation, whatever its arguments and whatever the store
    answers: never more than 1000 entries, never two for one key. *)
Theorem redisCache_within_bound :
  forall (args : list value) (s : Process),
    length (redisCache s) <= 1000 ->
    NoDup (map lru_key (redisCache s)) ->
    Forall (fun op : list value -> M value =>
              length (redisCache (op args s).2) <= 1000
              /\ NoDup (map lru_key (redisCache (op args s).2)))
      [exports_getLatestBlockHeight; exports_getLatestContractBlockHash;
       exports_getContractCode; exports_getLatestAccountBlockHash;
       exports_getAccountData; exports_getLatestDataBlockHash; exports_getData;
       exports_scanDataKeys].
Proof.
  intros args s Hl Hn.
  assert (Hs : cache_ok (redisCache s)) by done.
  repeat apply Forall_cons_2; [..|apply Forall_nil_2]; cbv beta;
    match goal with |- length (redisCache (?op args s).2) <= _ /\ _ =>
      change (cache_ok (redisCache (op args s).2)); clear Hl Hn; revert s Hs;
      change (keeps_cache_ok (op args))
    end;
    unfold exports_getLatestBlockHeight, exports_getLatestContractBlockHash,
      exports_getContractCode, exports_getLatestAccountBlockHash, exports_getAccountData,
      exports_getLatestDataBlockHash, exports_getData, exports_scanDataKeys.
  - unfold getLatestBlockHeight. keeps.
  - unfold getLatestContractBlockHash. keeps.
  - unfold getContractCode. keeps.
  - unfold getLatestAccountBlockHash. keeps.
  - unfold getAccountData. keeps.
  - unfold getLatestDataBlockHash. keeps.
  - unfold getData. keeps.
  - unfold scanDataKeys. apply keeps_withRedis. cbv beta zeta.
    apply keeps_bind; [keeps|intros reply].
    apply keeps_bind; [keeps|intros [newIterator keys]].
    apply keeps_bind; [keeps|intros keys'].
    apply keeps_bind; [|intros data; keeps].
    apply keeps_Promise_all_map. intros x. apply keeps_scanDataKeys_entry.
Qed.

End CacheBound.

(** A scan from a process just started. *)
Lemma redisCache_within_bound_witness :
  let pb := pretty_hex in
  let s := fresh_process (redis_exec db_alice) 0 in
  length (redisCache
            (exports_scanDataKeys
               [VStr (js "alice"); VStr (js "100"); VStr (js "*"); VStr (js "0"); VNum 10]
               s).2) <= 1000.
Proof.
  intros pb s.
  assert (Hl : length (redisCache s) <= 1000) by apply Nat.le_0_l.
  assert (Hn : NoDup (map lru_key (redisCache s))) by constructor.
  pose proof (@redisCache_within_bound pb
                [VStr (js "alice"); VStr (js "100"); VStr (js "*"); VStr (js "0"); VNum 10]
                s Hl Hn) as Hall.
  rewrite Forall_forall in Hall.
  apply (Hall exports_scanDataKeys). do 7 right. by left.
Defined.

(** ** The module cache of the front end *)

Section ModuleCacheTheorems.
Context `{Runtime}.

(** X11. The module cache round trip. A call for a contract whose revision
    is not in the cache fetches the code once, compiles it once and stores
    the module under the key of the contract and revision, even when the
    worker then fails. Every later call for that contract at that revision
    runs the stored module and neither fetches nor compiles. *)
Theorem module_cache_round_trip :
  forall (db : DB) (C : jsstring) (h : Z) (R wasm : bytes)
         (methodName methodArgs : value) (margs : bytes) (g : Globals) (m : WasmModule),
    let key := contract_cacheKey (VStr C) (toString_hex R) in
    let code := buf "code:" ++ Buffer_from C ++ buf ":" ++ R in
    methodArgs_buffer methodArgs = Ok margs ->
    g_redisClient g = true \/ redis_connect = Ok tt ->
    db_strings db !! buf "latest_block_height" = Some (Buffer_from (decimal h)) ->
    db_zsets db !! buf "latest_block_height" = None ->
    latest_revision (default [] (db_zsets db !! (buf "code:" ++ Buffer_from C))) h
    = Some R ->
    db_strings db !! code = Some wasm ->
    db_zsets db !! code = None ->
    contractCache g !! key = None ->
    WebAssembly_compile wasm = Ok m ->
    let first := run (redis_exec db) (runContract (VStr C) methodName methodArgs) g [] in
    first.1.1 = workerPool_runContract (VStr (decimal h)) m (VStr C) methodName margs
    /\ contractCache first.1.2 = <[key := m]> (contractCache g)
    /\ filter (fun ev => is_Compile ev = true) first.2 = [event (Compile wasm)]
    /\ forall (methodName' methodArgs' : value) (margs' : bytes),
         methodArgs_buffer methodArgs' = Ok margs' ->
         run (redis_exec db) (runContract (VStr C) methodName' methodArgs') first.1.2 []
         = (workerPool_runContract (VStr (decimal h)) m (VStr C) methodName' margs',
            first.1.2,
            [event (WorkerRun (VStr (decimal h)) m (VStr C) methodName' margs');
             event (RedisSendCommand
                      [VStr (js "ZREVRANGEBYSCORE"); VStr (js "code:" ++ C);
                       VStr (decimal h); VStr (js "-inf"); VStr (js "LIMIT");
                       VStr (js "0"); VStr (js "1")]);
             event (RedisGet (VStr (js "latest_block_height")))]).
Proof.
  intros db C h R wasm methodName methodArgs margs g m key code
    Hargs Hconn Hh Hz Hrev Hcode Hcz Hmiss Hcomp first.
  destruct (runContract_cache_miss db C h R wasm methodName methodArgs margs g m
              Hargs Hconn Hh Hz Hrev Hcode Hcz Hmiss Hcomp) as (tr0 & Htr0 & Hrun).
  unfold first. rewrite Hrun. cbn [fst snd contractCache].
  split; [done|]. split; [done|]. split.
  - by destruct Htr0 as [-> | ->].
  - intros methodName' methodArgs' margs' Hargs'.
    exact (runContract_cache_hit db C h R methodName' methodArgs' margs'
             {| g_redisClient := true; g_workerPool := true;
                contractCache := <[key := m]> (contractCache g) |} m Hargs' eq_refl
             Hh Hz Hrev (lookup_insert_eq _ _ _)).
Qed.

(** X12. A call that runs alone, with no other call in flight between
    its lookup in the module cache and its write, leaves the cache as it
    was or with one more entry, whatever the store, the engine and the
    worker answer: a module that the engine compiled, stored under a key
    the cache did not have. A compilation that fails is not remembered,
    and such a call replaces or removes no entry. *)
Theorem contractCache_gains_compiled_modules_only :
  forall (srv : Server) (contractId methodName methodArgs : value) (g : Globals),
    let g' := (run srv (runContract contractId methodName methodArgs) g []).1.2 in
    contractCache g' = contractCache g
    \/ exists (hex : jsstring) (wasm : bytes) (m : WasmModule),
         WebAssembly_compile wasm = Ok m
         /\ contractCache g !! contract_cacheKey contractId hex = None
         /\ contractCache g' = <[contract_cacheKey contractId hex := m]> (contractCache g).
Proof.
  intros srv contractId methodName methodArgs g. unfold runContract.
  destruct (methodArgs_buffer methodArgs) as [margs|e]; cbn [try_sync run]; [|by left].
  assert (Hpre : forall (rest : Prog value) (P : Globals -> Prop),
            (forall g0, contractCache g0 = contractCache g -> P g0) ->
            (forall tr, P (run srv rest
                             {| g_redisClient := true; g_workerPool := true;
                                contractCache := contractCache g |} tr).1.2) ->
            P (run srv
                 ((if g_redisClient g then fun k => k tt else Await Connect) (fun _ =>
                  Atomic (write_global (fun g =>
                            {| g_redisClient := g_redisClient g; g_workerPool := true;
                               contractCache := contractCache g |})) (fun _ => rest)))
                 {| g_redisClient := true; g_workerPool := g_workerPool g;
                    contractCache := contractCache g |} []).1.2).
  { intros rest P Hsame Hrest. destruct (g_redisClient g); cbn [run write_global].
    - apply Hrest.
    - destruct (perform srv Connect); cbn [run write_global fst snd].
      + apply Hrest.
      + by apply Hsame. }
  apply Hpre; [by left|]. intros tr. cbn [run].
  destruct (perform srv (RedisGet _)) as [latestBlockHeight|e]; cbn [run fst snd]; [|by left].
  destruct (perform srv (RedisSendCommand _)) as [reply|e]; cbn [run fst snd]; [|by left].
  destruct (first_of reply) as [contractBlockHash|e]; cbn [try_sync run fst snd]; [|by left].
  destruct (toString_hex_of contractBlockHash) as [hex|e];
    cbn [try_sync run fst snd read_global contractCache]; [|by left].
  destruct (contractCache g !! contract_cacheKey contractId hex) as [m|] eqn:Hlook.
  { cbn [run]. destruct (perform srv (WorkerRun _ _ _ _ _)); by left. }
  destruct (Buffer_concat _) as [key|e]; cbn [try_sync run fst snd]; [|by left].
  destruct (perform srv (RedisGetBuffer _)) as [wasmData|e]; cbn [run fst snd]; [|by left].
  destruct (wasm_bytes wasmData) as [wasm|e]; cbn [try_sync run fst snd]; [|by left].
  destruct (perform srv (Compile wasm)) as [m|e] eqn:Hcomp; cbn [run fst snd]; [|by left].
  right. exists hex, wasm, m. split; [exact Hcomp|]. split; [exact Hlook|].
  cbn [write_global]. by destruct (perform srv (WorkerRun _ _ _ _ _)).
Qed.

(** X13. The Redis client is stored before it connects. A first call whose
    [connect] is rejected rejects with that error and leaves the client
    set; from then on no call connects again. *)
Theorem connect_is_attempted_once :
  forall (srv : Server) (contractId methodName methodArgs : value) (margs : bytes)
         (g : Globals) (e : Error),
    methodArgs_buffer methodArgs = Ok margs ->
    g_redisClient g = false ->
    redis_connect = Err e ->
    let first := run srv (runContract contractId methodName methodArgs) g [] in
    first = (Err e,
             {| g_redisClient := true; g_workerPool := g_workerPool g;
                contractCache := contractCache g |},
             [event Connect])
    /\ forall (srv' : Server) (contractId' methodName' methodArgs' : value) (g' : Globals),
         g_redisClient g' = true ->
         let later := run srv' (runContract contractId' methodName' methodArgs') g' [] in
         g_redisClient later.1.2 = true
         /\ Forall (fun ev => is_Connect ev = false) later.2.
Proof.
  intros srv contractId methodName methodArgs margs g e Hargs Hg Hconn first.
  split.
  { unfold first, runContract. rewrite Hargs. cbn [try_sync run]. rewrite Hg.
    cbn [run perform]. by rewrite Hconn. }
  intros srv' contractId' methodName' methodArgs' g' Hg' later.
  unfold later, runContract.
  destruct (methodArgs_buffer methodArgs') as [margs'|e']; cbn [try_sync run];
    [|by split].
  rewrite Hg'. cbn [run write_global g_redisClient].
  destruct (perform srv' (RedisGet _)) as [latestBlockHeight|e']; cbn [run fst snd];
    [|split; [done|by repeat constructor]].
  destruct (perform srv' (RedisSendCommand _)) as [reply|e']; cbn [run fst snd];
    [|split; [done|by repeat constructor]].
  destruct (first_of reply) as [contractBlockHash|e']; cbn [try_sync run fst snd];
    [|split; [done|by repeat constructor]].
  destruct (toString_hex_of contractBlockHash) as [hex|e'];
    cbn [try_sync run fst snd read_global contractCache];
    [|split; [done|by repeat constructor]].
  destruct (contractCache g' !! contract_cacheKey contractId' hex) as [m|].
  { cbn [run]. destruct (perform srv' (WorkerRun _ _ _ _ _));
      (split; [done|by repeat constructor]). }
  destruct (Buffer_concat _) as [key|e']; cbn [try_sync run fst snd];
    [|split; [done|by repeat constructor]].
  destruct (perform srv' (RedisGetBuffer _)) as [wasmData|e']; cbn [run fst snd];
    [|split; [done|by repeat constructor]].
  destruct (wasm_bytes wasmData) as [wasm|e']; cbn [try_sync run fst snd];
    [|split; [done|by repeat constructor]].
  destruct (perform srv' (Compile wasm)) as [m|e']; cbn [run fst snd];
    [|split; [done|by repeat constructor]].
  cbn [write_global]. destruct (perform srv' (WorkerRun _ _ _ _ _));
    (split; [done|by repeat constructor]).
Qed.

End ModuleCacheTheorems.

(** ** Keys of the module cache *)

Lemma split_at_unit (c : N) (x y u v : jsstring) :
  c ∉ x -> c ∉ y -> x ++ c :: u = y ++ c :: v -> x = y /\ u = v.
Proof.
  revert y. induction x as [|a x IH]; intros [|b y] Hx Hy; simpl.
  - by intros [= ->].
  - intros [= <- _]. exfalso. apply Hy. by left.
  - intros [= -> _]. exfalso. apply Hx. by left.
  - intros [= -> Heq]. destruct (IH y) as [-> ->]; try done.
    + intros Hin. apply Hx. by right.
    + intros Hin. apply Hy. by right.
Qed.

Lemma hex_digit_not_colon (a : N) : hex_digit a <> 58%N.
Proof.
  unfold hex_digit. destruct (a <? 10)%N eqn:E.
  - apply N.ltb_lt in E. lia.
  - apply N.ltb_ge in E. lia.
Qed.

Lemma toString_hex_without_colon (b : bytes) : 58%N ∉ toString_hex b.
Proof.
  unfold toString_hex. induction b as [|x b IH]; simpl.
  - apply not_elem_of_nil.
  - rewrite !not_elem_of_cons. repeat split; try done;
      intros Heq; by apply (hex_digit_not_colon _ (eq_sym Heq)).
Qed.

Lemma toString_hex_inj (a b : bytes) : toString_hex a = toString_hex b -> a = b.
Proof. apply (proj1 pretty_hex_faithful). Qed.

(** X14. The key of the module cache tells contracts and revisions apart:
    the text of the contract identifier, a colon, the revision hash in
    hexadecimal and a closing brace are the same for two contracts and
    revisions only when those are the same. *)
Theorem contract_cacheKey_injective :
  forall (C C' : jsstring) (R R' : bytes),
    contract_cacheKey (VStr C) (toString_hex R)
    = contract_cacheKey (VStr C') (toString_hex R') <->
    C = C' /\ R = R'.
Proof.
  intros C C' R R'. split; [|by intros [-> ->]].
  unfold contract_cacheKey. cbn [template]. intros Heq.
  apply (f_equal (@rev N)) in Heq.
  rewrite !rev_app_distr in Heq.
  change (rev (js "}")) with [125%N] in Heq. change (rev (js ":")) with [58%N] in Heq.
  cbn [app] in Heq. injection Heq as Heq. rewrite <- !app_assoc in Heq. cbn [app] in Heq.
  assert (Hno : forall b, 58%N ∉ rev (toString_hex b)).
  { intros b Hin. apply list_elem_of_In, in_rev, list_elem_of_In in Hin.
    by apply (toString_hex_without_colon b). }
  destruct (split_at_unit 58 _ _ _ _ (Hno R) (Hno R') Heq) as [Hh Hc].
  apply (f_equal (@rev N)) in Hh, Hc. rewrite !rev_involutive in Hh, Hc.
  split; [done|]. by apply toString_hex_inj.
Qed.

(** The contract of [alice] at height 100, called when the front end has
    just started, and called again. *)
Lemma module_cache_round_trip_witness :
  let first :=
    @run echo_runtime _ (redis_exec db_alice)
      (runContract (VStr (js "alice")) (VStr (js "get")) (VObj [])) cold [] in
  first.1.1 = Ok (VBuf (buf "ok"))
  /\ filter (fun ev => is_Compile ev = true) first.2
     = [@event echo_runtime _ (Compile (buf "wasm-1"))]
  /\ filter (fun ev => is_Compile ev = true)
       (@run echo_runtime _ (redis_exec db_alice)
          (runContract (VStr (js "alice")) (VStr (js "get")) (VObj [])) first.1.2 []).2
     = [].
Proof.
  intros first.
  destruct (@module_cache_round_trip echo_runtime db_alice (js "alice") 100 rev1
              (buf "wasm-1") (VStr (js "get")) (VObj []) (buf "{}") cold (buf "wasm-1")
              eq_refl (or_intror eq_refl) eq_refl eq_refl eq_refl eq_refl eq_refl eq_refl
              eq_refl) as (H1 & _ & H3 & H4).
  split; [exact H1|]. split; [exact H3|].
  fold first in H4. by rewrite (H4 (VStr (js "get")) (VObj []) (buf "{}") eq_refl).
Defined.

(** A front end that cannot reach Redis. *)
Lemma connect_is_attempted_once_witness :
  let first :=
    @run offline_runtime _ (redis_exec db_alice)
      (runContract (VStr (js "alice")) (VStr (js "get")) (VObj [])) cold [] in
  g_redisClient first.1.2 = true
  /\ Forall (fun ev => is_Connect ev = false)
       (@run offline_runtime _ (redis_exec db_alice)
          (runContract (VStr (js "alice")) (VStr (js "get")) (VObj [])) first.1.2 []).2.
Proof.
  intros first.
  destruct (@connect_is_attempted_once offline_runtime (redis_exec db_alice)
              (VStr (js "alice")) (VStr (js "get")) (VObj []) (buf "{}") cold
              {| ename := js "Error"; emessage := js "connect ECONNREFUSED 127.0.0.1:6379";
                 ecode := Some (js "ECONNREFUSED") |} eq_refl eq_refl eq_refl)
    as [H1 H2].
  fold first in H1. split; [by rewrite H1|].
  apply H2. by rewrite H1.
Defined.

(** ** The window [isJSON] looks through *)

Lemma toString_utf8_ascii_app (b rest : bytes) :
  forallb (fun x => (Byte.to_N x <? 0x80)%N) b = true ->
  toString_utf8 (b ++ rest) = map Byte.to_N b ++ toString_utf8 rest.
Proof.
  unfold toString_utf8. induction b as [|x b IH]; [done|].
  intros [Hx Hb]%andb_prop. pose proof Hx as Hx'%N.ltb_lt.
  cbn [app utf8_decode_from map].
  change (u8_step u8_init (Byte.to_N x)) with (u8_start (Byte.to_N x)). unfold u8_start.
  replace (Byte.to_N x <=? 0x7F)%N with true by (symmetry; apply N.leb_le; lia).
  cbn [app flat_map]. rewrite (IH Hb). unfold utf16_units at 1.
  replace (Byte.to_N x <? 0x10000)%N with true by (symmetry; apply N.ltb_lt; lia).
  done.
Qed.

Lemma is_ascii_space_split (ws : bytes) :
  forallb is_ascii_space ws = true ->
  forallb (fun x => (Byte.to_N x <? 0x80)%N) ws = true
  /\ Forall (fun u => is_js_space u = true) (map Byte.to_N ws).
Proof.
  induction ws as [|x ws IH]; [by split|].
  cbn [forallb map]. intros [[Hs Ha]%andb_prop Hws]%andb_prop.
  destruct (IH Hws) as [IH1 IH2]. split; [by rewrite Ha|by constructor].
Qed.

Lemma trimStart_spaces (sp t : jsstring) :
  Forall (fun u => is_js_space u = true) sp -> trimStart (sp ++ t) = trimStart t.
Proof. induction 1 as [|u sp Hu _ IH]; [done|]. cbn [app trimStart]. by rewrite Hu. Qed.

Lemma trimStart_keeps_last (l : jsstring) (c : N) :
  is_js_space c = false -> exists x, trimStart (l ++ [c]) = x ++ [c].
Proof.
  intros Hc. induction l as [|u l [x IH]].
  - exists []. cbn [app trimStart]. by rewrite Hc.
  - cbn [app trimStart]. destruct (is_js_space u).
    + by exists x.
    + by exists (u :: l).
Qed.

Lemma trim_spaces_then (sp t : jsstring) (c : N) :
  Forall (fun u => is_js_space u = true) sp -> is_js_space c = false ->
  exists t', trim (sp ++ c :: t) = c :: t'.
Proof.
  intros Hsp Hc. unfold trim. rewrite (trimStart_spaces sp _ Hsp).
  cbn [trimStart]. rewrite Hc. cbn [rev].
  destruct (trimStart_keeps_last (rev t) c Hc) as [x ->].
  rewrite rev_app_distr. by eexists.
Qed.

Lemma trim_spaces (sp : jsstring) :
  Forall (fun u => is_js_space u = true) sp -> trim sp = [].
Proof.
  intros Hsp. unfold trim. rewrite <- (app_nil_r sp), (trimStart_spaces sp [] Hsp). done.
Qed.

Section IsJSONWindow.
Context `{JSONParse}.

(** X15. [isJSON] looks for the opening bracket in the first 1001 bytes
    only. After up to 1000 bytes of ASCII white space a bracket is seen,
    and the answer is whether the whole buffer parses. After 1001 or more
    the buffer is reported as JSON whatever follows, parseable or not; so
    is the empty buffer. *)
Theorem isJSON_whitespace_window :
  forall (ws rest : bytes),
    forallb is_ascii_space ws = true ->
    (length ws <= 1000 ->
     isJSON (ws ++ buf "[" ++ rest)
     = match JSON_parse (toString_utf8 (ws ++ buf "[" ++ rest)) with
       | Ok _ => true
       | Err _ => false
       end)
    /\ (1001 <= length ws -> isJSON (ws ++ rest) = true)
    /\ isJSON [] = true.
Proof.
  intros ws rest Hws. destruct (is_ascii_space_split ws Hws) as [Hascii Hsp].
  split; [|split].
  - intros Hl. unfold isJSON, MAX_WHITESPACE.
    rewrite take_app_ge by lia.
    change (buf "[" ++ rest) with (x5b :: rest) at 1.
    replace (1000 + 1 - length ws) with (S (1000 - length ws)) by lia.
    cbn [take]. rewrite (toString_utf8_ascii_app ws _ Hascii).
    change (x5b :: take (1000 - length ws) rest)
      with ([x5b] ++ take (1000 - length ws) rest).
    rewrite (toString_utf8_ascii_app [x5b] (take (1000 - length ws) rest) eq_refl).
    cbn [map app].
    destruct (trim_spaces_then (map Byte.to_N ws) (toString_utf8 (take (1000 - length ws) rest))
                (Byte.to_N x5b) Hsp eq_refl) as [t' ->].
    change (startsWith (Byte.to_N x5b :: t') (js "[")) with (startsWith t' []).
    by destruct t'.
  - intros Hl. unfold isJSON, MAX_WHITESPACE.
    rewrite take_app_le by lia.
    assert (Hws' : forallb is_ascii_space (take (1000 + 1) ws) = true).
    { apply forallb_forall. intros x Hx. rewrite forallb_forall in Hws. apply Hws.
      apply list_elem_of_In. apply list_elem_of_In in Hx.
      apply elem_of_take in Hx as (i & Hi & _). by apply list_elem_of_lookup_2 in Hi. }
    destruct (is_ascii_space_split _ Hws') as [Hascii' Hsp'].
    rewrite <- (app_nil_r (take (1000 + 1) ws)).
    rewrite (toString_utf8_ascii_app _ [] Hascii'). cbn [toString_utf8 utf8_decode_from].
    change (flat_map utf16_units (match u8_needed u8_init with O => [] | S _ => [0xFFFD%N] end))
      with (@nil N).
    rewrite app_nil_r, (trim_spaces _ Hsp'). done.
  - done.
Qed.

End IsJSONWindow.

(** A thousand spaces before the bracket, and a thousand and one. *)
Lemma isJSON_whitespace_window_witness :
  @isJSON parse_nothing (repeat x20 1000 ++ buf "[" ++ buf "1, 2") = false
  /\ @isJSON parse_nothing (repeat x20 1001 ++ buf "[1, 2") = true.
Proof.
  destruct (@isJSON_whitespace_window parse_nothing (repeat x20 1000) (buf "1, 2"))
    as (H1 & _ & _); [by vm_compute|].
  destruct (@isJSON_whitespace_window parse_nothing (repeat x20 1001) (buf "[1, 2"))
    as (_ & H2 & _); [by vm_compute|].
  split.
  - rewrite H1; [done|]. rewrite repeat_length. lia.
  - apply H2. rewrite repeat_length. lia.
Defined.

(** ** Records that decode alike *)

Lemma le_to_N_inj (a b : bytes) :
  length a = length b -> le_to_N a = le_to_N b -> a = b.
Proof.
  revert b. induction a as [|x a IH]; intros [|y b]; simpl; try done.
  intros [= Hl] Heq.
  pose proof (Byte.to_N_bounded x). pose proof (Byte.to_N_bounded y).
  assert (Hxy : Byte.to_N x = Byte.to_N y) by lia.
  f_equal; [by apply to_N_inj|]. apply IH; [done|lia].
Qed.

Lemma byte_numbers_inj (a b : bytes) : byte_numbers a = byte_numbers b -> a = b.
Proof.
  unfold byte_numbers. revert b. induction a as [|x a IH]; intros [|y b]; simpl; try done.
  intros [= Hxy Hab]. f_equal; [|by apply IH]. apply to_N_inj. lia.
Qed.

Lemma split_72 (b : bytes) :
  b = take 16 b ++ take 16 (drop 16 b) ++ take 32 (drop 32 b) ++ drop 64 b.
Proof.
  rewrite <- (take_drop 16 b) at 1. f_equal.
  rewrite <- (take_drop 16 (drop 16 b)) at 1. f_equal. rewrite drop_drop.
  rewrite <- (take_drop 32 (drop (16 + 16) b)) at 1. f_equal. by rewrite drop_drop.
Qed.

(** X16. The decoder of account records tells records apart: two buffers
    of 72 bytes that decode to the same account are the same buffer. *)
Theorem deserialize_Account_injective :
  forall b b' : bytes,
    length b = 72 -> length b' = 72 ->
    deserialize Account_fields b = deserialize Account_fields b' ->
    b = b'.
Proof.
  intros b b' Hl Hl'.
  rewrite (proj1 (deserialize_Account b) Hl), (proj1 (deserialize_Account b') Hl').
  unfold Account. intros [= H1 H2 H3 H4].
  apply N2Z.inj in H1, H2, H4.
  apply le_to_N_inj in H1; [|by rewrite !length_take, ?length_drop; lia].
  apply le_to_N_inj in H2; [|by rewrite !length_take, ?length_drop; lia].
  apply le_to_N_inj in H4; [|by rewrite !length_take, ?length_drop; lia].
  apply byte_numbers_inj in H3.
  rewrite (split_72 b), (split_72 b'), H1, H2, H3. do 3 f_equal.
  rewrite <- (take_ge (drop 64 b) 8), <- (take_ge (drop 64 b') 8), H4;
    [done|rewrite length_drop; lia..].
Qed.

(** Two records that differ in the balance. *)
Lemma deserialize_Account_injective_witness :
  deserialize Account_fields (account_record 5 0 (repeat x00 32) 100)
  <> deserialize Account_fields (account_record 7 0 (repeat x00 32) 100).
Proof.
  intros Heq.
  pose proof (deserialize_Account_injective
                (account_record 5 0 (repeat x00 32) 100)
                (account_record 7 0 (repeat x00 32) 100) eq_refl eq_refl Heq) as Hb.
  by vm_compute in Hb.
Defined.

(** ** [viewAccount] on a store without a latest height *)

Section ViewAccountWithoutHeight.
Context `{PrettyBuffer} `{Bs58}.

(** X17. When the store has no [latest_block_height], the height is
    [null], the revision lookup is refused by the Redis client, which does
    not send [null], and [viewAccount] answers HTTP 400 with the text of
    that error, whatever the account. *)
Theorem viewAccount_without_height :
  forall (db : DB) (s : Process) (A : jsstring) (body : value),
    server s = redis_exec db ->
    db_strings db !! buf "latest_block_height" = None ->
    db_zsets db !! buf "latest_block_height" = None ->
    lru_find (js "getLatestBlockHeight") (redisCache s) = None ->
    lru_find (cacheKey (js "getLatestAccountBlockHash") [VStr A; VNull]) (redisCache s)
    = None ->
    exists (message : jsstring) (s' : Process),
      viewAccount body (VStr A) s = (Ok (RespThrow 400 message), s')
      /\ wire s' = [buf "GET"; buf "latest_block_height"] :: wire s.
Proof.
  intros db s A body Hs Hh Hz Hm1 Hm2.
  destruct (withRedis_send_miss (js "getLatestBlockHeight") true getLatestBlockHeight
              [] s [buf "GET"; buf "latest_block_height"] (Ok VNull) Hm1)
    as (s1 & Heq1 & Hs1 & Hn1 & Hc1 & Hw1).
  { intros s0 Hs0. rewrite (getLatestBlockHeight_eq db s0 []); [|by rewrite Hs0|done].
    by rewrite Hh. }
  assert (Hm2' : lru_find (cacheKey (js "getLatestAccountBlockHash") [VStr A; VNull])
                   (redisCache s1) = None).
  { rewrite Hc1. apply lru_find_set_other; [|done].
    intros Heq. by apply (height_key_not_revision_key (VStr A) VNull). }
  eexists _, _. unfold viewAccount, viewAccount_try, bind.
  unfold exports_getLatestBlockHeight, exports_getLatestAccountBlockHash. rewrite Heq1.
  rewrite (withRedis_miss (js "getLatestAccountBlockHash") false getLatestAccountBlockHash
             [VStr A; VNull] s1 _ _ (redisCache s1) (lru_get_None _ _ _ Hm2') eq_refl).
  cbn [fst snd]. split; [reflexivity|]. cbn [wire with_redisCache with_redisClient].
  exact Hw1.
Qed.

End ViewAccountWithoutHeight.

(** A store that holds no latest height. *)
Lemma viewAccount_without_height_witness :
  exists (message : jsstring) (s' : Process),
    @viewAccount pretty_hex bs58_hex (VObj [(js "id", VNum 1)]) (VStr (js "alice"))
      (fresh_process (redis_exec db_e_acute) 0)
    = (Ok (RespThrow 400 message), s')
    /\ wire s' = [[buf "GET"; buf "latest_block_height"]].
Proof.
  apply (@viewAccount_without_height pretty_hex bs58_hex db_e_acute
           (fresh_process (redis_exec db_e_acute) 0) (js "alice")); reflexivity.
Defined.

(** ** The two handlers on one error *)

Lemma error_toString_TypeError (e : Error) (msg : jsstring) :
  ename e = js "TypeError" -> emessage e = msg -> msg <> [] ->
  error_toString e = js "TypeError" ++ js ": " ++ msg.
Proof.
  intros Hn Hm Hne. unfold error_toString. rewrite Hn, Hm.
  by destruct msg.
Qed.

Section HandlersOnTypeError.
Context `{Runtime} `{JSONParse}.

(** X18. [runViewMethod] tests the message of an error, [handleError] its
    [toString()], which puts the name before the message. For the error a
    missing method gives, a [TypeError] whose message is [m is not a
    function] with no capital T in [m], [handleError] answers that the
    method was not found, and [runViewMethod] does not: it throws the
    error on, also at the end of a call that ran a cached module. *)
Theorem handlers_disagree_on_TypeError :
  forall (db : DB) (C : jsstring) (h : Z) (R : bytes) (methodName methodArgs : value)
         (margs : bytes) (g : Globals) (md : WasmModule) (e : Error) (m : jsstring)
         (body id : value),
    ename e = js "TypeError" ->
    emessage e = m ++ js " is not a function" ->
    84%N ∉ m ->
    Forall (fun u => is_line_terminator u = false) m ->
    startsWith (emessage e) (js "abort:") = false ->
    member body "id" = Ok id ->
    methodArgs_buffer methodArgs = Ok margs ->
    g_redisClient g = true ->
    db_strings db !! buf "latest_block_height" = Some (Buffer_from (decimal h)) ->
    db_zsets db !! buf "latest_block_height" = None ->
    latest_revision (default [] (db_zsets db !! (buf "code:" ++ Buffer_from C))) h
    = Some R ->
    contractCache g !! contract_cacheKey (VStr C) (toString_hex R) = Some md ->
    workerPool_runContract (VStr (decimal h)) md (VStr C) methodName margs = Err e ->
    handleError body (VStr C) e
    = Ok (RespBody (viewCallError id MethodNotFound_message))
    /\ runViewMethod_catch methodName e = Err e
    /\ (runViewMethod (redis_exec db) (VStr C) methodName methodArgs g).1.1 = Err e.
Proof.
  intros db C h R methodName methodArgs margs g md e m body id
    Hn Hm HT Hlt Habort Hid Hargs Hg Hh Hz Hrev Hhit Hw.
  assert (Hcatch : runViewMethod_catch methodName e = Err e).
  { unfold runViewMethod_catch, test_abort_prefix. rewrite Habort.
    rewrite test_TypeError_without_T; [done|].
    rewrite Hm. apply not_elem_of_app. split; [done|].
    apply (bool_decide_unpack _). vm_compute. exact I. }
  split; [|split; [exact Hcatch|]].
  - unfold handleError.
    rewrite (error_toString_TypeError e _ Hn Hm) by (by destruct m).
    assert (Ht : test_TypeError_not_a_function
                   (js "TypeError" ++ js ": " ++ m ++ js " is not a function") = true).
    { pose proof (test_TypeError_app [] (js ": " ++ m) [] ) as Ht.
      cbn [app] in Ht. rewrite app_nil_r, <- app_assoc in Ht. apply Ht.
      apply Forall_app. split; [by repeat constructor|done]. }
    by rewrite Ht, Hid.
  - unfold runViewMethod.
    rewrite (runContract_cache_hit db C h R methodName methodArgs margs g md
               Hargs Hg Hh Hz Hrev Hhit), Hw. exact Hcatch.
Qed.

End HandlersOnTypeError.

(** The method [get] is missing from the module of [alice]. *)
Lemma handlers_disagree_on_TypeError_witness :
  let e := TypeError "wasm.instance.exports[methodName] is not a function" in
  handleError (VObj [(js "id", VNum 1)]) (VStr (js "alice")) e
  = Ok (RespBody (viewCallError (VNum 1) MethodNotFound_message))
  /\ @runViewMethod_catch (VStr (js "get")) e = Err e
  /\ (@runViewMethod no_method_runtime parse_nothing (redis_exec db_alice)
        (VStr (js "alice")) (VStr (js "get")) (VObj [])
        (@alice_compiled no_method_runtime (buf "wasm-1"))).1.1 = Err e.
Proof.
  intros e.
  apply (@handlers_disagree_on_TypeError no_method_runtime parse_nothing db_alice
           (js "alice") 100 rev1 (VStr (js "get")) (VObj []) (buf "{}")
           (@alice_compiled no_method_runtime (buf "wasm-1")) (buf "wasm-1") e
           (js "wasm.instance.exports[methodName]"));
    try reflexivity.
  - apply (bool_decide_unpack _). vm_compute. exact I.
  - by repeat constructor.
Defined.

(** ** A repeated [viewAccount] *)

Lemma lru_find_cons_ne (key : jsstring) (e : lru_entry) (c : list lru_entry) :
  lru_key e <> key -> lru_find key (e :: c) = lru_find key c.
Proof. intros Hne. unfold lru_find. cbn [find]. by rewrite bool_decide_eq_false_2. Qed.

Lemma lru_find_cons_eq (key : jsstring) (e : lru_entry) (c : list lru_entry) :
  lru_key e = key -> lru_find key (e :: c) = Some e.
Proof. intros Heq. unfold lru_find. cbn [find]. by rewrite bool_decide_eq_true_2. Qed.

Lemma lru_without_cons_ne (key : jsstring) (e : lru_entry) (c : list lru_entry) :
  lru_key e <> key -> lru_without key (e :: c) = e :: lru_without key c.
Proof. intros Hne. unfold lru_without. rewrite filter_cons. by rewrite decide_True. Qed.

Lemma lru_without_cons_eq (key : jsstring) (e : lru_entry) (c : list lru_entry) :
  lru_key e = key -> lru_without key (e :: c) = lru_without key c.
Proof.
  intros Heq. unfold lru_without. rewrite filter_cons.
  rewrite decide_False; [done|]. intros Hne. by apply Hne.
Qed.

(** Three entries set one after the other are the three most recent. *)
Lemma lru_set_3 (k1 k2 k3 : jsstring) (o1 o2 o3 : outcome value) (a1 a2 a3 t : Z)
    (c : list lru_entry) :
  k1 <> k2 -> k1 <> k3 -> k2 <> k3 ->
  exists rest,
    lru_set k3 o3 a3 t (lru_set k2 o2 a2 t (lru_set k1 o1 a1 t c))
    = {| lru_key := k3; lru_value := o3;
         lru_now := if (a3 =? 0)%Z then 0%Z else t; lru_maxAge := a3 |}
      :: {| lru_key := k2; lru_value := o2;
            lru_now := if (a2 =? 0)%Z then 0%Z else t; lru_maxAge := a2 |}
      :: {| lru_key := k1; lru_value := o1;
            lru_now := if (a1 =? 0)%Z then 0%Z else t; lru_maxAge := a1 |}
      :: rest.
Proof.
  intros H12 H13 H23. unfold lru_set, LRU_max.
  change 1000 with (S (S (S 997))). cbn [take].
  rewrite (lru_without_cons_ne k2) by done. cbn [take].
  rewrite (lru_without_cons_ne k3) by (cbn [lru_key]; congruence).
  rewrite (lru_without_cons_ne k3) by done. cbn [take].
  by eexists.
Qed.

Section RepeatedViewAccount.
Context `{PrettyBuffer} `{Bs58}.

(** The process after a [viewAccount] that found a record, none of its
    three lookups having been cached: the three answers are the most
    recent entries of the cache. *)
Lemma viewAccount_record_state (db : DB) (s : Process) (A : jsstring) (h : Z) (R b : bytes)
    (body : value) :
  let key : bytes := buf "account-data:" ++ Buffer_from A ++ buf ":" ++ R in
  server s = redis_exec db ->
  db_strings db !! buf "latest_block_height" = Some (Buffer_from (decimal h)) ->
  db_zsets db !! buf "latest_block_height" = None ->
  lru_find (js "getLatestBlockHeight") (redisCache s) = None ->
  lru_find (cacheKey (js "getLatestAccountBlockHash") [VStr A; VStr (decimal h)])
    (redisCache s) = None ->
  lru_find (cacheKey (js "getAccountData") [VStr A; VBuf R]) (redisCache s) = None ->
  latest_revision (default [] (db_zsets db !! (buf "account:" ++ Buffer_from A))) h = Some R ->
  db_strings db !! key = Some b ->
  db_zsets db !! key = None ->
  exists s3,
    (viewAccount body (VStr A) s).2 = s3
    /\ redisCache s3
       = lru_set (cacheKey (js "getAccountData") [VStr A; VBuf R]) (Ok (VBuf b)) 0
           (Date_now s)
           (lru_set (cacheKey (js "getLatestAccountBlockHash") [VStr A; VStr (decimal h)])
              (Ok (VBuf R)) 0 (Date_now s)
              (lru_set (js "getLatestBlockHeight") (Ok (VStr (decimal h)))
                 BLOCK_INDEX_CACHE_TIME (Date_now s) (redisCache s)))
    /\ wire s3
       = [buf "GET"; key]
         :: [buf "ZREVRANGEBYSCORE"; buf "account:" ++ Buffer_from A; Buffer_from (decimal h);
             buf "-inf"; buf "LIMIT"; buf "0"; buf "1"]
         :: [buf "GET"; buf "latest_block_height"] :: wire s.
Proof.
  intros key Hs Hh Hz Hm1 Hm2 Hm3 HR Hk Hkz.
  destruct (withRedis_send_miss (js "getLatestBlockHeight") true getLatestBlockHeight
              [] s [buf "GET"; buf "latest_block_height"] (Ok (VStr (decimal h))) Hm1)
    as (s1 & Heq1 & Hs1 & Hn1 & Hc1 & Hw1).
  { intros s0 Hs0. rewrite (getLatestBlockHeight_eq db s0 []); [|by rewrite Hs0|done].
    by rewrite Hh, toString_decimal. }
  assert (Hm2' : lru_find (cacheKey (js "getLatestAccountBlockHash")
                             [VStr A; VStr (decimal h)]) (redisCache s1) = None).
  { rewrite Hc1. apply lru_find_set_other; [|done].
    intros Heq. by apply (height_key_not_revision_key (VStr A) (VStr (decimal h))). }
  destruct (withRedis_send_miss (js "getLatestAccountBlockHash") false
              getLatestAccountBlockHash [VStr A; VStr (decimal h)] s1 _ _ Hm2'
              (fun s0 Hs0 => getLatestAccountBlockHash_eq db s0 A (VStr (decimal h)) _ h
                               (eq_trans Hs0 (eq_trans Hs1 Hs))
                               (wire_arg_decimal h) (parse_bound_decimal h)))
    as (s2 & Heq2 & Hs2 & Hn2 & Hc2 & Hw2).
  rewrite HR in Heq2, Hc2.
  assert (Hm3' : lru_find (cacheKey (js "getAccountData") [VStr A; VBuf R])
                   (redisCache s2) = None).
  { rewrite Hc2, Hc1.
    apply lru_find_set_other; [apply record_key_not_revision_key|].
    apply lru_find_set_other; [apply record_key_not_height_key|done]. }
  destruct (withRedis_send_miss (js "getAccountData") false getAccountData
              [VStr A; VBuf R] s2 [buf "GET"; key] (Ok (VBuf b)) Hm3')
    as (s3 & Heq3 & Hs3 & Hn3 & Hc3 & Hw3).
  { intros s0 Hs0. rewrite getAccountData_get.
    rewrite (rc_get_buffer db _ s0); [|by rewrite Hs0, Hs2, Hs1|done].
    unfold key in Hk |- *. by rewrite Hk. }
  exists s3. split.
  - unfold viewAccount, viewAccount_try, bind.
    unfold exports_getLatestBlockHeight, exports_getLatestAccountBlockHash,
      exports_getAccountData.
    rewrite Heq1, Heq2. cbn [falsy]. rewrite Heq3. cbn [falsy]. unfold await.
    destruct (deserialize Account_fields b) as [account|e]; [|done].
    destruct (member body "id") as [id|e]; [|done].
    by destruct account.
  - split.
    + rewrite Hc3, Hc2, Hc1, Hn2, Hn1. reflexivity.
    + rewrite Hw3, Hw2, Hw1. done.
Qed.

(** X19. A [viewAccount] that found the record of an account caches its
    three lookups. When the account is viewed again within 500
    milliseconds, whatever the store holds by then and whether it can be
    reached, nothing is sent to it, and the answer is the one the first
    call had for that request body. *)
Theorem viewAccount_again_from_cache :
  forall (db : DB) (s : Process) (A : jsstring) (h : Z) (R b : bytes)
         (body body' : value) (srv' : Server) (now' : Z),
    let key : bytes := buf "account-data:" ++ Buffer_from A ++ buf ":" ++ R in
    server s = redis_exec db ->
    db_strings db !! buf "latest_block_height" = Some (Buffer_from (decimal h)) ->
    db_zsets db !! buf "latest_block_height" = None ->
    lru_find (js "getLatestBlockHeight") (redisCache s) = None ->
    lru_find (cacheKey (js "getLatestAccountBlockHash") [VStr A; VStr (decimal h)])
      (redisCache s) = None ->
    lru_find (cacheKey (js "getAccountData") [VStr A; VBuf R]) (redisCache s) = None ->
    latest_revision (default [] (db_zsets db !! (buf "account:" ++ Buffer_from A))) h
    = Some R ->
    db_strings db !! key = Some b ->
    db_zsets db !! key = None ->
    (now' - Date_now s <= 500)%Z ->
    let s3 := (viewAccount body (VStr A) s).2 in
    let again := viewAccount body' (VStr A) (later s3 srv' now') in
    again.1 = (viewAccount body' (VStr A) s).1
    /\ wire again.2 = wire s3.
Proof.
  intros db s A h R b body body' srv' now' key Hs Hh Hz Hm1 Hm2 Hm3 HR Hk Hkz Hnow s3 again.
  destruct (viewAccount_record_state db s A h R b body Hs Hh Hz Hm1 Hm2 Hm3 HR Hk Hkz)
    as (s3' & Hs3 & Hc3 & _).
  fold s3 in Hs3. subst s3'.
  rewrite (viewAccount_record db s A h R b body' Hs Hh Hz Hm1 Hm2 Hm3 HR Hk Hkz).
  set (k1 := js "getLatestBlockHeight") in *.
  set (k2 := cacheKey (js "getLatestAccountBlockHash") [VStr A; VStr (decimal h)]) in *.
  set (k3 := cacheKey (js "getAccountData") [VStr A; VBuf R]) in *.
  assert (H12 : k1 <> k2) by apply height_key_not_revision_key.
  assert (H31 : k3 <> k1) by apply record_key_not_height_key.
  assert (H32 : k3 <> k2) by apply record_key_not_revision_key.
  destruct (lru_set_3 k1 k2 k3 (Ok (VStr (decimal h))) (Ok (VBuf R)) (Ok (VBuf b))
              BLOCK_INDEX_CACHE_TIME 0 0 (Date_now s) (redisCache s)) as [rest Hrest];
    [done..|congruence|congruence|].
  rewrite Hrest in Hc3. cbn [Z.eqb BLOCK_INDEX_CACHE_TIME] in Hc3.
  set (e3 := {| lru_key := k3; lru_value := Ok (VBuf b); lru_now := 0; lru_maxAge := 0 |})
    in *.
  set (e2 := {| lru_key := k2; lru_value := Ok (VBuf R); lru_now := 0; lru_maxAge := 0 |})
    in *.
  set (e1 := {| lru_key := k1; lru_value := Ok (VStr (decimal h)); lru_now := Date_now s;
                lru_maxAge := 500 |}) in *.
  assert (Hg1 : lru_get k1 now' (e3 :: e2 :: e1 :: rest)
                = (Some (Ok (VStr (decimal h))), e1 :: e3 :: e2 :: lru_without k1 rest)).
  { rewrite (lru_get_hit k1 now' _ e1).
    - by rewrite !lru_without_cons_ne, lru_without_cons_eq by done.
    - by rewrite !lru_find_cons_ne, lru_find_cons_eq by done.
    - unfold lru_stale. cbn [lru_maxAge lru_now e1]. cbn [Z.eqb].
      apply Z.ltb_ge. lia. }
  assert (Hg2 : lru_get k2 now' (e1 :: e3 :: e2 :: lru_without k1 rest)
                = (Some (Ok (VBuf R)),
                   e2 :: e1 :: e3 :: lru_without k2 (lru_without k1 rest))).
  { rewrite (lru_get_hit k2 now' _ e2).
    - by rewrite !lru_without_cons_ne, lru_without_cons_eq by done.
    - by rewrite !lru_find_cons_ne, lru_find_cons_eq by done.
    - done. }
  assert (Hg3 : lru_get k3 now' (e2 :: e1 :: e3 :: lru_without k2 (lru_without k1 rest))
                = (Some (Ok (VBuf b)),
                   e3 :: e2 :: e1
                   :: lru_without k3 (lru_without k2 (lru_without k1 rest)))).
  { rewrite (lru_get_hit k3 now' _ e3).
    - by rewrite !lru_without_cons_ne, lru_without_cons_eq by (done || congruence).
    - by rewrite !lru_find_cons_ne, lru_find_cons_eq by (done || congruence).
    - done. }
  unfold again, viewAccount, viewAccount_try, bind.
  unfold exports_getLatestBlockHeight, exports_getLatestAccountBlockHash,
    exports_getAccountData.
  rewrite (withRedis_hit (js "getLatestBlockHeight") true getLatestBlockHeight []
             (later s3 srv' now') (Ok (VStr (decimal h)))
             (e1 :: e3 :: e2 :: lru_without k1 rest));
    [|cbn [redisCache Date_now later]; rewrite Hc3; exact Hg1].
  rewrite (withRedis_hit (js "getLatestAccountBlockHash") false getLatestAccountBlockHash
             [VStr A; VStr (decimal h)] _ (Ok (VBuf R))
             (e2 :: e1 :: e3 :: lru_without k2 (lru_without k1 rest)));
    [|exact Hg2].
  cbn [falsy].
  rewrite (withRedis_hit (js "getAccountData") false getAccountData
             [VStr A; VBuf R] _ (Ok (VBuf b))
             (e3 :: e2 :: e1 :: lru_without k3 (lru_without k2 (lru_without k1 rest))));
    [|exact Hg3].
  cbn [falsy]. unfold await.
  destruct (deserialize Account_fields b) as [account|e]; [|done].
  destruct (member body' "id") as [id|e]; [|done].
  by destruct account.
Qed.

End RepeatedViewAccount.

(** [alice] is viewed, and viewed again 400 milliseconds later, when the
    store is down. *)
Lemma viewAccount_again_from_cache_witness :
  let s := fresh_process (redis_exec db_alice) 0 in
  let body := VObj [(js "id", VNum 1)] in
  let s3 := (@viewAccount pretty_hex bs58_hex body (VStr (js "alice")) s).2 in
  let again :=
    @viewAccount pretty_hex bs58_hex body (VStr (js "alice")) (later s3 server_down 400) in
  again.1 = (@viewAccount pretty_hex bs58_hex body (VStr (js "alice")) s).1
  /\ wire again.2 = wire s3.
Proof.
  intros s body s3 again.
  apply (@viewAccount_again_from_cache pretty_hex bs58_hex db_alice s (js "alice") 100 rev1
           (account_record 5 0 (repeat x00 32) 100) body body server_down 400);
    try reflexivity.
  by vm_compute.
Defined.

(** ** Calls in lock step *)

Section LockStep.
Context `{Runtime}.

(** X20. The bound of one compilation per call is reached. When [n] calls
    for one contract whose module is not cached are resumed in turn, each
    of them looks the module up before any of them has stored it: after
    four rounds every call has started a compilation of the same code. *)
Theorem lockstep_calls_all_compile :
  forall (db : DB) (C : jsstring) (h : Z) (R wasm : bytes) (methodName methodArgs : value)
         (margs : bytes) (cache : gmap jsstring WasmModule) (n : nat),
    let code : bytes := buf "code:" ++ Buffer_from C ++ buf ":" ++ R in
    methodArgs_buffer methodArgs = Ok margs ->
    db_strings db !! buf "latest_block_height" = Some (Buffer_from (decimal h)) ->
    db_zsets db !! buf "latest_block_height" = None ->
    latest_revision (default [] (db_zsets db !! (buf "code:" ++ Buffer_from C))) h
    = Some R ->
    db_strings db !! code = Some wasm ->
    db_zsets db !! code = None ->
    cache !! contract_cacheKey (VStr C) (toString_hex R) = None ->
    let l := schedule (redis_exec db)
               {| calls := replicate n (runContract (VStr C) methodName methodArgs);
                  globals := {| g_redisClient := true; g_workerPool := true;
                                contractCache := cache |};
                  events := [] |}
               (round_robin n 4) in
    compilations (events l) = n
    /\ filter (fun ev => is_Compile ev = true) (events l)
       = replicate n (event (Compile wasm))
    /\ contractCache (globals l) = cache.
Proof.
  intros db C h R wasm methodName methodArgs margs cache n code
    Hargs Hh Hz Hrev Hcode Hcz Hmiss l.
  destruct (lockstep_four_rounds db C h R wasm methodName methodArgs margs cache n
              Hargs Hh Hz Hrev Hcode Hcz Hmiss) as [p Hl].
  unfold l. rewrite Hl. clear Hl. cbn [events globals contractCache].
  split; [|split; [|done]].
  - rewrite !compilations_replicate. cbn [is_Compile event projT2]. unfold compilations.
    simpl. lia.
  - rewrite !list.filter_app.
    assert (Hf : forall (ev : Event) (b : bool), is_Compile ev = b ->
               filter (fun ev => is_Compile ev = true) (replicate n ev)
               = if b then replicate n ev else []).
    { intros ev b Hb. induction n as [|k IH]; [by destruct b|].
      cbn [replicate]. rewrite filter_cons, IH.
      destruct b; [by rewrite decide_True|]. rewrite decide_False; [done|].
      by rewrite Hb. }
    rewrite (Hf (event (Compile wasm)) true eq_refl).
    rewrite (Hf (event (RedisGetBuffer _)) false eq_refl).
    rewrite (Hf (event (RedisSendCommand _)) false eq_refl).
    rewrite (Hf (event (RedisGet _)) false eq_refl).
    by rewrite !app_nil_r.
Qed.

End LockStep.

(** Three calls for [alice] in lock step. *)
Lemma lockstep_calls_all_compile_witness :
  compilations
    (events (@schedule echo_runtime (redis_exec db_alice)
               {| calls := replicate 3
                             (runContract (VStr (js "alice")) (VStr (js "get")) (VObj []));
                  globals := warm; events := [] |}
               (round_robin 3 4))) = 3.
Proof.
  exact (proj1 (@lockstep_calls_all_compile echo_runtime db_alice (js "alice") 100 rev1
                  (buf "wasm-1") (VStr (js "get")) (VObj []) (buf "{}") ∅ 3
                  eq_refl eq_refl eq_refl eq_refl eq_refl eq_refl eq_refl)).
Defined.

(** ** The resolver reads and never writes *)

Lemma reads_ret {A} (a : A) : sends_reads_only (ret a).
Proof. intros s. by exists []. Qed.

Lemma reads_throw {A} (e : Error) : sends_reads_only (@throw A e).
Proof. intros s. by exists []. Qed.

Lemma reads_await {A} (p : outcome A) : sends_reads_only (await p).
Proof. intros s. by exists []. Qed.

Lemma reads_bind {A B} (m : M A) (k : A -> M B) :
  sends_reads_only m -> (forall a, sends_reads_only (k a)) -> sends_reads_only (bind m k).
Proof.
  intros Hm Hk s. unfold bind. destruct (Hm s) as (new1 & Hw1 & Hr1).
  destruct (m s) as [[a|e] s1]; [|by exists new1].
  destruct (Hk a s1) as (new2 & Hw2 & Hr2). cbn [snd] in Hw1.
  exists (new2 ++ new1). split.
  - by rewrite Hw2, Hw1, app_assoc.
  - apply Forall_app. by split.
Qed.

Lemma reads_send (name : bytes) (args : list value) :
  read_command [name] -> sends_reads_only (send name args).
Proof.
  intros [rest Hname] s. unfold send.
  destruct (wire_args args) as [wargs|e]; [|by exists []].
  exists [name :: wargs]. split; [by destruct (server s _)|].
  constructor; [|constructor]. exists wargs.
  destruct Hname as [[= ->]|[[= ->]|[= ->]]]; auto.
Qed.

Lemma reads_Promise_all_map (f : value -> M value) (l : list value) :
  (forall x, sends_reads_only (f x)) -> sends_reads_only (Promise_all_map f l).
Proof.
  intros Hf. induction l as [|x l IH]; intros s; [by exists []|].
  cbn [Promise_all_map]. destruct (Hf x s) as (new1 & Hw1 & Hr1).
  destruct (f x s) as [o s1]. destruct (IH s1) as (new2 & Hw2 & Hr2).
  destruct (Promise_all_map f l s1) as [os s2]. cbn [snd] in *.
  exists (new2 ++ new1). split.
  - by rewrite Hw2, Hw1, app_assoc.
  - apply Forall_app. by split.
Qed.

Section ReadOnly.
Context `{PrettyBuffer}.

Lemma reads_withRedis (name : jsstring) (ce : bool)
    (fn : RedisClient -> list value -> M value) (args : list value) :
  sends_reads_only (fn redis_client args) -> sends_reads_only (withRedis name ce fn args).
Proof.
  intros Hfn s. unfold withRedis, bind, redisCache_get.
  destruct (lru_get (cacheKey name args) (Date_now s) (redisCache s)) as [[p|] c'];
    [by exists []|].
  cbn [getRedisClient redisCache_set]. unfold promise.
  change (with_redisCache _ (with_redisClient (with_redisCache c' s)))
    with (awaiting (cacheKey name args) ce c' s).
  destruct (Hfn (awaiting (cacheKey name args) ce c' s)) as (new & Hw & Hr).
  destruct (fn redis_client args (awaiting (cacheKey name args) ce c' s)) as [o s1].
  exists new. by split.
Qed.

Ltac reads :=
  repeat first
    [ progress cbv beta zeta
    | apply reads_withRedis
    | apply reads_send; eexists; first [by left | by right; left | by right; right]
    | apply reads_await | apply reads_ret | apply reads_throw
    | apply reads_bind; [|intros ?]
    | apply reads_Promise_all_map; intros ? ].

Lemma reads_scanDataKeys_entry (contractId blockHeight key : value) :
  sends_reads_only (scanDataKeys_entry contractId blockHeight key).
Proof.
  unfold scanDataKeys_entry, exports_getLatestDataBlockHash, exports_getData,
    getLatestDataBlockHash, getData.
  apply reads_bind; [reads|intros k]. cbv zeta.
  apply reads_bind; [reads|intros n]. cbv zeta.
  apply reads_bind; [reads|intros blockHash].
  destruct (falsy blockHash); reads.
Qed.

(** X21. The state resolver reads and never writes. Whatever the
    arguments, the cache and the answers of the store, the commands an
    exported operation sends are GET, ZREVRANGEBYSCORE and SCAN commands
    and no others, and nothing already sent is withdrawn. *)
Theorem resolver_sends_read_commands_only :
  forall (args : list value) (s : Process),
    Forall (fun op : list value -> M value =>
              exists new : list Command,
                wire (op args s).2 = new ++ wire s
                /\ Forall (fun cmd =>
                             exists rest : list bytes,
                               cmd = buf "GET" :: rest
                               \/ cmd = buf "ZREVRANGEBYSCORE" :: rest
                               \/ cmd = buf "SCAN" :: rest) new)
      [exports_getLatestBlockHeight; exports_getLatestContractBlockHash;
       exports_getContractCode; exports_getLatestAccountBlockHash;
       exports_getAccountData; exports_getLatestDataBlockHash; exports_getData;
       exports_scanDataKeys].
Proof.
  intros args s.
  repeat apply Forall_cons_2; [..|apply Forall_nil_2]; cbv beta;
    match goal with |- exists new, wire (?op args s).2 = _ /\ _ =>
      revert s; change (sends_reads_only (op args))
    end;
    unfold exports_getLatestBlockHeight, exports_getLatestContractBlockHash,
      exports_getContractCode, exports_getLatestAccountBlockHash, exports_getAccountData,
      exports_getLatestDataBlockHash, exports_getData, exports_scanDataKeys.
  - unfold getLatestBlockHeight. reads.
  - unfold getLatestContractBlockHash. reads.
  - unfold getContractCode. reads.
  - unfold getLatestAccountBlockHash. reads.
  - unfold getAccountData. reads.
  - unfold getLatestDataBlockHash. reads.
  - unfold getData. reads.
  - unfold scanDataKeys. apply reads_withRedis. cbv beta zeta.
    apply reads_bind; [reads|intros reply].
    apply reads_bind; [reads|intros [newIterator keys]].
    apply reads_bind; [reads|intros keys'].
    apply reads_bind; [|intros data; reads].
    apply reads_Promise_all_map. intros x. apply reads_scanDataKeys_entry.
Qed.

End ReadOnly.
